(** * The falling-obstacle mini game of [p5-animation]: model and properties

    The development follows the sketch closure of the [P5Animation]
    component: the closure variables become the fields of [state], every
    inner function of the sketch ([initSegments], [spawnObstacle],
    [resetGame], [setIntroOverlayState], [updateObstacles], [p.draw], ...)
    becomes a function on [state], and whatever the browser, React or p5
    supplies (the clock, the pointer, [Math.random], [sessionStorage],
    string conversions) is an explicit input.

    Numbers.  JavaScript numbers are IEEE doubles.  Here a finite number is
    an exact rational [Q]; rounding error of double arithmetic is not
    represented.  The non-finite values only matter where the source tests
    [Number.isFinite], and are kept in the type [number] for those places. *)

From Stdlib Require Import Ascii String QArith Qround Qminmax Qreals Reals Psatz Lia.
From stdpp Require Import base option list strings gmap pretty.

Local Open Scope Q_scope.

(** ** JavaScript numbers *)

Inductive number : Type :=
| Fin (q : Q)
| NaN
| Infinity
| NegInfinity.

Definition Number_isFinite (n : number) : bool :=
  match n with Fin _ => true | _ => false end.

(** [x < y] and [x !== y] on finite numbers. *)
Definition Qltb (x y : Q) : bool := negb (Qle_bool y x).
Definition Qneqb (x y : Q) : bool := negb (Qeq_bool x y).

Definition Math_max (a b : Q) : Q := if Qle_bool a b then b else a.
Definition Math_min (a b : Q) : Q := if Qle_bool a b then a else b.

(** [Number(value.toFixed(1))] for a finite [value]: the nearest multiple of
    one tenth, a tie going away from zero ([toFixed] rounds the magnitude
    and picks the larger candidate).  Above 1e21 [toFixed] prints the
    number itself; a double of that size is an integer, which the rounding
    below leaves alone as well. *)
Definition toFixed1 (value : Q) : Q :=
  if Qle_bool 0 value
  then inject_Z (Qfloor (value * 10 + 1 / 2)) / 10
  else - (inject_Z (Qfloor (- value * 10 + 1 / 2)) / 10).

Definition normalizeScore (value : number) : Q :=
  match value with
  | Fin v => toFixed1 v
  | _ => 0
  end.

(** ** Data model *)

Module Segment.
Record t : Type := mk { x : Q; y : Q; easeFactor : Q }.
End Segment.

Module Obstacle.
Record t : Type := mk { x : Q; y : Q; speed : Q; size : Q; drift : Q }.
End Obstacle.

(** A [p5.Image]: its size, and whether it has nothing to show. *)
Module Image.
Record t : Type := mk { width : Q; height : Q; blank : bool }.

(** The image [p.loadImage] creates and returns at once, 1 by 1 and
    empty; the file's picture is put into it when it arrives, and a load
    that fails leaves it as it is. *)
Definition placeholder : t := {| width := 1; height := 1; blank := true |}.
End Image.

Module HudState.
Record t : Type := mk { gameOver : bool; score : Q; bestScore : Q }.

(** A [Partial<HudState>]. *)
Record partial : Type :=
  mkPartial { p_gameOver : option bool; p_score : option Q;
              p_bestScore : option Q }.

(** [{ ...prev, ...partial }] *)
Definition merge (prev : t) (p : partial) : t :=
  {| gameOver := default (gameOver prev) (p_gameOver p);
     score := default (score prev) (p_score p);
     bestScore := default (bestScore prev) (p_bestScore p) |}.
End HudState.

Definition BEST_SCORE_KEY : string := "p5-animation-best-score".

(** [sessionStorage]: a string-to-string map whose accessors may throw
    (storage denied, quota exceeded).  [calls] records every access. *)
Module Storage.
Inductive call : Type :=
| GetItem (key : string)
| SetItem (key value : string).

Record t : Type :=
  mk { items : gmap string string; readable : bool; writable : bool;
       calls : list call }.

(** [None] stands for a thrown exception. *)
Definition getItem (key : string) (st : t) : option (option string) * t :=
  let st' := {| items := items st; readable := readable st;
                writable := writable st;
                calls := calls st ++ [GetItem key] |} in
  (if readable st then Some (items st !! key) else None, st').

Definition setItem (key value : string) (st : t) : option unit * t :=
  let logged := calls st ++ [SetItem key value] in
  if writable st
  then (Some tt, {| items := <[key := value]> (items st);
                    readable := readable st; writable := writable st;
                    calls := logged |})
  else (None, {| items := items st; readable := readable st;
                 writable := writable st; calls := logged |}).

Definition is_read (c : call) : bool :=
  match c with GetItem _ => true | SetItem _ _ => false end.

(** How many times the store has been read so far. *)
Definition reads (st : t) : nat := length (List.filter is_read (calls st)).
End Storage.

(** The drawing calls of a frame, in order.  What a call with a picture
    shows depends on the picture: see [painted]. *)
Inductive DrawOp : Type :=
| Background
| ScreenTexture (drawWidth drawHeight : Q)
| FlowingLines (offset : Q)
| ObstacleImage (x y imgWidth imgHeight : Q)
| BodyLine (x1 y1 x2 y2 : Q)
| HeadImage (x y : Q).

(** The inputs [p.draw] reads from the p5 instance. *)
Module Frame.
Record t : Type :=
  mk { millis : Q; deltaTime : Q; mouseX : number; mouseY : number }.
End Frame.

(** The host environment: the two string conversions of the language,
    [react-device-detect]'s constant, whether [navigator.vibrate] exists,
    and the successive results of [Math.random]. *)
Record Host : Type := mkHost {
  js_Number : string -> number;
  js_toString : Q -> string;
  isMobileDevice : bool;
  hasVibrate : bool;
  Math_random : nat -> Q
}.

(** ** The sketch state

    The closure variables of [sketch] that the code reads, then the fields
    of the p5 instance ([width], [height], the canvas content, how many
    random numbers were drawn, how often the device vibrated), then the
    page-level variables of the effect ([isMounted], the React HUD state,
    [sessionStorage], the console). *)

Record state : Type := mkState {
  segments : list Segment.t;
  headImage : option Image.t;
  backgroundTexture : option Image.t;
  obstacleImage : option Image.t;
  gyroX : Q;
  gyroY : Q;
  useGyro : bool;
  flowOffset : Q;
  introOverlayActive : bool;
  obstacles : list Obstacle.t;
  obstacleSpawnTimer : Q;
  nextObstacleDelay : Q;
  score : Q;
  bestScore : Q;
  roundStartTime : Q;
  lastHudScore : Q;
  gameOver : bool;
  width : Q;
  height : Q;
  canvas : list DrawOp;
  randomCalls : nat;
  vibrations : nat;
  isMounted : bool;
  hudState : HudState.t;
  sessionStorage : Storage.t;
  console : list string
}.

Definition set_segments (v : list Segment.t) (s : state) : state :=
  {| segments := v; headImage := headImage s;
     backgroundTexture := backgroundTexture s;
     obstacleImage := obstacleImage s; gyroX := gyroX s; gyroY := gyroY s;
     useGyro := useGyro s; flowOffset := flowOffset s;
     introOverlayActive := introOverlayActive s; obstacles := obstacles s;
     obstacleSpawnTimer := obstacleSpawnTimer s;
     nextObstacleDelay := nextObstacleDelay s; score := score s;
     bestScore := bestScore s; roundStartTime := roundStartTime s;
     lastHudScore := lastHudScore s; gameOver := gameOver s;
     width := width s; height := height s; canvas := canvas s;
     randomCalls := randomCalls s; vibrations := vibrations s;
     isMounted := isMounted s; hudState := hudState s;
     sessionStorage := sessionStorage s; console := console s |}.

Definition set_headImage (v : option Image.t) (s : state) : state :=
  {| segments := segments s; headImage := v;
     backgroundTexture := backgroundTexture s;
     obstacleImage := obstacleImage s; gyroX := gyroX s; gyroY := gyroY s;
     useGyro := useGyro s; flowOffset := flowOffset s;
     introOverlayActive := introOverlayActive s; obstacles := obstacles s;
     obstacleSpawnTimer := obstacleSpawnTimer s;
     nextObstacleDelay := nextObstacleDelay s; score := score s;
     bestScore := bestScore s; roundStartTime := roundStartTime s;
     lastHudScore := lastHudScore s; gameOver := gameOver s;
     width := width s; height := height s; canvas := canvas s;
     randomCalls := randomCalls s; vibrations := vibrations s;
     isMounted := isMounted s; hudState := hudState s;
     sessionStorage := sessionStorage s; console := console s |}.

Definition set_backgroundTexture (v : option Image.t) (s : state) : state :=
  {| segments := segments s; headImage := headImage s;
     backgroundTexture := v; obstacleImage := obstacleImage s;
     gyroX := gyroX s; gyroY := gyroY s; useGyro := useGyro s;
     flowOffset := flowOffset s; introOverlayActive := introOverlayActive s;
     obstacles := obstacles s; obstacleSpawnTimer := obstacleSpawnTimer s;
     nextObstacleDelay := nextObstacleDelay s; score := score s;
     bestScore := bestScore s; roundStartTime := roundStartTime s;
     lastHudScore := lastHudScore s; gameOver := gameOver s;
     width := width s; height := height s; canvas := canvas s;
     randomCalls := randomCalls s; vibrations := vibrations s;
     isMounted := isMounted s; hudState := hudState s;
     sessionStorage := sessionStorage s; console := console s |}.

Definition set_obstacleImage (v : option Image.t) (s : state) : state :=
  {| segments := segments s; headImage := headImage s;
     backgroundTexture := backgroundTexture s; obstacleImage := v;
     gyroX := gyroX s; gyroY := gyroY s; useGyro := useGyro s;
     flowOffset := flowOffset s; introOverlayActive := introOverlayActive s;
     obstacles := obstacles s; obstacleSpawnTimer := obstacleSpawnTimer s;
     nextObstacleDelay := nextObstacleDelay s; score := score s;
     bestScore := bestScore s; roundStartTime := roundStartTime s;
     lastHudScore := lastHudScore s; gameOver := gameOver s;
     width := width s; height := height s; canvas := canvas s;
     randomCalls := randomCalls s; vibrations := vibrations s;
     isMounted := isMounted s; hudState := hudState s;
     sessionStorage := sessionStorage s; console := console s |}.

Definition set_gyroX (v : Q) (s : state) : state :=
  {| segments := segments s; headImage := headImage s;
     backgroundTexture := backgroundTexture s;
     obstacleImage := obstacleImage s; gyroX := v; gyroY := gyroY s;
     useGyro := useGyro s; flowOffset := flowOffset s;
     introOverlayActive := introOverlayActive s; obstacles := obstacles s;
     obstacleSpawnTimer := obstacleSpawnTimer s;
     nextObstacleDelay := nextObstacleDelay s; score := score s;
     bestScore := bestScore s; roundStartTime := roundStartTime s;
     lastHudScore := lastHudScore s; gameOver := gameOver s;
     width := width s; height := height s; canvas := canvas s;
     randomCalls := randomCalls s; vibrations := vibrations s;
     isMounted := isMounted s; hudState := hudState s;
     sessionStorage := sessionStorage s; console := console s |}.

Definition set_gyroY (v : Q) (s : state) : state :=
  {| segments := segments s; headImage := headImage s;
     backgroundTexture := backgroundTexture s;
     obstacleImage := obstacleImage s; gyroX := gyroX s; gyroY := v;
     useGyro := useGyro s; flowOffset := flowOffset s;
     introOverlayActive := introOverlayActive s; obstacles := obstacles s;
     obstacleSpawnTimer := obstacleSpawnTimer s;
     nextObstacleDelay := nextObstacleDelay s; score := score s;
     bestScore := bestScore s; roundStartTime := roundStartTime s;
     lastHudScore := lastHudScore s; gameOver := gameOver s;
     width := width s; height := height s; canvas := canvas s;
     randomCalls := randomCalls s; vibrations := vibrations s;
     isMounted := isMounted s; hudState := hudState s;
     sessionStorage := sessionStorage s; console := console s |}.

Definition set_useGyro (v : bool) (s : state) : state :=
  {| segments := segments s; headImage := headImage s;
     backgroundTexture := backgroundTexture s;
     obstacleImage := obstacleImage s; gyroX := gyroX s; gyroY := gyroY s;
     useGyro := v; flowOffset := flowOffset s;
     introOverlayActive := introOverlayActive s; obstacles := obstacles s;
     obstacleSpawnTimer := obstacleSpawnTimer s;
     nextObstacleDelay := nextObstacleDelay s; score := score s;
     bestScore := bestScore s; roundStartTime := roundStartTime s;
     lastHudScore := lastHudScore s; gameOver := gameOver s;
     width := width s; height := height s; canvas := canvas s;
     randomCalls := randomCalls s; vibrations := vibrations s;
     isMounted := isMounted s; hudState := hudState s;
     sessionStorage := sessionStorage s; console := console s |}.

Definition set_flowOffset (v : Q) (s : state) : state :=
  {| segments := segments s; headImage := headImage s;
     backgroundTexture := backgroundTexture s;
     obstacleImage := obstacleImage s; gyroX := gyroX s; gyroY := gyroY s;
     useGyro := useGyro s; flowOffset := v;
     introOverlayActive := introOverlayActive s; obstacles := obstacles s;
     obstacleSpawnTimer := obstacleSpawnTimer s;
     nextObstacleDelay := nextObstacleDelay s; score := score s;
     bestScore := bestScore s; roundStartTime := roundStartTime s;
     lastHudScore := lastHudScore s; gameOver := gameOver s;
     width := width s; height := height s; canvas := canvas s;
     randomCalls := randomCalls s; vibrations := vibrations s;
     isMounted := isMounted s; hudState := hudState s;
     sessionStorage := sessionStorage s; console := console s |}.

Definition set_introOverlayActive (v : bool) (s : state) : state :=
  {| segments := segments s; headImage := headImage s;
     backgroundTexture := backgroundTexture s;
     obstacleImage := obstacleImage s; gyroX := gyroX s; gyroY := gyroY s;
     useGyro := useGyro s; flowOffset := flowOffset s;
     introOverlayActive := v; obstacles := obstacles s;
     obstacleSpawnTimer := obstacleSpawnTimer s;
     nextObstacleDelay := nextObstacleDelay s; score := score s;
     bestScore := bestScore s; roundStartTime := roundStartTime s;
     lastHudScore := lastHudScore s; gameOver := gameOver s;
     width := width s; height := height s; canvas := canvas s;
     randomCalls := randomCalls s; vibrations := vibrations s;
     isMounted := isMounted s; hudState := hudState s;
     sessionStorage := sessionStorage s; console := console s |}.

Definition set_obstacles (v : list Obstacle.t) (s : state) : state :=
  {| segments := segments s; headImage := headImage s;
     backgroundTexture := backgroundTexture s;
     obstacleImage := obstacleImage s; gyroX := gyroX s; gyroY := gyroY s;
     useGyro := useGyro s; flowOffset := flowOffset s;
     introOverlayActive := introOverlayActive s; obstacles := v;
     obstacleSpawnTimer := obstacleSpawnTimer s;
     nextObstacleDelay := nextObstacleDelay s; score := score s;
     bestScore := bestScore s; roundStartTime := roundStartTime s;
     lastHudScore := lastHudScore s; gameOver := gameOver s;
     width := width s; height := height s; canvas := canvas s;
     randomCalls := randomCalls s; vibrations := vibrations s;
     isMounted := isMounted s; hudState := hudState s;
     sessionStorage := sessionStorage s; console := console s |}.

Definition set_obstacleSpawnTimer (v : Q) (s : state) : state :=
  {| segments := segments s; headImage := headImage s;
     backgroundTexture := backgroundTexture s;
     obstacleImage := obstacleImage s; gyroX := gyroX s; gyroY := gyroY s;
     useGyro := useGyro s; flowOffset := flowOffset s;
     introOverlayActive := introOverlayActive s; obstacles := obstacles s;
     obstacleSpawnTimer := v; nextObstacleDelay := nextObstacleDelay s;
     score := score s; bestScore := bestScore s;
     roundStartTime := roundStartTime s; lastHudScore := lastHudScore s;
     gameOver := gameOver s; width := width s; height := height s;
     canvas := canvas s; randomCalls := randomCalls s;
     vibrations := vibrations s; isMounted := isMounted s;
     hudState := hudState s; sessionStorage := sessionStorage s;
     console := console s |}.

Definition set_nextObstacleDelay (v : Q) (s : state) : state :=
  {| segments := segments s; headImage := headImage s;
     backgroundTexture := backgroundTexture s;
     obstacleImage := obstacleImage s; gyroX := gyroX s; gyroY := gyroY s;
     useGyro := useGyro s; flowOffset := flowOffset s;
     introOverlayActive := introOverlayActive s; obstacles := obstacles s;
     obstacleSpawnTimer := obstacleSpawnTimer s; nextObstacleDelay := v;
     score := score s; bestScore := bestScore s;
     roundStartTime := roundStartTime s; lastHudScore := lastHudScore s;
     gameOver := gameOver s; width := width s; height := height s;
     canvas := canvas s; randomCalls := randomCalls s;
     vibrations := vibrations s; isMounted := isMounted s;
     hudState := hudState s; sessionStorage := sessionStorage s;
     console := console s |}.

Definition set_score (v : Q) (s : state) : state :=
  {| segments := segments s; headImage := headImage s;
     backgroundTexture := backgroundTexture s;
     obstacleImage := obstacleImage s; gyroX := gyroX s; gyroY := gyroY s;
     useGyro := useGyro s; flowOffset := flowOffset s;
     introOverlayActive := introOverlayActive s; obstacles := obstacles s;
     obstacleSpawnTimer := obstacleSpawnTimer s;
     nextObstacleDelay := nextObstacleDelay s; score := v;
     bestScore := bestScore s; roundStartTime := roundStartTime s;
     lastHudScore := lastHudScore s; gameOver := gameOver s;
     width := width s; height := height s; canvas := canvas s;
     randomCalls := randomCalls s; vibrations := vibrations s;
     isMounted := isMounted s; hudState := hudState s;
     sessionStorage := sessionStorage s; console := console s |}.

Definition set_bestScore (v : Q) (s : state) : state :=
  {| segments := segments s; headImage := headImage s;
     backgroundTexture := backgroundTexture s;
     obstacleImage := obstacleImage s; gyroX := gyroX s; gyroY := gyroY s;
     useGyro := useGyro s; flowOffset := flowOffset s;
     introOverlayActive := introOverlayActive s; obstacles := obstacles s;
     obstacleSpawnTimer := obstacleSpawnTimer s;
     nextObstacleDelay := nextObstacleDelay s; score := score s;
     bestScore := v; roundStartTime := roundStartTime s;
     lastHudScore := lastHudScore s; gameOver := gameOver s;
     width := width s; height := height s; canvas := canvas s;
     randomCalls := randomCalls s; vibrations := vibrations s;
     isMounted := isMounted s; hudState := hudState s;
     sessionStorage := sessionStorage s; console := console s |}.

Definition set_roundStartTime (v : Q) (s : state) : state :=
  {| segments := segments s; headImage := headImage s;
     backgroundTexture := backgroundTexture s;
     obstacleImage := obstacleImage s; gyroX := gyroX s; gyroY := gyroY s;
     useGyro := useGyro s; flowOffset := flowOffset s;
     introOverlayActive := introOverlayActive s; obstacles := obstacles s;
     obstacleSpawnTimer := obstacleSpawnTimer s;
     nextObstacleDelay := nextObstacleDelay s; score := score s;
     bestScore := bestScore s; roundStartTime := v;
     lastHudScore := lastHudScore s; gameOver := gameOver s;
     width := width s; height := height s; canvas := canvas s;
     randomCalls := randomCalls s; vibrations := vibrations s;
     isMounted := isMounted s; hudState := hudState s;
     sessionStorage := sessionStorage s; console := console s |}.

Definition set_lastHudScore (v : Q) (s : state) : state :=
  {| segments := segments s; headImage := headImage s;
     backgroundTexture := backgroundTexture s;
     obstacleImage := obstacleImage s; gyroX := gyroX s; gyroY := gyroY s;
     useGyro := useGyro s; flowOffset := flowOffset s;
     introOverlayActive := introOverlayActive s; obstacles := obstacles s;
     obstacleSpawnTimer := obstacleSpawnTimer s;
     nextObstacleDelay := nextObstacleDelay s; score := score s;
     bestScore := bestScore s; roundStartTime := roundStartTime s;
     lastHudScore := v; gameOver := gameOver s; width := width s;
     height := height s; canvas := canvas s; randomCalls := randomCalls s;
     vibrations := vibrations s; isMounted := isMounted s;
     hudState := hudState s; sessionStorage := sessionStorage s;
     console := console s |}.

Definition set_gameOver (v : bool) (s : state) : state :=
  {| segments := segments s; headImage := headImage s;
     backgroundTexture := backgroundTexture s;
     obstacleImage := obstacleImage s; gyroX := gyroX s; gyroY := gyroY s;
     useGyro := useGyro s; flowOffset := flowOffset s;
     introOverlayActive := introOverlayActive s; obstacles := obstacles s;
     obstacleSpawnTimer := obstacleSpawnTimer s;
     nextObstacleDelay := nextObstacleDelay s; score := score s;
     bestScore := bestScore s; roundStartTime := roundStartTime s;
     lastHudScore := lastHudScore s; gameOver := v; width := width s;
     height := height s; canvas := canvas s; randomCalls := randomCalls s;
     vibrations := vibrations s; isMounted := isMounted s;
     hudState := hudState s; sessionStorage := sessionStorage s;
     console := console s |}.

Definition set_width (v : Q) (s : state) : state :=
  {| segments := segments s; headImage := headImage s;
     backgroundTexture := backgroundTexture s;
     obstacleImage := obstacleImage s; gyroX := gyroX s; gyroY := gyroY s;
     useGyro := useGyro s; flowOffset := flowOffset s;
     introOverlayActive := introOverlayActive s; obstacles := obstacles s;
     obstacleSpawnTimer := obstacleSpawnTimer s;
     nextObstacleDelay := nextObstacleDelay s; score := score s;
     bestScore := bestScore s; roundStartTime := roundStartTime s;
     lastHudScore := lastHudScore s; gameOver := gameOver s; width := v;
     height := height s; canvas := canvas s; randomCalls := randomCalls s;
     vibrations := vibrations s; isMounted := isMounted s;
     hudState := hudState s; sessionStorage := sessionStorage s;
     console := console s |}.

Definition set_height (v : Q) (s : state) : state :=
  {| segments := segments s; headImage := headImage s;
     backgroundTexture := backgroundTexture s;
     obstacleImage := obstacleImage s; gyroX := gyroX s; gyroY := gyroY s;
     useGyro := useGyro s; flowOffset := flowOffset s;
     introOverlayActive := introOverlayActive s; obstacles := obstacles s;
     obstacleSpawnTimer := obstacleSpawnTimer s;
     nextObstacleDelay := nextObstacleDelay s; score := score s;
     bestScore := bestScore s; roundStartTime := roundStartTime s;
     lastHudScore := lastHudScore s; gameOver := gameOver s;
     width := width s; height := v; canvas := canvas s;
     randomCalls := randomCalls s; vibrations := vibrations s;
     isMounted := isMounted s; hudState := hudState s;
     sessionStorage := sessionStorage s; console := console s |}.

Definition set_canvas (v : list DrawOp) (s : state) : state :=
  {| segments := segments s; headImage := headImage s;
     backgroundTexture := backgroundTexture s;
     obstacleImage := obstacleImage s; gyroX := gyroX s; gyroY := gyroY s;
     useGyro := useGyro s; flowOffset := flowOffset s;
     introOverlayActive := introOverlayActive s; obstacles := obstacles s;
     obstacleSpawnTimer := obstacleSpawnTimer s;
     nextObstacleDelay := nextObstacleDelay s; score := score s;
     bestScore := bestScore s; roundStartTime := roundStartTime s;
     lastHudScore := lastHudScore s; gameOver := gameOver s;
     width := width s; height := height s; canvas := v;
     randomCalls := randomCalls s; vibrations := vibrations s;
     isMounted := isMounted s; hudState := hudState s;
     sessionStorage := sessionStorage s; console := console s |}.

Definition set_randomCalls (v : nat) (s : state) : state :=
  {| segments := segments s; headImage := headImage s;
     backgroundTexture := backgroundTexture s;
     obstacleImage := obstacleImage s; gyroX := gyroX s; gyroY := gyroY s;
     useGyro := useGyro s; flowOffset := flowOffset s;
     introOverlayActive := introOverlayActive s; obstacles := obstacles s;
     obstacleSpawnTimer := obstacleSpawnTimer s;
     nextObstacleDelay := nextObstacleDelay s; score := score s;
     bestScore := bestScore s; roundStartTime := roundStartTime s;
     lastHudScore := lastHudScore s; gameOver := gameOver s;
     width := width s; height := height s; canvas := canvas s;
     randomCalls := v; vibrations := vibrations s; isMounted := isMounted s;
     hudState := hudState s; sessionStorage := sessionStorage s;
     console := console s |}.

Definition set_vibrations (v : nat) (s : state) : state :=
  {| segments := segments s; headImage := headImage s;
     backgroundTexture := backgroundTexture s;
     obstacleImage := obstacleImage s; gyroX := gyroX s; gyroY := gyroY s;
     useGyro := useGyro s; flowOffset := flowOffset s;
     introOverlayActive := introOverlayActive s; obstacles := obstacles s;
     obstacleSpawnTimer := obstacleSpawnTimer s;
     nextObstacleDelay := nextObstacleDelay s; score := score s;
     bestScore := bestScore s; roundStartTime := roundStartTime s;
     lastHudScore := lastHudScore s; gameOver := gameOver s;
     width := width s; height := height s; canvas := canvas s;
     randomCalls := randomCalls s; vibrations := v; isMounted := isMounted s;
     hudState := hudState s; sessionStorage := sessionStorage s;
     console := console s |}.

Definition set_isMounted (v : bool) (s : state) : state :=
  {| segments := segments s; headImage := headImage s;
     backgroundTexture := backgroundTexture s;
     obstacleImage := obstacleImage s; gyroX := gyroX s; gyroY := gyroY s;
     useGyro := useGyro s; flowOffset := flowOffset s;
     introOverlayActive := introOverlayActive s; obstacles := obstacles s;
     obstacleSpawnTimer := obstacleSpawnTimer s;
     nextObstacleDelay := nextObstacleDelay s; score := score s;
     bestScore := bestScore s; roundStartTime := roundStartTime s;
     lastHudScore := lastHudScore s; gameOver := gameOver s;
     width := width s; height := height s; canvas := canvas s;
     randomCalls := randomCalls s; vibrations := vibrations s;
     isMounted := v; hudState := hudState s;
     sessionStorage := sessionStorage s; console := console s |}.

Definition set_hudState (v : HudState.t) (s : state) : state :=
  {| segments := segments s; headImage := headImage s;
     backgroundTexture := backgroundTexture s;
     obstacleImage := obstacleImage s; gyroX := gyroX s; gyroY := gyroY s;
     useGyro := useGyro s; flowOffset := flowOffset s;
     introOverlayActive := introOverlayActive s; obstacles := obstacles s;
     obstacleSpawnTimer := obstacleSpawnTimer s;
     nextObstacleDelay := nextObstacleDelay s; score := score s;
     bestScore := bestScore s; roundStartTime := roundStartTime s;
     lastHudScore := lastHudScore s; gameOver := gameOver s;
     width := width s; height := height s; canvas := canvas s;
     randomCalls := randomCalls s; vibrations := vibrations s;
     isMounted := isMounted s; hudState := v;
     sessionStorage := sessionStorage s; console := console s |}.

Definition set_sessionStorage (v : Storage.t) (s : state) : state :=
  {| segments := segments s; headImage := headImage s;
     backgroundTexture := backgroundTexture s;
     obstacleImage := obstacleImage s; gyroX := gyroX s; gyroY := gyroY s;
     useGyro := useGyro s; flowOffset := flowOffset s;
     introOverlayActive := introOverlayActive s; obstacles := obstacles s;
     obstacleSpawnTimer := obstacleSpawnTimer s;
     nextObstacleDelay := nextObstacleDelay s; score := score s;
     bestScore := bestScore s; roundStartTime := roundStartTime s;
     lastHudScore := lastHudScore s; gameOver := gameOver s;
     width := width s; height := height s; canvas := canvas s;
     randomCalls := randomCalls s; vibrations := vibrations s;
     isMounted := isMounted s; hudState := hudState s; sessionStorage := v;
     console := console s |}.

Definition set_console (v : list string) (s : state) : state :=
  {| segments := segments s; headImage := headImage s;
     backgroundTexture := backgroundTexture s;
     obstacleImage := obstacleImage s; gyroX := gyroX s; gyroY := gyroY s;
     useGyro := useGyro s; flowOffset := flowOffset s;
     introOverlayActive := introOverlayActive s; obstacles := obstacles s;
     obstacleSpawnTimer := obstacleSpawnTimer s;
     nextObstacleDelay := nextObstacleDelay s; score := score s;
     bestScore := bestScore s; roundStartTime := roundStartTime s;
     lastHudScore := lastHudScore s; gameOver := gameOver s;
     width := width s; height := height s; canvas := canvas s;
     randomCalls := randomCalls s; vibrations := vibrations s;
     isMounted := isMounted s; hudState := hudState s;
     sessionStorage := sessionStorage s; console := v |}.
(** ** The functions of the sketch *)

(** [p.map(n, start1, stop1, start2, stop2)] *)
Definition p_map (n start1 stop1 start2 stop2 : Q) : Q :=
  (n - start1) / (stop1 - start1) * (stop2 - start2) + start2.

(** [p.dist(x1, y1, x2, y2) < r].  The distance is a square root, which is
    not a rational, so the comparison is decided on the squares; lemma
    [dist_lt_sqrt] below relates it to the real square root. *)
Definition dist_lt (x1 y1 x2 y2 r : Q) : bool :=
  Qltb 0 r &&
  Qltb ((x2 - x1) * (x2 - x1) + (y2 - y1) * (y2 - y1)) (r * r).

Definition numSegments : nat := 5.

Definition headRadius : Q := 80.

Section Sketch.

Context (host : Host).

(** [p.random(min, max)]: a [Math.random] value scaled into the range, the
    bounds exchanged when given in the wrong order. *)
Definition scaled (rand min max : Q) : Q :=
  if Qltb max min
  then rand * (min - max) + max
  else rand * (max - min) + min.

(** The call consumes the next value of [Math.random]. *)
Definition p_random (min max : Q) (s : state) : Q * state :=
  (scaled (Math_random host (randomCalls s)) min max,
   set_randomCalls (S (randomCalls s)) s).

Definition console_log (msg : string) (s : state) : state :=
  set_console (console s ++ [msg]) s.

(** [readSessionBest] runs before the sketch exists, on the store and the
    console alone. *)
Definition readSessionBest (st : Storage.t) (log : list string)
  : Q * Storage.t * list string :=
  match Storage.getItem BEST_SCORE_KEY st with
  | (Some raw, st) =>
      let numeric :=
        match raw with
        | None => Fin 0
        | Some str => if String.eqb str "" then Fin 0 else js_Number host str
        end in
      (match numeric with Fin q => q | _ => 0 end, st, log)
  | (None, st) =>
      (0, st, log ++ ["Unable to read session best score"%string])
  end.

Definition writeSessionBest (value : Q) (s : state) : state :=
  match Storage.setItem BEST_SCORE_KEY (js_toString host value)
                        (sessionStorage s) with
  | (Some _, st) => set_sessionStorage st s
  | (None, st) =>
      console_log "Unable to persist session best score"
                  (set_sessionStorage st s)
  end.

Definition updateHud (partial : HudState.partial) (s : state) : state :=
  if negb (isMounted s) then s
  else set_hudState (HudState.merge (hudState s) partial) s.

(** The loop of [initSegments]: [count] iterations remain, [i] is the
    loop variable. *)
Fixpoint initSegments_loop (count i : nat) (canvasWidth canvasHeight : Q)
         (segs : list Segment.t) : list Segment.t :=
  match count with
  | O => segs
  | S count' =>
      initSegments_loop count' (S i) canvasWidth canvasHeight
        (segs ++ [ {| Segment.x := canvasWidth / 2;
                      Segment.y := canvasHeight / 2;
                      Segment.easeFactor :=
                        0.16 - inject_Z (Z.of_nat i) * 0.004 |} ])
  end.

Definition initSegments (canvasWidth canvasHeight : Q) (s : state) : state :=
  set_segments (initSegments_loop numSegments 0 canvasWidth canvasHeight []) s.

(** [handleOrientation]; [beta] and [gamma] are [null] or a number of
    degrees, and [event.beta || 0] replaces [null] by 0. *)
Definition handleOrientation (beta gamma : option Q) (s : state) : state :=
  let beta := default 0 beta in
  let gamma := default 0 gamma in
  let clampedBeta := Math_max (-90) (Math_min 90 beta) in
  let clampedGamma := Math_max (-90) (Math_min 90 gamma) in
  let s := set_gyroX (p_map clampedGamma (-90) 90 0 (width s)) s in
  set_gyroY (p_map clampedBeta (-90) 90 0 (height s)) s.

Definition drawFlowingLines (s : state) : state :=
  let speed := if introOverlayActive s then 0.18 else 0.5 in
  let s := set_canvas (canvas s ++ [FlowingLines (flowOffset s)]) s in
  set_flowOffset (flowOffset s + speed) s.

Definition drawScreenTexture (s : state) : state :=
  match backgroundTexture s with
  | None => s
  | Some texture =>
      let canvasAspect := width s / height s in
      let textureAspect := Image.width texture / Image.height texture in
      let '(drawWidth, drawHeight) :=
        if Qltb canvasAspect textureAspect
        then (textureAspect * height s, height s)
        else (width s, width s / textureAspect) in
      set_canvas (canvas s ++ [ScreenTexture drawWidth drawHeight]) s
  end.

Definition spawnObstacle (s : state) : state :=
  match obstacleImage s with
  | None => s
  | Some _ =>
      let '(size, s) := p_random 40 80 s in
      let '(x, s) := p_random (size / 2) (width s - size / 2) s in
      let '(speed, s) := p_random 1.2 2.4 s in
      let '(drift, s) := p_random (-0.4) 0.4 s in
      set_obstacles
        (obstacles s ++ [ {| Obstacle.x := x; Obstacle.y := - size;
                            Obstacle.speed := speed; Obstacle.size := size;
                            Obstacle.drift := drift |} ]) s
  end.

(** [resetGame]; [now] is what [p.millis()] returns. *)
Definition resetGame (now : Q) (s : state) : state :=
  let s := set_obstacles [] s in
  let s := set_obstacleSpawnTimer 0 s in
  let '(delay, s) := p_random 900 1600 s in
  let s := set_nextObstacleDelay delay s in
  let s := set_score 0 s in
  let s := set_roundStartTime now s in
  let s := set_lastHudScore (-1) s in
  let s := set_gameOver false s in
  let s := initSegments (width s) (height s) s in
  updateHud {| HudState.p_gameOver := Some false;
               HudState.p_score := Some 0;
               HudState.p_bestScore :=
                 Some (normalizeScore (Fin (bestScore s))) |} s.

Definition setIntroOverlayState (value : bool) (s : state) : state :=
  let s := set_introOverlayActive value s in
  if value then set_obstacles [] s
  else
    let s := set_obstacleSpawnTimer 0 s in
    let '(delay, s) := p_random 900 1600 s in
    set_nextObstacleDelay delay s.

Definition triggerVibration (s : state) : state :=
  if negb (hasVibrate host) then s
  else set_vibrations (S (vibrations s)) s.

(** The body of the collision branch of [updateObstacles]. *)
Definition onCollision (s : state) : state :=
  let s := set_gameOver true s in
  let s := triggerVibration s in
  let roundedScore := normalizeScore (Fin (score s)) in
  let s := set_score roundedScore s in
  let s :=
    if Qltb (bestScore s) roundedScore
    then writeSessionBest roundedScore (set_bestScore roundedScore s)
    else s in
  updateHud {| HudState.p_gameOver := Some true;
               HudState.p_score := Some roundedScore;
               HudState.p_bestScore :=
                 Some (normalizeScore (Fin (bestScore s))) |} s.

(** [obstacle.y += obstacle.speed; obstacle.x += obstacle.drift] *)
Definition fall (o : Obstacle.t) : Obstacle.t :=
  {| Obstacle.x := Obstacle.x o + Obstacle.drift o;
     Obstacle.y := Obstacle.y o + Obstacle.speed o;
     Obstacle.speed := Obstacle.speed o; Obstacle.size := Obstacle.size o;
     Obstacle.drift := Obstacle.drift o |}.

(** [p.dist(head.x, head.y, obstacle.x, obstacle.y) < headRadius +
    obstacle.size * 0.45] *)
Definition hits (head : Segment.t) (o : Obstacle.t) : bool :=
  dist_lt (Segment.x head) (Segment.y head) (Obstacle.x o) (Obstacle.y o)
          (headRadius + Obstacle.size o * 0.45).

(** [obstacle.y - obstacle.size / 2 > p.height + 50] *)
Definition pastViewport (canvasHeight : Q) (o : Obstacle.t) : bool :=
  Qltb (canvasHeight + 50) (Obstacle.y o - Obstacle.size o / 2).

(** One iteration of the loop of [updateObstacles], at index [i].  The
    obstacle is an object mutated in place, so the moved obstacle is
    written back at its index.  The loop only visits indices below the
    length, so the lookup always succeeds. *)
Definition obstacleStep (img : Image.t) (head : option Segment.t) (i : nat)
           (s : state) : state :=
  match obstacles s !! i with
  | None => s
  | Some obstacle =>
      let obstacle := if negb (gameOver s) then fall obstacle else obstacle in
      let s := set_obstacles (<[i := obstacle]> (obstacles s)) s in
      let imgWidth :=
        Obstacle.size obstacle * (Image.width img / Image.height img) in
      let s :=
        set_canvas
          (canvas s ++ [ObstacleImage (Obstacle.x obstacle)
                          (Obstacle.y obstacle) imgWidth
                          (Obstacle.size obstacle)]) s in
      let s :=
        match head with
        | Some head =>
            if negb (gameOver s) && hits head obstacle
            then onCollision s else s
        | None => s
        end in
      if negb (gameOver s) && pastViewport (height s) obstacle
      then set_obstacles (delete i (obstacles s)) s
      else s
  end.

(** [for (let i = obstacles.length - 1; i >= 0; i -= 1)]: [n] is [i + 1]. *)
Fixpoint obstacleLoop (img : Image.t) (head : option Segment.t) (n : nat)
         (s : state) : state :=
  match n with
  | O => s
  | S i => obstacleLoop img head i (obstacleStep img head i s)
  end.

(** The spawn timer at the top of [updateObstacles]. *)
Definition spawnTick (deltaTime : Q) (s : state) : state :=
  if negb (gameOver s) then
    let s := set_obstacleSpawnTimer (obstacleSpawnTimer s + deltaTime) s in
    if Qle_bool (nextObstacleDelay s) (obstacleSpawnTimer s) then
      let s := spawnObstacle s in
      let s := set_obstacleSpawnTimer 0 s in
      let '(delay, s) := p_random 900 1600 s in
      set_nextObstacleDelay delay s
    else s
  else s.

Definition updateObstacles (f : Frame.t) (s : state) : state :=
  match obstacleImage s with
  | None => s
  | Some img =>
      if introOverlayActive s then s
      else
        let s := spawnTick (Frame.deltaTime f) s in
        let head := segments s !! 0%nat in
        obstacleLoop img head (length (obstacles s)) s
  end.

(** [curr.x += (tx - curr.x) * curr.easeFactor], and the same for [y]. *)
Definition easeToward (curr : Segment.t) (tx ty : Q) : Segment.t :=
  {| Segment.x :=
       Segment.x curr + (tx - Segment.x curr) * Segment.easeFactor curr;
     Segment.y :=
       Segment.y curr + (ty - Segment.y curr) * Segment.easeFactor curr;
     Segment.easeFactor := Segment.easeFactor curr |}.

(** [for (let i = 1; i < segments.length; i += 1)]: [count] iterations
    remain.  [prev] is read from the array as it is at that moment. *)
Fixpoint followLoop (count i : nat) (segs : list Segment.t)
  : list Segment.t :=
  match count with
  | O => segs
  | S count' =>
      match segs !! (i - 1)%nat, segs !! i with
      | Some prev, Some curr =>
          followLoop count' (S i)
            (<[i := easeToward curr (Segment.x prev) (Segment.y prev)]> segs)
      | _, _ => segs
      end
  end.

(** The chain update of [p.draw] for a given target. *)
Definition followTarget (targetX targetY : Q) (segs : list Segment.t)
  : list Segment.t :=
  match segs !! 0%nat with
  | None => segs
  | Some first =>
      let segs := <[0%nat := easeToward first targetX targetY]> segs in
      followLoop (length segs - 1) 1 segs
  end.

(** [Number.isFinite(m) && m >= 0 ? m : fallback] *)
Definition pointerOr (m : number) (fallback : Q) : Q :=
  match m with
  | Fin q => if Qle_bool 0 q then q else fallback
  | _ => fallback
  end.

Definition target (f : Frame.t) (s : state) : Q * Q :=
  if useGyro s then (gyroX s, gyroY s)
  else (pointerOr (Frame.mouseX f) (width s / 2),
        pointerOr (Frame.mouseY f) (height s / 2)).

(** The gradient loop of [drawBodyStroke], [for (let i = segments.length
    - 1; i > 0; i -= 1)]; the colours are left out. *)
Fixpoint strokeLoop (i : nat) (segs : list Segment.t) : list DrawOp :=
  match i with
  | O => []
  | S j =>
      match segs !! i, segs !! j with
      | Some curr, Some prev =>
          BodyLine (Segment.x curr) (Segment.y curr)
                   (Segment.x prev) (Segment.y prev) :: strokeLoop j segs
      | _, _ => strokeLoop j segs
      end
  end.

Definition drawBodyStroke (s : state) : state :=
  if (length (segments s) <? 2)%nat then s
  else set_canvas
         (canvas s ++ strokeLoop (length (segments s) - 1) (segments s)) s.

(** The head picture; its rotation is left out, and [offsetRadius] is 0. *)
Definition drawHead (s : state) : state :=
  match headImage s, segments s !! 0%nat with
  | Some _, Some head =>
      set_canvas (canvas s ++ [HeadImage (Segment.x head) (Segment.y head)]) s
  | _, _ => s
  end.

(** The score block at the top of [p.draw]. *)
Definition updateScore (f : Frame.t) (s : state) : state :=
  if negb (gameOver s) then
    let elapsedSeconds :=
      Math_max 0 ((Frame.millis f - roundStartTime s) / 1000) in
    let s := set_score elapsedSeconds s in
    let roundedElapsed := normalizeScore (Fin elapsedSeconds) in
    if Qneqb roundedElapsed (lastHudScore s) then
      let s := set_lastHudScore roundedElapsed s in
      updateHud {| HudState.p_gameOver := None;
                   HudState.p_score := Some roundedElapsed;
                   HudState.p_bestScore := None |} s
    else s
  else s.

Definition draw (f : Frame.t) (s : state) : state :=
  let s := set_canvas [Background] s in
  let s := drawScreenTexture s in
  let s := drawFlowingLines s in
  let s := updateScore f s in
  let s := updateObstacles f s in
  match segments s with
  | [] => s
  | _ :: _ =>
      let s :=
        if negb (gameOver s) then
          let '(targetX, targetY) := target f s in
          set_segments (followTarget targetX targetY (segments s)) s
        else s in
      let s := drawBodyStroke s in
      drawHead s
  end.

Definition canvasSize (viewportWidth viewportHeight : Q) : Q * Q :=
  (if isMobileDevice host then viewportWidth else 800, viewportHeight).

(** [p.resizeCanvas]: it sets the size and then calls [redraw()], which
    runs [p.draw] once on the resized canvas; [f] is what that frame
    reads from the p5 instance. *)
Definition resizeCanvas (canvasWidth canvasHeight : Q) (f : Frame.t)
           (s : state) : state :=
  draw f (set_height canvasHeight (set_width canvasWidth s)).

(** [p.windowResized]: the chain is put back to the centre after the
    frame that [p.resizeCanvas] draws. *)
Definition windowResized (viewportWidth viewportHeight : Q) (f : Frame.t)
           (s : state) : state :=
  let '(canvasWidth, canvasHeight) :=
    canvasSize viewportWidth viewportHeight in
  let s := resizeCanvas canvasWidth canvasHeight f s in
  initSegments canvasWidth canvasHeight s.

Definition setup (viewportWidth viewportHeight now : Q) (s : state)
  : state :=
  let '(canvasWidth, canvasHeight) :=
    canvasSize viewportWidth viewportHeight in
  let s := set_height canvasHeight (set_width canvasWidth s) in
  resetGame now s.

(** What becomes of one file [p.loadImage] is asked for: the picture the
    file holds, and whether fetching or decoding it fails, in which case
    the failure callback is called. *)
Record Load : Type := mkLoad { picture : Image.t; failed : bool }.

(** The value [p.loadImage] returns, as it is when [preload] is over: the
    image object created at the call, holding the picture, or still the
    placeholder when the load has failed.  It is never [null]. *)
Definition handle (l : Load) : option Image.t :=
  Some (if failed l then Image.placeholder else picture l).

Definition loadImage (failure : string) (l : Load) (s : state)
  : option Image.t * state :=
  (handle l, if failed l then console_log failure s else s).

(** [p.preload]; the pattern and year pictures are loaded but never read
    afterwards, so only their failure messages are kept. *)
Definition preload (head pattern year texture obstacle : Load) (s : state)
  : state :=
  let '(img, s) := loadImage "Failed to load /head.png" head s in
  let s := set_headImage img s in
  let '(_, s) := loadImage "Failed to load /pattern.png" pattern s in
  let '(_, s) := loadImage "Failed to load /2025.png" year s in
  let '(img, s) :=
    loadImage "Failed to load /noita-digital-zcx5ztIjQAM-unsplash.png"
              texture s in
  let s := set_backgroundTexture img s in
  let '(img, s) := loadImage "Failed to load /2026.png" obstacle s in
  set_obstacleImage img s.

(** The body of the mounting effect up to the creation of the sketch:
    the single read of the stored best score and the initial values of
    the closure variables.  The canvas has no size before [setup]. *)
Definition mount (st : Storage.t) : state :=
  let '(best, st, log) := readSessionBest st [] in
  let initialBestScore := normalizeScore (Fin best) in
  {| segments := []; headImage := None; backgroundTexture := None;
     obstacleImage := None; gyroX := 0; gyroY := 0; useGyro := false;
     flowOffset := 0; introOverlayActive := true; obstacles := [];
     obstacleSpawnTimer := 0; nextObstacleDelay := 1200; score := 0;
     bestScore := initialBestScore; roundStartTime := 0;
     lastHudScore := -1; gameOver := false; width := 0; height := 0;
     canvas := []; randomCalls := 0; vibrations := 0; isMounted := true;
     hudState := {| HudState.gameOver := false; HudState.score := 0;
                    HudState.bestScore := initialBestScore |};
     sessionStorage := st; console := log |}.

(** ** The page around the sketch *)

(** What [setupGyroSensor] finds: no orientation events at all, events
    without a permission gate, or a permission request whose answer
    arrives later. *)
Inductive OrientationApi : Type := NoOrientation | Ungated | Gated.

Definition setupGyroSensor (api : OrientationApi) (s : state) : state :=
  match api with
  | Ungated => set_useGyro true s
  | NoOrientation | Gated => s
  end.

(** The answer to the permission request of [setupGyroSensor]: the promise
    resolves with "granted" or with something else, or it is rejected. *)
Inductive PermissionAnswer : Type := Granted | Refused | Rejected.

Definition permissionAnswered (answer : PermissionAnswer) (s : state) : state :=
  match answer with
  | Granted =>
      console_log "Gyro permission granted; sensor active."
                  (set_useGyro true s)
  | Refused => s
  | Rejected =>
      console_log "Gyro permission denied; sensor inactive."
                  (console_log "Gyro permission denied:" s)
  end.

(** [handleStartClick], followed by the effect on [hasStarted] that calls
    [setIntroOverlay(false)]. *)
Definition handleStartClick (api : OrientationApi) (now : Q) (s : state)
  : state :=
  let s :=
    if isMobileDevice host
    then setupGyroSensor api
           (console_log "Requesting gyro activation on start..." s)
    else console_log
           "Non-mobile device detected; skipping gyro activation." s in
  setIntroOverlayState false (resetGame now s).

Definition handleRetryClick (now : Q) (s : state) : state :=
  resetGame now s.

Definition unmount (s : state) : state := set_isMounted false s.

(** Everything that can happen to a mounted sketch. *)
Inductive event : Type :=
| Draw (f : Frame.t)
| ResetGame (now : Q)
| SetIntroOverlay (value : bool)
| WindowResized (viewportWidth viewportHeight : Q) (f : Frame.t)
| Orientation (beta gamma : option Q)
| GyroSetup (api : OrientationApi)
| PermissionAnswered (answer : PermissionAnswer)
| Unmount.

Definition step (e : event) (s : state) : state :=
  match e with
  | Draw f => draw f s
  | ResetGame now => resetGame now s
  | SetIntroOverlay value => setIntroOverlayState value s
  | WindowResized vw vh f => windowResized vw vh f s
  | Orientation beta gamma => handleOrientation beta gamma s
  | GyroSetup api => setupGyroSensor api s
  | PermissionAnswered answer => permissionAnswered answer s
  | Unmount => unmount s
  end.

Fixpoint run (es : list event) (s : state) : state :=
  match es with
  | [] => s
  | e :: es => run es (step e s)
  end.

Definition isReset (e : event) : bool :=
  match e with ResetGame _ => true | _ => false end.

End Sketch.

(** The three phases of the session, read off the two flags the code
    keeps: the intro overlay and the game-over flag. *)
Inductive Phase : Type := Intro | Playing | GameOver.

Definition phase (s : state) : Phase :=
  if introOverlayActive s then Intro
  else if gameOver s then GameOver else Playing.

(** The startup of the component: the mounting effect, the effect that
    raises the intro overlay, then p5 calls [preload] and [setup]. *)
Definition boot (host : Host) (st : Storage.t)
           (head pattern year texture obstacle : Load)
           (viewportWidth viewportHeight now : Q) : state :=
  setup host viewportWidth viewportHeight now
        (preload head pattern year texture obstacle
                 (setIntroOverlayState host true (mount host st))).

(** ** Observers used in the statements *)

(** The variables the obstacle loop can change besides the obstacles and
    the canvas: all of them are written by the collision branch only. *)
Definition outcome (s : state) :=
  (gameOver s, vibrations s, score s, bestScore s, sessionStorage s,
   console s, hudState s).

(** The variables the obstacle loop never writes. *)
Definition untouched (s : state) :=
  (segments s, headImage s, backgroundTexture s, obstacleImage s, gyroX s,
   gyroY s, useGyro s, flowOffset s, introOverlayActive s,
   obstacleSpawnTimer s, nextObstacleDelay s, roundStartTime s,
   lastHudScore s, width s, height s, randomCalls s, isMounted s).

(** The collision test as the loop performs it: none without a head. *)
Definition struck (head : option Segment.t) (o : Obstacle.t) : bool :=
  match head with
  | Some hd => hits hd o
  | None => false
  end.

(** The obstacles that survive the removal test. *)
Definition onScreen (canvasHeight : Q) (o : Obstacle.t) : bool :=
  negb (pastViewport canvasHeight o).

(** What the collision branch leaves in the [outcome] variables, written
    out: the flag, the vibration, the rounded score, the best score and its
    write to the store, the warning when the write throws, and the HUD. *)
Definition collisionOutcome (host : Host) (s : state) :=
  let rounded := normalizeScore (Fin (score s)) in
  let newBest := Qltb (bestScore s) rounded in
  let best := if newBest then rounded else bestScore s in
  (true,
   if hasVibrate host then S (vibrations s) else vibrations s,
   rounded,
   best,
   if newBest
   then (Storage.setItem BEST_SCORE_KEY (js_toString host rounded)
                         (sessionStorage s)).2
   else sessionStorage s,
   if newBest && negb (Storage.writable (sessionStorage s))
   then console s ++ ["Unable to persist session best score"%string]
   else console s,
   if isMounted s
   then {| HudState.gameOver := true; HudState.score := rounded;
           HudState.bestScore := normalizeScore (Fin best) |}
   else hudState s).

(** The seconds since the round started, as [p.draw] computes them. *)
Definition elapsedSeconds (f : Frame.t) (s : state) : Q :=
  Math_max 0 ((Frame.millis f - roundStartTime s) / 1000).

(** [p.draw] in three stages: what runs before [updateObstacles], and what
    runs after it. *)
Definition prologue (f : Frame.t) (s : state) : state :=
  updateScore f (drawFlowingLines (drawScreenTexture (set_canvas [Background] s))).

Definition epilogue (f : Frame.t) (s : state) : state :=
  match segments s with
  | [] => s
  | _ :: _ =>
      let s :=
        if negb (gameOver s) then
          let '(targetX, targetY) := target f s in
          set_segments (followTarget targetX targetY (segments s)) s
        else s in
      drawHead (drawBodyStroke s)
  end.

(** The variables no frame writes. *)
Definition fixed (s : state) :=
  (headImage s, backgroundTexture s, obstacleImage s, gyroX s, gyroY s,
   useGyro s, introOverlayActive s, roundStartTime s, width s, height s,
   isMounted s).

(** The obstacles the loop of a frame visits: those present once the spawn
    timer has run. *)
Definition visited (host : Host) (f : Frame.t) (s : state) : list Obstacle.t :=
  obstacles (spawnTick host (Frame.deltaTime f) s).

(** A state with its [outcome] variables replaced. *)
Definition with_outcome
           (o : bool * nat * Q * Q * Storage.t * list string * HudState.t)
           (s : state) : state :=
  let '(g, v, sc, b, st, c, h) := o in
  set_hudState h
    (set_console c
       (set_sessionStorage st
          (set_bestScore b (set_score sc (set_vibrations v (set_gameOver g s)))))).

(** Pressing the retry button once for every time in [nows]. *)
Definition retryAll (host : Host) (nows : list Q) (s : state) : state :=
  fold_left (fun s now => handleRetryClick host now s) nows s.

(** Equality of two states up to the spawn delay and the count of random
    numbers drawn. *)
Definition sameRound (s1 s2 : state) : Prop :=
  set_nextObstacleDelay 0 (set_randomCalls 0 s1)
  = set_nextObstacleDelay 0 (set_randomCalls 0 s2).

(** The chain as [initSegments] leaves it on a canvas of the given size. *)
Definition homeChain (canvasWidth canvasHeight : Q) : list Segment.t :=
  initSegments_loop numSegments 0 canvasWidth canvasHeight [].

(** How many events of a run raise the game-over flag. *)
Fixpoint transitions (host : Host) (es : list event) (s : state) : nat :=
  match es with
  | [] => 0
  | e :: es =>
      ((if negb (gameOver s) && gameOver (step host e s) then 1 else 0)
       + transitions host es (step host e s))%nat
  end.

(** No obstacle exists while the intro overlay is up or the obstacle
    picture is missing. *)
Definition fieldInv (s : state) : Prop :=
  introOverlayActive s = true \/ obstacleImage s = None -> obstacles s = [].

(** The variables of the game proper: everything but the two pictures
    that are only drawn, the canvas, the session store and the console. *)
Definition gameplay (s : state) :=
  (segments s, obstacleImage s, gyroX s, gyroY s, useGyro s, flowOffset s,
   introOverlayActive s, obstacles s, obstacleSpawnTimer s,
   nextObstacleDelay s, score s, bestScore s, roundStartTime s,
   lastHudScore s, gameOver s, width s, height s, randomCalls s,
   vibrations s, isMounted s, hudState s).

(** A state with the variables outside [gameplay] replaced. *)
Definition dress (head texture : option Image.t) (ops : list DrawOp)
           (st : Storage.t) (log : list string) (s : state) : state :=
  set_headImage head
    (set_backgroundTexture texture
       (set_canvas ops (set_sessionStorage st (set_console log s)))).

(** What a drawing operation shows. *)
Inductive Visual : Type :=
| BackgroundFill | Texture | Lines | ObstaclePicture | Body | HeadPicture.

Definition visual (op : DrawOp) : Visual :=
  match op with
  | Background => BackgroundFill
  | ScreenTexture _ _ => Texture
  | FlowingLines _ => Lines
  | ObstacleImage _ _ _ _ => ObstaclePicture
  | BodyLine _ _ _ _ => Body
  | HeadImage _ _ => HeadPicture
  end.

(** The variables of the game apart from every picture: [gameplay]
    without the obstacle picture. *)
Definition game (s : state) :=
  (segments s, gyroX s, gyroY s, useGyro s, flowOffset s,
   introOverlayActive s, obstacles s, obstacleSpawnTimer s,
   nextObstacleDelay s, score s, bestScore s, roundStartTime s,
   lastHudScore s, gameOver s, width s, height s, randomCalls s,
   vibrations s, isMounted s, hudState s).

(** Whether drawing a picture variable shows anything: not when it is
    [null], and not when it holds an empty image. *)
Definition visible (img : option Image.t) : bool :=
  match img with
  | Some i => negb (Image.blank i)
  | None => false
  end.

(** Whether a drawing operation of the canvas log shows anything, given
    the pictures of the state: [p.image] with an empty image paints
    nothing. *)
Definition shows (s : state) (op : DrawOp) : bool :=
  match op with
  | ScreenTexture _ _ => visible (backgroundTexture s)
  | ObstacleImage _ _ _ _ => visible (obstacleImage s)
  | HeadImage _ _ => visible (headImage s)
  | _ => true
  end.

(** What is to be seen on the canvas. *)
Definition painted (s : state) : list DrawOp :=
  List.filter (shows s) (canvas s).

(** The HUD shows what the sketch holds: the game-over flag, the best
    score, and the score rounded to one decimal. *)
Definition hudMirror (s : state) : Prop :=
  HudState.gameOver (hudState s) = gameOver s /\
  HudState.bestScore (hudState s) == bestScore s /\
  HudState.score (hudState s) == normalizeScore (Fin (score s)).

(** What keeps [hudMirror] true from one event to the next: the component
    is mounted, the best score is a number of tenths, and the last value
    reported to the HUD is the one it shows, unless a reset has just
    cleared it. *)
Definition hudInv (s : state) : Prop :=
  isMounted s = true /\ hudMirror s /\
  normalizeScore (Fin (bestScore s)) == bestScore s /\
  (lastHudScore s == HudState.score (hudState s) \/ lastHudScore s == -1).

Definition isUnmount (e : event) : bool :=
  match e with Unmount => true | _ => false end.

(** The events that switch the orientation sensor on: a setup where no
    permission is asked for, and the grant of a permission asked for. *)
Definition enablesGyro (e : event) : bool :=
  match e with
  | GyroSetup Ungated => true
  | PermissionAnswered Granted => true
  | _ => false
  end.

(** A point of the rectangle with the given corners. *)
Definition inBox (xlo xhi ylo yhi : Q) (seg : Segment.t) : Prop :=
  (xlo <= Segment.x seg /\ Segment.x seg <= xhi) /\
  (ylo <= Segment.y seg /\ Segment.y seg <= yhi).

(** The obstacle [spawnObstacle] makes in state [s]: the size from the
    next random number, then the position, the speed and the drift from
    the three after it. *)
Definition spawned (host : Host) (s : state) : Obstacle.t :=
  let n := randomCalls s in
  let size := scaled (Math_random host n) 40 80 in
  {| Obstacle.x :=
       scaled (Math_random host (S n)) (size / 2) (width s - size / 2);
     Obstacle.y := - size;
     Obstacle.speed := scaled (Math_random host (S (S n))) 1.2 2.4;
     Obstacle.size := size;
     Obstacle.drift := scaled (Math_random host (S (S (S n)))) (-0.4) 0.4 |}.

(** The ranges [spawnObstacle] draws size, speed and drift from. *)
Definition wellFormed (o : Obstacle.t) : Prop :=
  (40 <= Obstacle.size o /\ Obstacle.size o < 80) /\
  (1.2 <= Obstacle.speed o /\ Obstacle.speed o < 2.4) /\
  (-0.4 <= Obstacle.drift o /\ Obstacle.drift o < 0.4).

(** Whether the spawn timer runs out in frame [f]. *)
Definition spawnDue (f : Frame.t) (s : state) : bool :=
  Qle_bool (nextObstacleDelay s) (obstacleSpawnTimer s + Frame.deltaTime f).

(** The lines between neighbouring segments, from the head to the tail:
    each one runs from a segment to the one before it. *)
Fixpoint joins (segs : list Segment.t) : list DrawOp :=
  match segs with
  | prev :: (curr :: _) as rest =>
      BodyLine (Segment.x curr) (Segment.y curr)
               (Segment.x prev) (Segment.y prev) :: joins rest
  | _ => []
  end.

(** The phases an event can lead to from a given phase.  Only a frame
    ends a round, be it a frame of p5's loop or the one a resize redraws;
    only a reset leaves the game-over phase without touching the overlay;
    and only the overlay switch enters or leaves the intro. *)
Definition nextPhases (e : event) (p : Phase) : list Phase :=
  match e, p with
  | Draw _, Playing => [Playing; GameOver]
  | WindowResized _ _ _, Playing => [Playing; GameOver]
  | ResetGame _, GameOver => [Playing]
  | SetIntroOverlay true, _ => [Intro]
  | SetIntroOverlay false, Intro => [Playing; GameOver]
  | _, _ => [p]
  end.

(** ** A concrete host and session, for running the model *)

(** A reader of plain decimal numerals ([12], [3.4]); everything else,
    like a word, reads as [NaN]. *)
Definition digitValue (c : ascii) : option Z :=
  let n := (Z.of_nat (nat_of_ascii c) - 48)%Z in
  if ((0 <=? n) && (n <=? 9))%Z then Some n else None.

Fixpoint readDecimal (num : Z) (den : positive) (dot any : bool)
         (str : string) : number :=
  match str with
  | EmptyString => if any then Fin (num # den) else NaN
  | String c rest =>
      match digitValue c with
      | Some d =>
          readDecimal (num * 10 + d) (if dot then den * 10 else den)%positive
                      dot true rest
      | None =>
          if Ascii.eqb c "."%char && negb dot
          then readDecimal num den true any rest
          else NaN
      end
  end.

Definition exampleNumber (str : string) : number :=
  readDecimal 0 1 false false str.

(** A printer for the non-negative one-decimal values the game stores. *)
Definition exampleToString (value : Q) : string :=
  let tenths := Qfloor (value * 10) in
  let whole := pretty (tenths / 10)%Z in
  if (tenths mod 10 =? 0)%Z then whole
  else (whole +:+ "." +:+ pretty (tenths mod 10)%Z)%string.

Definition exampleRandom (n : nat) : Q :=
  inject_Z (Z.of_nat (n * 37 + 11) mod 100) / 100.

Definition exampleHost : Host :=
  {| js_Number := exampleNumber; js_toString := exampleToString;
     isMobileDevice := false; hasVibrate := true;
     Math_random := exampleRandom |}.

Definition emptyStorage : Storage.t :=
  {| Storage.items := ∅; Storage.readable := true; Storage.writable := true;
     Storage.calls := [] |}.

Definition loaded (w h : Q) : Load :=
  {| picture := {| Image.width := w; Image.height := h;
                   Image.blank := false |};
     failed := false |}.

(** A file of that size that does not arrive. *)
Definition lost (w h : Q) : Load :=
  {| picture := {| Image.width := w; Image.height := h;
                   Image.blank := false |};
     failed := true |}.

(** An 800 x 600 canvas, every picture loaded, the intro overlay still up. *)
Definition exampleBoot : state :=
  boot exampleHost emptyStorage (loaded 320 324) (loaded 64 64)
       (loaded 400 200) (loaded 1600 900) (loaded 120 60) 1280 600 0.

(** The same session after the start button has been pressed at 1000 ms. *)
Definition examplePlaying : state :=
  handleStartClick exampleHost NoOrientation 1000 exampleBoot.

Definition exampleFrame (millis deltaTime : Q) : Frame.t :=
  {| Frame.millis := millis; Frame.deltaTime := deltaTime;
     Frame.mouseX := Fin 500; Frame.mouseY := Fin 300 |}.

(** The playing session with one obstacle just above the head. *)
Definition exampleDanger : state :=
  set_obstacles
    [ {| Obstacle.x := 400; Obstacle.y := 250; Obstacle.speed := 2;
         Obstacle.size := 60; Obstacle.drift := 0 |} ]
    examplePlaying.

(** The playing session with two obstacles near the bottom of the 600
    pixel high canvas: a small one and, slightly lower, a large one. *)
Definition exampleLow : state :=
  set_obstacles
    [ {| Obstacle.x := 100; Obstacle.y := 669; Obstacle.speed := 2;
         Obstacle.size := 40; Obstacle.drift := 0 |};
      {| Obstacle.x := 700; Obstacle.y := 687; Obstacle.speed := 2;
         Obstacle.size := 80; Obstacle.drift := 0 |} ]
    examplePlaying.

(** The head of the chain in the example sessions: the first segment as
    [initSegments] computes it on the 800 x 600 canvas. *)
Definition exampleHead : Segment.t :=
  {| Segment.x := 800 # 2; Segment.y := 600 # 2;
     Segment.easeFactor := 16000 # 100000 |}.

(** The startup of [exampleBoot], except that the obstacle picture does
    not arrive. *)
Definition exampleFailedBoot : state :=
  boot exampleHost emptyStorage (loaded 320 324) (loaded 64 64)
       (loaded 400 200) (loaded 1600 900) (lost 120 60) 1280 600 0.

(** That session with the start button pressed and the obstacle of
    [exampleDanger] about to reach the head. *)
Definition exampleFailedDanger : state :=
  set_obstacles
    [ {| Obstacle.x := 400; Obstacle.y := 250; Obstacle.speed := 2;
         Obstacle.size := 60; Obstacle.drift := 0 |} ]
    (handleStartClick exampleHost NoOrientation 1000 exampleFailedBoot).

(** A store that holds a word where the best score should be, and one
    that refuses every access. *)
Definition wordStorage : Storage.t :=
  {| Storage.items := {[ BEST_SCORE_KEY := "best"%string ]};
     Storage.readable := true; Storage.writable := true;
     Storage.calls := [] |}.

Definition deniedStorage : Storage.t :=
  {| Storage.items := ∅; Storage.readable := false;
     Storage.writable := false; Storage.calls := [] |}.

(** The session of [exampleDanger] in a browser whose store is full: it
    can be read but not written. *)
Definition exampleFull : state :=
  set_sessionStorage
    {| Storage.items := ∅; Storage.readable := true;
       Storage.writable := false; Storage.calls := [] |}
    exampleDanger.

(** * Properties *)

Ltac sst :=
  cbn [segments headImage backgroundTexture obstacleImage gyroX gyroY useGyro
       flowOffset introOverlayActive obstacles obstacleSpawnTimer
       nextObstacleDelay score bestScore roundStartTime lastHudScore gameOver
       width height canvas randomCalls vibrations isMounted hudState
       sessionStorage console
       set_segments set_headImage set_backgroundTexture set_obstacleImage
       set_gyroX set_gyroY set_useGyro set_flowOffset set_introOverlayActive
       set_obstacles set_obstacleSpawnTimer set_nextObstacleDelay set_score
       set_bestScore set_roundStartTime set_lastHudScore set_gameOver
       set_width set_height set_canvas set_randomCalls set_vibrations
       set_isMounted set_hudState set_sessionStorage set_console
       fst snd negb andb orb].

Ltac split_bool b :=
  lazymatch b with
  | negb ?c => split_bool c
  | andb ?c _ => split_bool c
  | orb ?c _ => split_bool c
  | _ => destruct b eqn:?
  end.

(** Case analysis on a test that is ready to be decided: one whose
    condition contains no other pending test. *)
Ltac split_if :=
  match goal with
  | |- context [if ?b then _ else _] =>
      lazymatch b with
      | context [if _ then _ else _] => fail
      | context [match _ with Some _ => _ | None => _ end] => fail
      | _ => split_bool b
      end
  | |- context [match ?b with Some _ => _ | None => _ end] =>
      lazymatch b with
      | context [if _ then _ else _] => fail
      | context [match _ with Some _ => _ | None => _ end] => fail
      | _ => destruct b eqn:?
      end
  end.

(** Rewrite with the outcomes of the tests already decided. *)
Ltac recall :=
  repeat match goal with
    | H : ?x = ?v |- context [?x] =>
        lazymatch v with
        | true => rewrite H
        | false => rewrite H
        | Some _ => rewrite H
        | None => rewrite H
        end
    end.

Ltac crunch := sst; repeat (split_if; sst; recall; sst).

(** [sst] in the hypotheses as well. *)
Ltac sst_all :=
  cbn [segments headImage backgroundTexture obstacleImage gyroX gyroY useGyro
       flowOffset introOverlayActive obstacles obstacleSpawnTimer
       nextObstacleDelay score bestScore roundStartTime lastHudScore gameOver
       width height canvas randomCalls vibrations isMounted hudState
       sessionStorage console
       set_segments set_headImage set_backgroundTexture set_obstacleImage
       set_gyroX set_gyroY set_useGyro set_flowOffset set_introOverlayActive
       set_obstacles set_obstacleSpawnTimer set_nextObstacleDelay set_score
       set_bestScore set_roundStartTime set_lastHudScore set_gameOver
       set_width set_height set_canvas set_randomCalls set_vibrations
       set_isMounted set_hudState set_sessionStorage set_console
       fst snd negb andb orb] in *.


(** Two chains of assignments on the same state are compared field by
    field. *)
Ltac by_fields s :=
  destruct s;
  cbv [segments headImage backgroundTexture obstacleImage gyroX gyroY useGyro
       flowOffset introOverlayActive obstacles obstacleSpawnTimer
       nextObstacleDelay score bestScore roundStartTime lastHudScore gameOver
       width height canvas randomCalls vibrations isMounted hudState
       sessionStorage console
       set_segments set_headImage set_backgroundTexture set_obstacleImage
       set_gyroX set_gyroY set_useGyro set_flowOffset set_introOverlayActive
       set_obstacles set_obstacleSpawnTimer set_nextObstacleDelay set_score
       set_bestScore set_roundStartTime set_lastHudScore set_gameOver
       set_width set_height set_canvas set_randomCalls set_vibrations
       set_isMounted set_hudState set_sessionStorage set_console];
  reflexivity.

(** *** Comparisons *)

Lemma Qltb_lt (x y : Q) : Qltb x y = true <-> x < y.
Proof.
  unfold Qltb. rewrite negb_true_iff, <- not_true_iff_false, Qle_bool_iff.
  split; [apply Qnot_le_lt | apply Qlt_not_le].
Qed.

Lemma Qltb_ge (x y : Q) : Qltb x y = false <-> y <= x.
Proof.
  unfold Qltb. rewrite negb_false_iff. apply Qle_bool_iff.
Qed.

Lemma Math_max_le (a b c : Q) : b <= c -> Math_max a b <= Math_max a c.
Proof.
  unfold Math_max. intros Hbc.
  destruct (Qle_bool a b) eqn:Hab, (Qle_bool a c) eqn:Hac;
    try apply Qle_bool_iff in Hab; try apply Qle_bool_iff in Hac;
    try assumption; try apply Qle_refl.
  exfalso. apply not_true_iff_false in Hac. apply Hac, Qle_bool_iff.
  eapply Qle_trans; eassumption.
Qed.

Lemma Math_max_of_le (a b : Q) : a <= b -> Math_max a b = b.
Proof.
  intros H. unfold Math_max. apply Qle_bool_iff in H. now rewrite H.
Qed.

(** [dist_lt] is the comparison of the Euclidean distance with [r]. *)
Lemma dist_lt_sqrt (x1 y1 x2 y2 r : Q) :
  dist_lt x1 y1 x2 y2 r = true <->
  (sqrt ((Q2R x2 - Q2R x1) * (Q2R x2 - Q2R x1)
         + (Q2R y2 - Q2R y1) * (Q2R y2 - Q2R y1)) < Q2R r)%R.
Proof.
  unfold dist_lt. rewrite andb_true_iff, !Qltb_lt.
  set (d := ((Q2R x2 - Q2R x1) * (Q2R x2 - Q2R x1)
             + (Q2R y2 - Q2R y1) * (Q2R y2 - Q2R y1))%R).
  assert (Hd : (0 <= d)%R) by (unfold d; apply Rplus_le_le_0_compat; apply Rle_0_sqr).
  assert (Hq : Q2R ((x2 - x1) * (x2 - x1) + (y2 - y1) * (y2 - y1)) = d).
  { unfold d. rewrite Q2R_plus, !Q2R_mult, !Q2R_minus. reflexivity. }
  clearbody d. split.
  - intros [Hr Hlt]. apply Qlt_Rlt in Hr, Hlt.
    rewrite Hq, Q2R_mult in Hlt. rewrite RMicromega.Q2R_0 in Hr.
    rewrite <- (sqrt_square (Q2R r)) by lra.
    apply sqrt_lt_1_alt. lra.
  - intros Hlt.
    assert (Hs : (0 <= sqrt d)%R) by apply sqrt_pos.
    assert (Hr : (0 < Q2R r)%R) by lra.
    split.
    + apply Rlt_Qlt. rewrite RMicromega.Q2R_0. exact Hr.
    + apply Rlt_Qlt. rewrite Hq, Q2R_mult.
      rewrite <- (sqrt_sqrt d Hd). nra.
Qed.

(** *** Reading the observers *)

Lemma outcome_fields s g v sc b st c h :
  outcome s = (g, v, sc, b, st, c, h) ->
  gameOver s = g /\ vibrations s = v /\ score s = sc /\ bestScore s = b /\
  sessionStorage s = st /\ console s = c /\ hudState s = h.
Proof. unfold outcome. intros H. injection H. auto 10. Qed.

Lemma outcome_same s1 s2 :
  outcome s1 = outcome s2 ->
  gameOver s1 = gameOver s2 /\ vibrations s1 = vibrations s2 /\
  score s1 = score s2 /\ bestScore s1 = bestScore s2 /\
  sessionStorage s1 = sessionStorage s2 /\ console s1 = console s2 /\
  hudState s1 = hudState s2.
Proof. apply outcome_fields. Qed.

(** *** The collision branch *)

Section Loop.
Context (host : Host).

Lemma outcome_with_outcome o s : outcome (with_outcome o s) = o.
Proof. destruct o as [[[[[[g v] sc] b] st] c] h]. reflexivity. Qed.

Lemma untouched_with_outcome o s : untouched (with_outcome o s) = untouched s.
Proof. destruct o as [[[[[[g v] sc] b] st] c] h]. reflexivity. Qed.

Lemma onCollision_shape (s : state) :
  onCollision host s = with_outcome (collisionOutcome host s) s.
Proof.
  unfold onCollision, collisionOutcome, with_outcome, updateHud,
    writeSessionBest, triggerVibration, console_log, Storage.setItem.
  crunch; by_fields s.
Qed.

Lemma onCollision_outcome (s : state) :
  outcome (onCollision host s) = collisionOutcome host s.
Proof. now rewrite onCollision_shape, outcome_with_outcome. Qed.

Lemma onCollision_gameOver (s : state) : gameOver (onCollision host s) = true.
Proof.
  pose proof (onCollision_outcome s) as H.
  unfold outcome, collisionOutcome in H. now injection H.
Qed.

Lemma onCollision_frame (s : state) :
  untouched (onCollision host s) = untouched s /\
  obstacles (onCollision host s) = obstacles s /\
  canvas (onCollision host s) = canvas s.
Proof.
  rewrite onCollision_shape, untouched_with_outcome.
  destruct (collisionOutcome host s) as [[[[[[g v] sc] b] st] c] h]. auto.
Qed.

(** *** The obstacle loop *)

Lemma insert_middle {A} (l rest : list A) (o x : A) :
  <[length l := x]> (l ++ o :: rest) = l ++ x :: rest.
Proof.
  rewrite insert_app_r_alt by lia. now rewrite Nat.sub_diag.
Qed.

Lemma obstacleStep_over img head s l o rest :
  obstacles s = l ++ o :: rest -> gameOver s = true ->
  let s' := obstacleStep host img head (length l) s in
  obstacles s' = obstacles s /\ outcome s' = outcome s /\
  untouched s' = untouched s.
Proof.
  intros Ho Hg. unfold obstacleStep, outcome, untouched.
  rewrite Ho, list_lookup_middle by reflexivity.
  rewrite Hg. cbn [negb andb]. sst. rewrite insert_middle.
  destruct head; repeat (sst; rewrite ?Hg; cbn [negb andb]); auto.
Qed.

Lemma obstacleStep_hit img head s l o rest :
  obstacles s = l ++ o :: rest -> gameOver s = false ->
  struck head (fall o) = true ->
  let s' := obstacleStep host img head (length l) s in
  obstacles s' = l ++ fall o :: rest /\
  outcome s' = collisionOutcome host s /\ untouched s' = untouched s.
Proof.
  intros Ho Hg Hhit. unfold obstacleStep.
  rewrite Ho, list_lookup_middle by reflexivity.
  rewrite Hg. cbn [negb]. sst. rewrite insert_middle.
  destruct head as [hd|]; [|discriminate]. cbn [struck] in Hhit.
  rewrite Hg, Hhit. cbn [negb andb].
  rewrite onCollision_gameOver. cbn [negb andb].
  match goal with |- context [onCollision host ?t] =>
    destruct (onCollision_frame t) as (Hu & Hobs & _) end.
  rewrite onCollision_outcome, Hu, Hobs. auto.
Qed.

Lemma obstacleStep_miss img head s l o rest :
  obstacles s = l ++ o :: rest -> gameOver s = false ->
  struck head (fall o) = false ->
  let s' := obstacleStep host img head (length l) s in
  obstacles s' = l ++ List.filter (onScreen (height s)) [fall o] ++ rest /\
  outcome s' = outcome s /\ untouched s' = untouched s.
Proof.
  intros Ho Hg Hhit. unfold obstacleStep.
  rewrite Ho, list_lookup_middle by reflexivity.
  rewrite Hg. cbn [negb]. sst. rewrite insert_middle.
  unfold onScreen. cbn [List.filter].
  destruct head as [hd|]; cbn [struck] in Hhit;
    repeat (sst; rewrite ?Hg, ?Hhit; cbn [negb andb]);
    destruct (pastViewport _ _); cbn [negb andb app];
    unfold outcome, untouched; sst;
    rewrite ?delete_middle; auto.
Qed.

(** Once the flag is up the loop changes nothing but the canvas. *)
Lemma obstacleLoop_over img head l rest s :
  obstacles s = l ++ rest -> gameOver s = true ->
  let s' := obstacleLoop host img head (length l) s in
  obstacles s' = obstacles s /\ outcome s' = outcome s /\
  untouched s' = untouched s.
Proof.
  revert rest s. induction l as [|o l IH] using rev_ind; intros rest s Ho Hg.
  - cbn. auto.
  - rewrite length_app, Nat.add_1_r. cbn [obstacleLoop].
    rewrite <- app_assoc in Ho. cbn [app] in Ho.
    destruct (obstacleStep_over img head s l o rest Ho Hg) as (H1 & H2 & H3).
    destruct (IH (o :: rest) (obstacleStep host img head (length l) s))
      as (K1 & K2 & K3).
    + now rewrite H1.
    + unfold outcome in H2. injection H2 as -> _. exact Hg.
    + cbn zeta. rewrite K1, K2, K3. auto.
Qed.

(** While no obstacle is hit, the loop moves every obstacle it visits and
    drops those past the viewport; [pre] is the part not yet visited. *)
Lemma obstacleLoop_alive img head l pre rest s :
  obstacles s = pre ++ l ++ rest -> gameOver s = false ->
  Forall (fun o => struck head (fall o) = false) l ->
  exists s1,
    obstacleLoop host img head (length pre + length l) s
    = obstacleLoop host img head (length pre) s1 /\
    obstacles s1
    = pre ++ List.filter (onScreen (height s)) (List.map fall l) ++ rest /\
    outcome s1 = outcome s /\ untouched s1 = untouched s.
Proof.
  revert rest s. induction l as [|o l IH] using rev_ind; intros rest s Ho Hg Hl.
  - exists s. rewrite Nat.add_0_r. cbn. auto.
  - apply Forall_app in Hl as [Hl Hmiss]. rewrite Forall_singleton in Hmiss.
    rewrite length_app, Nat.add_1_r, Nat.add_succ_r. cbn [obstacleLoop].
    rewrite <- app_assoc in Ho. cbn [app] in Ho. rewrite app_assoc in Ho.
    destruct (obstacleStep_miss img head s (pre ++ l) o rest Ho Hg Hmiss)
      as (H1 & H2 & H3).
    rewrite length_app in H1, H2, H3.
    destruct (IH (List.filter (onScreen (height s)) [fall o] ++ rest)
                 (obstacleStep host img head (length pre + length l) s))
      as (s1 & K0 & K1 & K2 & K3).
    + now rewrite H1, <- app_assoc.
    + unfold outcome in H2. injection H2 as -> _. exact Hg.
    + exact Hl.
    + exists s1. split; [exact K0|]. rewrite K2, K3, H2, H3. split; [|auto].
      rewrite K1. unfold untouched in H3. injection H3 as _ _ _ _ _ _ _ _ _ _ _ _ _ _ -> _ _.
      rewrite List.map_app, List.filter_app, <- !app_assoc. reflexivity.
Qed.

End Loop.

(** *** The stages of a frame *)

Section Frames.
Context (host : Host).

Lemma draw_stages f s :
  draw host f s = epilogue f (updateObstacles host f (prologue f s)).
Proof. unfold draw, prologue, epilogue. reflexivity. Qed.

Lemma prologue_shape f s :
  exists c o l h,
    prologue f s
    = set_canvas c (set_flowOffset o (set_lastHudScore l (set_hudState h
        (set_score (if gameOver s then score s else elapsedSeconds f s) s)))).
Proof.
  exists (canvas (prologue f s)), (flowOffset (prologue f s)),
    (lastHudScore (prologue f s)), (hudState (prologue f s)).
  unfold prologue, updateScore, drawFlowingLines, drawScreenTexture, updateHud,
    elapsedSeconds.
  crunch; by_fields s.
Qed.

Lemma epilogue_shape f s :
  exists c,
    epilogue f s
    = set_canvas c
        (set_segments
           (if gameOver s then segments s
            else followTarget (target f s).1 (target f s).2 (segments s)) s).
Proof.
  exists (canvas (epilogue f s)).
  unfold epilogue, drawHead, drawBodyStroke, target.
  destruct (segments s) eqn:Hs; crunch;
    destruct s; simpl in Hs; subst; reflexivity.
Qed.

Lemma spawnTick_shape dt s :
  exists obs t d r,
    spawnTick host dt s
    = set_obstacles obs (set_obstacleSpawnTimer t (set_nextObstacleDelay d
        (set_randomCalls r s))).
Proof.
  exists (obstacles (spawnTick host dt s)),
    (obstacleSpawnTimer (spawnTick host dt s)),
    (nextObstacleDelay (spawnTick host dt s)),
    (randomCalls (spawnTick host dt s)).
  unfold spawnTick, spawnObstacle, p_random. crunch; by_fields s.
Qed.

Lemma spawnTick_commutes dt c o l h sc s :
  spawnTick host dt
    (set_canvas c (set_flowOffset o (set_lastHudScore l (set_hudState h
       (set_score sc s)))))
  = set_canvas c (set_flowOffset o (set_lastHudScore l (set_hudState h
       (set_score sc (spawnTick host dt s))))).
Proof.
  unfold spawnTick, spawnObstacle, p_random. crunch; by_fields s.
Qed.

(** Every list either has no obstacle that is hit, or splits at the last
    one that is: the first the downward loop meets. *)
Lemma last_hit_split (head : option Segment.t) (l : list Obstacle.t) :
  Forall (fun o => struck head (fall o) = false) l \/
  exists pre o post,
    l = pre ++ o :: post /\ struck head (fall o) = true /\
    Forall (fun o => struck head (fall o) = false) post.
Proof.
  induction l as [|o l IH] using rev_ind.
  - left. constructor.
  - destruct (struck head (fall o)) eqn:Ho.
    + right. exists l, o, []. auto.
    + destruct IH as [IH | (pre & o' & post & -> & Ho' & Hpost)].
      * left. apply Forall_app. split; [exact IH|]. now constructor.
      * right. exists pre, o', (post ++ [o]). split; [|split; [exact Ho'|]].
        -- now rewrite <- app_assoc.
        -- apply Forall_app. split; [exact Hpost|]. now constructor.
Qed.

Lemma obstacleLoop_no_hit img head s :
  gameOver s = false ->
  Forall (fun o => struck head (fall o) = false) (obstacles s) ->
  let s' := obstacleLoop host img head (length (obstacles s)) s in
  obstacles s' = List.filter (onScreen (height s)) (List.map fall (obstacles s))
  /\ outcome s' = outcome s /\ untouched s' = untouched s.
Proof.
  intros Hg Hl.
  destruct (obstacleLoop_alive host img head (obstacles s) [] [] s)
    as (s1 & E & H1 & H2 & H3); [now rewrite app_nil_r | exact Hg | exact Hl |].
  cbn [length Nat.add obstacleLoop] in E. cbn zeta. rewrite E.
  rewrite app_nil_r in H1. auto.
Qed.

Lemma collisionOutcome_congr s1 s2 :
  outcome s1 = outcome s2 -> untouched s1 = untouched s2 ->
  collisionOutcome host s1 = collisionOutcome host s2.
Proof.
  unfold outcome, untouched, collisionOutcome. intros H1 H2.
  injection H1 as _ -> -> -> -> -> ->.
  injection H2 as _ _ _ _ _ _ _ _ _ _ _ _ _ _ _ _ ->. reflexivity.
Qed.

Lemma obstacleLoop_first_hit img head s pre o post :
  gameOver s = false -> obstacles s = pre ++ o :: post ->
  struck head (fall o) = true ->
  Forall (fun o => struck head (fall o) = false) post ->
  let s' := obstacleLoop host img head (length (obstacles s)) s in
  obstacles s'
  = pre ++ fall o :: List.filter (onScreen (height s)) (List.map fall post)
  /\ outcome s' = collisionOutcome host s /\ untouched s' = untouched s.
Proof.
  intros Hg Ho Hhit Hpost. cbn zeta.
  destruct (obstacleLoop_alive host img head post (pre ++ [o]) [] s)
    as (s1 & E & H1 & H2 & H3); [|exact Hg|exact Hpost|].
  { now rewrite app_nil_r, <- app_assoc. }
  rewrite Ho, length_app. cbn [length]. rewrite length_app in E.
  cbn [length] in E. rewrite Nat.add_1_r in E.
  replace (length pre + S (length post))%nat
    with (S (length pre) + length post)%nat by lia.
  rewrite E. cbn [obstacleLoop].
  rewrite app_nil_r, <- app_assoc in H1. cbn [app] in H1.
  assert (Hg1 : gameOver s1 = false).
  { unfold outcome in H2. injection H2 as -> _. exact Hg. }
  destruct (obstacleStep_hit host img head s1 pre o _ H1 Hg1 Hhit)
    as (K1 & K2 & K3).
  destruct (obstacleLoop_over host img head pre
              (fall o :: List.filter (onScreen (height s)) (List.map fall post))
              (obstacleStep host img head (length pre) s1))
    as (M1 & M2 & M3); [exact K1 | |].
  { unfold outcome, collisionOutcome in K2. now injection K2. }
  rewrite M1, M2, M3, K1, K2, K3, H3.
  split; [reflexivity|]. split; [|reflexivity].
  now apply collisionOutcome_congr.
Qed.


Lemma prologue_keeps f s :
  fixed (prologue f s) = fixed s /\ segments (prologue f s) = segments s /\
  obstacles (prologue f s) = obstacles s /\
  gameOver (prologue f s) = gameOver s /\
  vibrations (prologue f s) = vibrations s /\
  bestScore (prologue f s) = bestScore s /\
  sessionStorage (prologue f s) = sessionStorage s /\
  console (prologue f s) = console s /\
  score (prologue f s)
  = (if gameOver s then score s else elapsedSeconds f s).
Proof.
  destruct (prologue_shape f s) as (c & o & l & h & ->).
  unfold fixed. sst. repeat split; reflexivity.
Qed.

Lemma spawnTick_keeps dt s :
  fixed (spawnTick host dt s) = fixed s /\
  segments (spawnTick host dt s) = segments s /\
  outcome (spawnTick host dt s) = outcome s /\
  lastHudScore (spawnTick host dt s) = lastHudScore s.
Proof.
  destruct (spawnTick_shape dt s) as (a1 & a2 & a3 & a4 & ->).
  unfold fixed, outcome. sst. repeat split; reflexivity.
Qed.

Lemma spawnTick_prologue f dt s :
  obstacles (spawnTick host dt (prologue f s))
  = obstacles (spawnTick host dt s).
Proof.
  destruct (prologue_shape f s) as (c & o & l & h & ->).
  rewrite spawnTick_commutes. reflexivity.
Qed.

(** The state the obstacle loop starts from in a frame that reaches it,
    and the frame as a whole. *)
Lemma draw_sweeps f s img :
  obstacleImage s = Some img -> introOverlayActive s = false ->
  exists s1,
    draw host f s
    = epilogue f (obstacleLoop host img (segments s !! 0%nat)
                               (length (obstacles s1)) s1) /\
    obstacles s1 = visited host f s /\
    fixed s1 = fixed s /\
    outcome s1 = outcome (prologue f s) /\
    segments s1 = segments s /\
    lastHudScore s1 = lastHudScore (prologue f s).
Proof.
  intros Himg Hintro. rewrite draw_stages.
  destruct (prologue_keeps f s) as (Hfix & Hseg & _).
  destruct (spawnTick_keeps (Frame.deltaTime f) (prologue f s))
    as (Kfix & Kseg & Kout & Klast).
  exists (spawnTick host (Frame.deltaTime f) (prologue f s)).
  split; [|split; [apply spawnTick_prologue
                  |split; [congruence
                          |split; [exact Kout|split; [congruence|exact Klast]]]]].
  unfold updateObstacles.
  assert (Hi : obstacleImage (prologue f s) = Some img
               /\ introOverlayActive (prologue f s) = false).
  { unfold fixed in Hfix. injection Hfix as _ _ -> _ _ _ -> _ _ _ _. auto. }
  destruct Hi as [-> ->]. rewrite Kseg, Hseg. reflexivity.
Qed.

Lemma draw_idle f s :
  obstacleImage s = None \/ introOverlayActive s = true ->
  draw host f s = epilogue f (prologue f s).
Proof.
  intros H. rewrite draw_stages. unfold updateObstacles.
  destruct (prologue_keeps f s) as (Hfix & _).
  unfold fixed in Hfix. injection Hfix as _ _ -> _ _ _ -> _ _ _ _.
  destruct H as [-> | ->]; [reflexivity|]. now destruct (obstacleImage s).
Qed.

Lemma epilogue_keeps f s :
  fixed (epilogue f s) = fixed s /\ outcome (epilogue f s) = outcome s /\
  obstacles (epilogue f s) = obstacles s /\
  obstacleSpawnTimer (epilogue f s) = obstacleSpawnTimer s /\
  nextObstacleDelay (epilogue f s) = nextObstacleDelay s /\
  randomCalls (epilogue f s) = randomCalls s /\
  lastHudScore (epilogue f s) = lastHudScore s /\
  segments (epilogue f s)
  = (if gameOver s then segments s
     else followTarget (target f s).1 (target f s).2 (segments s)).
Proof.
  destruct (epilogue_shape f s) as (c & ->).
  unfold fixed, outcome. sst. repeat split; reflexivity.
Qed.

Lemma prologue_over f s :
  gameOver s = true -> outcome (prologue f s) = outcome s.
Proof.
  intros Hg. unfold prologue, updateScore, drawFlowingLines, drawScreenTexture.
  crunch; try congruence; unfold outcome; sst; reflexivity.
Qed.

(** What the loop of one frame does, whatever the obstacles are. *)
Lemma obstacleLoop_cases img head s :
  let s' := obstacleLoop host img head (length (obstacles s)) s in
  untouched s' = untouched s /\
  (gameOver s = true -> obstacles s' = obstacles s /\ outcome s' = outcome s) /\
  (gameOver s = false ->
   (Forall (fun o => struck head (fall o) = false) (obstacles s) /\
    obstacles s'
    = List.filter (onScreen (height s)) (List.map fall (obstacles s)) /\
    outcome s' = outcome s) \/
   (exists pre o post,
      obstacles s = pre ++ o :: post /\ struck head (fall o) = true /\
      Forall (fun o => struck head (fall o) = false) post /\
      obstacles s'
      = pre ++ fall o
            :: List.filter (onScreen (height s)) (List.map fall post) /\
      outcome s' = collisionOutcome host s)).
Proof.
  cbn zeta. destruct (gameOver s) eqn:Hg.
  - destruct (obstacleLoop_over host img head (obstacles s) [] s)
      as (H1 & H2 & H3); [now rewrite app_nil_r | exact Hg |].
    split; [exact H3|]. split; [auto | discriminate].
  - destruct (last_hit_split head (obstacles s))
      as [Hl | (pre & o & post & Ho & Hhit & Hpost)].
    + destruct (obstacleLoop_no_hit img head s Hg Hl) as (H1 & H2 & H3).
      split; [exact H3|]. split; [discriminate|]. intros _. left. auto.
    + destruct (obstacleLoop_first_hit img head s pre o post Hg Ho Hhit Hpost)
        as (H1 & H2 & H3).
      split; [exact H3|]. split; [discriminate|]. intros _. right.
      exists pre, o, post. auto.
Qed.

Lemma draw_fixed f s : fixed (draw host f s) = fixed s.
Proof.
  destruct (prologue_keeps f s) as (Hfix & _).
  destruct (obstacleImage s) as [img|] eqn:Himg;
    [destruct (introOverlayActive s) eqn:Hintro|].
  - rewrite draw_idle by auto.
    destruct (epilogue_keeps f (prologue f s)) as (-> & _). exact Hfix.
  - destruct (draw_sweeps f s img Himg Hintro) as (s1 & -> & _ & Hf1 & _ & _ & _).
    match goal with |- fixed (epilogue f ?t) = _ =>
      destruct (epilogue_keeps f t) as (-> & _) end.
    destruct (obstacleLoop_cases img (segments s !! 0%nat) s1) as (Hu & _).
    rewrite <- Hf1. unfold fixed. unfold untouched in Hu.
    injection Hu as _ -> -> -> -> -> -> _ -> _ _ -> _ -> -> _ ->. reflexivity.
  - rewrite draw_idle by auto.
    destruct (epilogue_keeps f (prologue f s)) as (-> & _). exact Hfix.
Qed.

(** A frame either leaves the outcome variables as the score block left
    them, or runs the collision branch exactly once on them. *)
Lemma draw_outcome f s :
  outcome (draw host f s) = outcome (prologue f s) \/
  (gameOver s = false /\
   outcome (draw host f s) = collisionOutcome host (prologue f s)).
Proof.
  destruct (prologue_keeps f s) as (Hfix & _ & _ & Hg & _).
  destruct (obstacleImage s) as [img|] eqn:Himg;
    [destruct (introOverlayActive s) eqn:Hintro|].
  - left. rewrite draw_idle by auto.
    now destruct (epilogue_keeps f (prologue f s)) as (_ & -> & _).
  - destruct (draw_sweeps f s img Himg Hintro) as (s1 & -> & _ & Hf1 & Ho1 & _ & _).
    match goal with |- context [epilogue f ?t] =>
      destruct (epilogue_keeps f t) as (_ & -> & _) end.
    destruct (obstacleLoop_cases img (segments s !! 0%nat) s1)
      as (Hu & Hover & Halive).
    assert (Hg1 : gameOver s1 = gameOver s).
    { unfold outcome in Ho1. injection Ho1 as -> _. exact Hg. }
    destruct (gameOver s) eqn:Hgs.
    + left. destruct (Hover Hg1) as [_ ->]. exact Ho1.
    + destruct (Halive Hg1) as [(_ & _ & ->) | (pre & o & post & _ & _ & _ & _ & ->)].
      * left. exact Ho1.
      * right. split; [reflexivity|].
        unfold collisionOutcome. unfold outcome in Ho1.
        injection Ho1 as _ -> -> -> -> -> ->.
        assert (Hm : isMounted s1 = isMounted (prologue f s)).
        { unfold fixed in Hf1, Hfix. congruence. }
        now rewrite Hm.
  - left. rewrite draw_idle by auto.
    now destruct (epilogue_keeps f (prologue f s)) as (_ & -> & _).
Qed.

Lemma draw_over f s :
  gameOver s = true ->
  outcome (draw host f s) = outcome s /\
  obstacles (draw host f s) = obstacles s /\
  segments (draw host f s) = segments s.
Proof.
  intros Hg.
  destruct (prologue_keeps f s) as (Hfix & Hseg & Hobs & Hg0 & _).
  pose proof (prologue_over f s Hg) as Hout.
  assert (Hep : forall t,
             outcome t = outcome s ->
             outcome (epilogue f t) = outcome s /\
             obstacles (epilogue f t) = obstacles t /\
             segments (epilogue f t) = segments t).
  { intros t Ht.
    destruct (epilogue_keeps f t) as (_ & -> & -> & _ & _ & _ & _ & ->).
    assert (Hgt : gameOver t = gameOver s)
      by (unfold outcome in Ht; now injection Ht).
    rewrite Hgt, Hg. auto. }
  destruct (obstacleImage s) as [img|] eqn:Himg;
    [destruct (introOverlayActive s) eqn:Hintro|].
  - rewrite draw_idle by auto.
    destruct (Hep _ Hout) as (-> & -> & ->). auto.
  - destruct (draw_sweeps f s img Himg Hintro)
      as (s1 & -> & Hv & Hf1 & Ho1 & Hs1 & _).
    destruct (obstacleLoop_cases img (segments s !! 0%nat) s1)
      as (Hu & Hover & _).
    assert (Hg1 : gameOver s1 = true).
    { unfold outcome in Ho1. injection Ho1 as -> _. congruence. }
    destruct (Hover Hg1) as [Hob Hou].
    destruct (Hep _ (eq_trans Hou (eq_trans Ho1 Hout))) as (-> & -> & ->).
    split; [reflexivity|]. split.
    + rewrite Hob, Hv. unfold visited, spawnTick. now rewrite Hg.
    + unfold untouched in Hu. injection Hu as -> _. exact Hs1.
  - rewrite draw_idle by auto.
    destruct (Hep _ Hout) as (-> & -> & ->). auto.
Qed.

End Frames.

(** *** Reset *)

Lemma fold_left_step {A B} (f : A -> B -> A) (b : B) (l : list B) (a : A) :
  fold_left f (b :: l) a = fold_left f l (f a b).
Proof. reflexivity. Qed.

Section Reset.
Context (host : Host).

Lemma resetGame_shape now s :
  resetGame host now s
  = set_hudState
      (if isMounted s
       then {| HudState.gameOver := false; HudState.score := 0;
               HudState.bestScore := normalizeScore (Fin (bestScore s)) |}
       else hudState s)
      (set_segments (homeChain (width s) (height s))
         (set_gameOver false
            (set_lastHudScore (-1)
               (set_roundStartTime now
                  (set_score 0
                     (set_nextObstacleDelay
                        (scaled (Math_random host (randomCalls s)) 900 1600)
                        (set_randomCalls (S (randomCalls s))
                           (set_obstacleSpawnTimer 0
                              (set_obstacles [] s))))))))).
Proof.
  unfold resetGame, p_random, initSegments, updateHud, homeChain.
  crunch; by_fields s.
Qed.

Lemma resetGame_twice now now' s :
  sameRound (resetGame host now (resetGame host now' s))
            (resetGame host now s).
Proof.
  unfold sameRound. rewrite !resetGame_shape. sst.
  destruct (isMounted s); by_fields s.
Qed.

Lemma retryAll_cons a nows s :
  retryAll host (a :: nows) s = retryAll host nows (handleRetryClick host a s).
Proof.
  unfold retryAll.
  exact (fold_left_step (fun s now => handleRetryClick host now s) a nows s).
Qed.

Lemma sameRound_trans s1 s2 s3 :
  sameRound s1 s2 -> sameRound s2 s3 -> sameRound s1 s3.
Proof. unfold sameRound. intros -> ->. reflexivity. Qed.

Lemma retryAll_sameRound nows now s :
  sameRound (handleRetryClick host now (retryAll host nows s))
            (handleRetryClick host now s).
Proof.
  revert s. induction nows as [|a nows IH]; intros s.
  - unfold sameRound, retryAll. cbn [fold_left]. reflexivity.
  - rewrite retryAll_cons. eapply sameRound_trans; [apply IH|].
    apply resetGame_twice.
Qed.

Lemma retryAll_randomCalls nows s :
  randomCalls (retryAll host nows s) = (randomCalls s + length nows)%nat.
Proof.
  revert s. induction nows as [|a nows IH]; intros s.
  - unfold retryAll. cbn [fold_left length]. lia.
  - rewrite retryAll_cons, IH. unfold handleRetryClick.
    rewrite resetGame_shape. sst. cbn [length]. lia.
Qed.

Lemma retryAll_keeps nows s :
  width (retryAll host nows s) = width s /\
  height (retryAll host nows s) = height s /\
  introOverlayActive (retryAll host nows s) = introOverlayActive s.
Proof.
  revert s. induction nows as [|a nows IH]; intros s;
    [unfold retryAll; cbn [fold_left]; auto|].
  rewrite retryAll_cons.
  destruct (IH (handleRetryClick host a s)) as (-> & -> & ->).
  unfold handleRetryClick. rewrite resetGame_shape. sst. auto.
Qed.

End Reset.

Lemma scaled_range (rand min max : Q) :
  0 <= rand -> rand < 1 -> min < max ->
  min <= scaled rand min max /\ scaled rand min max < max.
Proof.
  intros H0 H1 Hm. unfold scaled.
  assert (Hlt : Qltb max min = false).
  { apply Qltb_ge. now apply Qlt_le_weak. }
  rewrite Hlt. split; nra.
Qed.

Lemma homeChain_segments (w h : Q) :
  length (homeChain w h) = numSegments /\
  Forall (fun seg => Segment.x seg = w / 2 /\ Segment.y seg = h / 2)
         (homeChain w h).
Proof.
  split; [reflexivity|]. unfold homeChain. cbn. repeat constructor.
Qed.

(** *** The follower chain *)

Lemma followLoop_spec (count i : nat) (segs : list Segment.t) :
  (1 <= i)%nat -> (i + count = length segs)%nat ->
  let r := followLoop count i segs in
  length r = length segs /\
  (forall j, (j < i)%nat -> r !! j = segs !! j) /\
  (forall j prev curr,
      (i <= j)%nat -> r !! (j - 1)%nat = Some prev -> segs !! j = Some curr ->
      r !! j = Some (easeToward curr (Segment.x prev) (Segment.y prev))).
Proof.
  revert i segs. induction count as [|count IH]; intros i segs Hi Hlen; cbn zeta.
  - cbn [followLoop]. split; [reflexivity|]. split; [reflexivity|].
    intros j prev curr Hj _ Hc. apply lookup_lt_Some in Hc. lia.
  - cbn [followLoop].
    destruct (lookup_lt_is_Some_2 segs (i - 1)) as [prev Hprev]; [lia|].
    destruct (lookup_lt_is_Some_2 segs i) as [curr Hcurr]; [lia|].
    rewrite Hprev, Hcurr.
    set (e := easeToward curr (Segment.x prev) (Segment.y prev)).
    destruct (IH (S i) (<[i := e]> segs)) as (Hl & Hlow & Hup);
      [lia | rewrite length_insert; lia |].
    rewrite length_insert in Hl. split; [exact Hl|]. split.
    + intros j Hj. rewrite Hlow by lia. apply list_lookup_insert_ne. lia.
    + intros j prev' curr' Hj Hp Hc.
      destruct (decide (j = i)) as [->|Hne].
      * rewrite Hlow in Hp by lia.
        rewrite list_lookup_insert_ne in Hp by lia.
        rewrite Hprev in Hp. rewrite Hcurr in Hc.
        injection Hp as <-. injection Hc as <-.
        rewrite Hlow by lia. apply list_lookup_insert_eq.
        apply lookup_lt_Some in Hcurr. exact Hcurr.
      * apply Hup; [lia | exact Hp |].
        rewrite list_lookup_insert_ne by lia. exact Hc.
Qed.

(** The chain update: the first segment eases toward the target, every
    later one toward its predecessor as already updated. *)
Lemma followTarget_spec (tx ty : Q) (segs : list Segment.t) :
  let r := followTarget tx ty segs in
  length r = length segs /\
  (forall first, segs !! 0%nat = Some first ->
                 r !! 0%nat = Some (easeToward first tx ty)) /\
  (forall i prev curr,
      (1 <= i)%nat -> r !! (i - 1)%nat = Some prev -> segs !! i = Some curr ->
      r !! i = Some (easeToward curr (Segment.x prev) (Segment.y prev))).
Proof.
  cbn zeta. unfold followTarget.
  destruct (segs !! 0%nat) as [first|] eqn:Hfirst.
  - assert (Hpos : (0 < length segs)%nat) by (eapply lookup_lt_Some; eauto).
    rewrite length_insert.
    destruct (followLoop_spec (length segs - 1) 1
                (<[0%nat := easeToward first tx ty]> segs))
      as (Hl & Hlow & Hup); [lia | rewrite length_insert; lia |].
    rewrite length_insert in Hl. split; [exact Hl|]. split.
    + intros first' Hf. injection Hf as <-. rewrite Hlow by lia.
      now apply list_lookup_insert_eq.
    + intros i prev curr Hi Hp Hc. apply Hup; [exact Hi | exact Hp |].
      rewrite list_lookup_insert_ne by lia. exact Hc.
  - split; [reflexivity|]. split; [discriminate|].
    intros i prev curr _ _ Hc. apply lookup_lt_Some in Hc.
    apply lookup_ge_None in Hfirst. lia.
Qed.

Section Chain.
Context (host : Host).

(** The chain after a frame: untouched when the round is over, updated
    from the target of the frame otherwise. *)
Lemma draw_segments f s :
  segments (draw host f s)
  = (if gameOver (draw host f s) then segments s
     else followTarget (target f s).1 (target f s).2 (segments s)).
Proof.
  assert (Hstage : exists t,
             draw host f s = epilogue f t /\ fixed t = fixed s /\
             segments t = segments s).
  { destruct (prologue_keeps f s) as (Hfix & Hseg & _).
    destruct (obstacleImage s) as [img|] eqn:Himg;
      [destruct (introOverlayActive s) eqn:Hintro|].
    - exists (prologue f s). rewrite draw_idle by auto. auto.
    - destruct (draw_sweeps host f s img Himg Hintro)
        as (s1 & E & _ & Hf1 & _ & Hs1 & _).
      eexists. split; [exact E|].
      destruct (obstacleLoop_cases host img (segments s !! 0%nat) s1) as (Hu & _).
      unfold fixed. unfold fixed in Hf1. unfold untouched in Hu.
      injection Hu as -> -> -> -> -> -> -> _ -> _ _ -> _ -> -> _ ->.
      auto.
    - exists (prologue f s). rewrite draw_idle by auto. auto. }
  destruct Hstage as (t & E & Hfix & Hseg). rewrite E.
  destruct (epilogue_keeps f t) as (_ & Hout & _ & _ & _ & _ & _ & ->).
  apply outcome_same in Hout as (-> & _). rewrite Hseg.
  assert (Ht : target f t = target f s).
  { unfold target. unfold fixed in Hfix.
    injection Hfix as _ _ _ -> -> -> _ _ -> -> _. reflexivity. }
  rewrite Ht. reflexivity.
Qed.

End Chain.

(** *** Resizing *)

Section Resize.
Context (host : Host).

(** A resize is a frame on the resized canvas followed by
    [initSegments]. *)
Lemma windowResized_shape vw vh f s :
  windowResized host vw vh f s
  = set_segments
      (homeChain (if isMobileDevice host then vw else 800) vh)
      (draw host f
            (set_height vh
               (set_width (if isMobileDevice host then vw else 800) s))).
Proof.
  unfold windowResized, resizeCanvas, canvasSize, initSegments, homeChain.
  reflexivity.
Qed.

End Resize.

(** The resize case of a proof by cases on the event: [Hframe] is what
    the proof knows of every frame, [Hd] becomes what it knows of the
    frame the resize draws, with the state after that frame turned into a
    variable. *)
Ltac resize_frame Hframe f Hd :=
  rewrite windowResized_shape;
  match goal with
  | |- context [draw ?host f ?r] =>
      pose proof (Hframe f r) as Hd; revert Hd;
      generalize (draw host f r);
      let d := fresh "d" in intros d Hd
  end;
  sst_all.

(** *** Score, round and events *)

Lemma toFixed1_nonneg (v : Q) : 0 <= v -> 0 <= toFixed1 v.
Proof.
  intros Hv. unfold toFixed1.
  assert (Hb : Qle_bool 0 v = true) by (apply Qle_bool_iff; exact Hv).
  rewrite Hb.
  assert (Hf : (0 <= Qfloor (v * 10 + 1 / 2))%Z).
  { change 0%Z with (Qfloor 0). apply Qfloor_resp_le.
    apply Qle_trans with (v * 10 + 0); [lra|].
    apply Qplus_le_r. discriminate. }
  apply Qle_shift_div_l; [reflexivity|]. rewrite Qmult_0_l.
  change 0 with (inject_Z 0). rewrite <- Zle_Qle. exact Hf.
Qed.

Lemma Math_max_nonneg (x : Q) : 0 <= Math_max 0 x.
Proof.
  unfold Math_max. destruct (Qle_bool 0 x) eqn:H;
    [apply Qle_bool_iff; exact H | apply Qle_refl].
Qed.

Lemma elapsedSeconds_after (f : Frame.t) (s : state) :
  roundStartTime s <= Frame.millis f ->
  elapsedSeconds f s = (Frame.millis f - roundStartTime s) / 1000.
Proof.
  intros H. unfold elapsedSeconds. apply Math_max_of_le.
  apply Qle_shift_div_l; [reflexivity | lra].
Qed.

Section Rounds.
Context (host : Host).

Lemma draw_lastHudScore f s :
  lastHudScore (draw host f s) = lastHudScore (prologue f s).
Proof.
  destruct (obstacleImage s) as [img|] eqn:Himg;
    [destruct (introOverlayActive s) eqn:Hintro|].
  - rewrite draw_idle by auto.
    now destruct (epilogue_keeps f (prologue f s))
      as (_ & _ & _ & _ & _ & _ & -> & _).
  - destruct (draw_sweeps host f s img Himg Hintro)
      as (s1 & -> & _ & _ & _ & _ & <-).
    match goal with |- context [epilogue f ?t] =>
      destruct (epilogue_keeps f t) as (_ & _ & _ & _ & _ & _ & -> & _) end.
    destruct (obstacleLoop_cases host img (segments s !! 0%nat) s1) as (Hu & _).
    unfold untouched in Hu.
    injection Hu as _ _ _ _ _ _ _ _ _ _ _ _ -> _ _ _ _. reflexivity.
  - rewrite draw_idle by auto.
    now destruct (epilogue_keeps f (prologue f s))
      as (_ & _ & _ & _ & _ & _ & -> & _).
Qed.

(** What the score block reports. *)
Lemma prologue_report f s :
  gameOver s = false ->
  let rounded := normalizeScore (Fin (elapsedSeconds f s)) in
  lastHudScore (prologue f s) == rounded /\
  (isMounted s = true ->
   HudState.score (hudState s) == lastHudScore s \/ lastHudScore s < 0 ->
   HudState.score (hudState (prologue f s)) == rounded).
Proof.
  intros Hg. cbn zeta.
  assert (Hpos : 0 <= normalizeScore (Fin (elapsedSeconds f s))).
  { apply toFixed1_nonneg, Math_max_nonneg. }
  assert (E : lastHudScore (prologue f s) = lastHudScore (updateScore f s) /\
              hudState (prologue f s) = hudState (updateScore f s)).
  { unfold prologue, updateScore, drawFlowingLines, drawScreenTexture, updateHud.
    crunch; try discriminate Hg; auto. }
  destruct E as [-> ->]. unfold updateScore, updateHud. rewrite Hg. sst.
  fold (elapsedSeconds f s).
  set (rounded := normalizeScore (Fin (elapsedSeconds f s))) in *.
  unfold Qneqb. destruct (Qeq_bool rounded (lastHudScore s)) eqn:Heq; sst.
  - apply Qeq_bool_iff in Heq. split; [symmetry; exact Heq|].
    intros _ [Hs | Hneg]; [rewrite Hs; symmetry; exact Heq|].
    exfalso. rewrite <- Heq in Hneg. lra.
  - destruct (isMounted s) eqn:Hm; sst; (split; [reflexivity|]);
      intros Hm' _; [reflexivity | discriminate Hm'].
Qed.

Lemma draw_miss f s :
  gameOver (draw host f s) = false ->
  outcome (draw host f s) = outcome (prologue f s).
Proof.
  intros H. destruct (draw_outcome host f s) as [Hout | [_ Hout]];
    [exact Hout|].
  exfalso. unfold collisionOutcome in Hout. cbn zeta in Hout.
  apply outcome_fields in Hout as (Hg & _). rewrite H in Hg. discriminate Hg.
Qed.

Lemma draw_hit f s :
  gameOver s = false -> gameOver (draw host f s) = true ->
  outcome (draw host f s) = collisionOutcome host (prologue f s).
Proof.
  intros Hg H. destruct (draw_outcome host f s) as [Hout | [_ Hout]];
    [|exact Hout].
  exfalso. apply outcome_same in Hout as (Hout & _).
  destruct (prologue_keeps f s) as (_ & _ & _ & Hg0 & _).
  rewrite H, Hg0, Hg in Hout. discriminate Hout.
Qed.

(** Only [resetGame] starts a round: every other event keeps the start
    time, and keeps a finished round finished with its score. *)
Lemma step_same_round e s :
  isReset e = false ->
  roundStartTime (step host e s) = roundStartTime s /\
  (gameOver s = true ->
   gameOver (step host e s) = true /\ score (step host e s) = score s).
Proof.
  intros He.
  assert (Hframe : forall f s0,
             roundStartTime (draw host f s0) = roundStartTime s0 /\
             (gameOver s0 = true ->
              gameOver (draw host f s0) = true /\
              score (draw host f s0) = score s0)).
  { intros f s0. pose proof (draw_fixed host f s0) as Hfix.
    unfold fixed in Hfix.
    injection Hfix as _ _ _ _ _ _ _ -> _ _ _. split; [reflexivity|].
    intros Hg. destruct (draw_over host f s0 Hg) as (Hout & _).
    apply outcome_same in Hout as (-> & _ & -> & _). auto. }
  destruct e as [f|now|value|vw vh f|beta gamma|api|granted|];
    try discriminate He; cbn [step].
  - apply Hframe.
  - unfold setIntroOverlayState, p_random. crunch; auto.
  - resize_frame Hframe f Hd. exact Hd.
  - unfold handleOrientation. crunch; auto.
  - unfold setupGyroSensor. destruct api; crunch; auto.
  - unfold permissionAnswered, console_log. destruct granted; crunch; auto.
  - unfold unmount. crunch; auto.
Qed.

Lemma run_same_round es s :
  Forall (fun e => isReset e = false) es ->
  roundStartTime (run host es s) = roundStartTime s /\
  (gameOver s = true ->
   gameOver (run host es s) = true /\ score (run host es s) = score s).
Proof.
  intros Hes. revert s. induction Hes as [|e es He _ IH]; intros s.
  - cbn [run]. auto.
  - cbn [run]. destruct (step_same_round e s He) as [Hr Hover].
    destruct (IH (step host e s)) as [Hr' Hover'].
    split; [congruence|]. intros Hg. destruct (Hover Hg) as [Hg1 Hs1].
    destruct (Hover' Hg1) as [Hg2 Hs2]. split; congruence.
Qed.

End Rounds.

(** *** Frames of a running round *)

Section Playing.
Context (host : Host).

Lemma draw_no_hit f s img :
  obstacleImage s = Some img -> introOverlayActive s = false ->
  gameOver s = false ->
  Forall (fun o => struck (segments s !! 0%nat) (fall o) = false)
         (visited host f s) ->
  obstacles (draw host f s)
  = List.filter (onScreen (height s)) (List.map fall (visited host f s)) /\
  outcome (draw host f s) = outcome (prologue f s).
Proof.
  intros Himg Hintro Hg Hall.
  destruct (draw_sweeps host f s img Himg Hintro)
    as (s1 & -> & Hv & Hf1 & Ho1 & _ & _).
  match goal with |- context [epilogue f ?t] =>
    destruct (epilogue_keeps f t) as (_ & -> & -> & _) end.
  destruct (prologue_keeps f s) as (_ & _ & _ & Hg0 & _).
  assert (Hg1 : gameOver s1 = false).
  { apply outcome_same in Ho1 as (-> & _). congruence. }
  rewrite <- Hv in Hall.
  destruct (obstacleLoop_no_hit host img _ s1 Hg1 Hall) as (-> & -> & _).
  assert (Hh : height s1 = height s).
  { unfold fixed in Hf1. injection Hf1 as _ _ _ _ _ _ _ _ _ -> _. reflexivity. }
  rewrite Hh, Hv. auto.
Qed.

Lemma draw_first_hit f s img pre o post :
  obstacleImage s = Some img -> introOverlayActive s = false ->
  gameOver s = false ->
  visited host f s = pre ++ o :: post ->
  struck (segments s !! 0%nat) (fall o) = true ->
  Forall (fun o => struck (segments s !! 0%nat) (fall o) = false) post ->
  obstacles (draw host f s)
  = pre ++ fall o :: List.filter (onScreen (height s)) (List.map fall post) /\
  outcome (draw host f s) = collisionOutcome host (prologue f s).
Proof.
  intros Himg Hintro Hg Hsplit Hhit Hpost.
  destruct (draw_sweeps host f s img Himg Hintro)
    as (s1 & -> & Hv & Hf1 & Ho1 & _ & _).
  match goal with |- context [epilogue f ?t] =>
    destruct (epilogue_keeps f t) as (_ & -> & -> & _) end.
  destruct (prologue_keeps f s) as (Hfix & _ & _ & Hg0 & _).
  assert (Hg1 : gameOver s1 = false).
  { apply outcome_same in Ho1 as (-> & _). congruence. }
  rewrite <- Hv in Hsplit.
  destruct (obstacleLoop_first_hit host img _ s1 pre o post Hg1 Hsplit Hhit
              Hpost) as (-> & -> & _).
  assert (Hh : height s1 = height s /\ isMounted s1 = isMounted (prologue f s)).
  { unfold fixed in Hf1, Hfix.
    injection Hf1 as _ _ _ _ _ _ _ _ _ -> ->.
    injection Hfix as _ _ _ _ _ _ _ _ _ _ ->. auto. }
  destruct Hh as [-> Hm]. split; [reflexivity|].
  unfold collisionOutcome.
  apply outcome_same in Ho1 as (_ & -> & -> & -> & -> & -> & ->).
  rewrite Hm. reflexivity.
Qed.

Lemma draw_guarded f s :
  introOverlayActive s = true \/ obstacleImage s = None ->
  outcome (draw host f s) = outcome (prologue f s) /\
  obstacles (draw host f s) = obstacles s /\
  obstacleSpawnTimer (draw host f s) = obstacleSpawnTimer s /\
  nextObstacleDelay (draw host f s) = nextObstacleDelay s /\
  randomCalls (draw host f s) = randomCalls s.
Proof.
  intros H. rewrite draw_idle by tauto.
  destruct (epilogue_keeps f (prologue f s))
    as (_ & -> & -> & -> & -> & -> & _).
  destruct (prologue_shape f s) as (c & o & l & h & ->). sst. auto.
Qed.

(** A collision is declared exactly when some visited obstacle, once
    moved, is hit. *)
Lemma draw_game_over_iff f s img :
  obstacleImage s = Some img -> introOverlayActive s = false ->
  gameOver s = false ->
  gameOver (draw host f s) = true <->
  Exists (fun o => struck (segments s !! 0%nat) (fall o) = true)
         (visited host f s).
Proof.
  intros Himg Hintro Hg.
  destruct (prologue_keeps f s) as (_ & _ & _ & Hg0 & _).
  destruct (last_hit_split (segments s !! 0%nat) (visited host f s))
    as [Hall | (pre & o & post & Hsplit & Hhit & Hpost)].
  - destruct (draw_no_hit f s img Himg Hintro Hg Hall) as (_ & Hout).
    apply outcome_same in Hout as (Hout & _). split.
    + intros H. rewrite H, Hg0, Hg in Hout. discriminate Hout.
    + intros Hex. exfalso. apply Exists_exists in Hex as (o & Hin & Ho).
      rewrite Forall_forall in Hall. rewrite (Hall o Hin) in Ho.
      discriminate Ho.
  - destruct (draw_first_hit f s img pre o post Himg Hintro Hg Hsplit Hhit
                Hpost) as (_ & Hout).
    unfold collisionOutcome in Hout. cbn zeta in Hout.
    apply outcome_fields in Hout as (Hout & _). split; [|intros _; exact Hout].
    intros _. rewrite Hsplit. apply Exists_app. right. now constructor.
Qed.

Lemma step_obstacleImage e s :
  obstacleImage (step host e s) = obstacleImage s /\
  isMounted (step host e s) = (isMounted s && negb (match e with Unmount => true | _ => false end)).
Proof.
  assert (Hframe : forall f s0,
             obstacleImage (draw host f s0) = obstacleImage s0 /\
             isMounted (draw host f s0) = isMounted s0).
  { intros f s0. pose proof (draw_fixed host f s0) as Hfix.
    unfold fixed in Hfix.
    injection Hfix as _ _ -> _ _ _ _ _ _ _ ->. auto. }
  destruct e as [f|now|value|vw vh f|beta gamma|api|granted|]; cbn [step].
  - rewrite andb_true_r. apply Hframe.
  - rewrite resetGame_shape. sst. now rewrite andb_true_r.
  - unfold setIntroOverlayState, p_random. crunch; now rewrite ?andb_true_r.
  - resize_frame Hframe f Hd. rewrite andb_true_r. exact Hd.
  - unfold handleOrientation. crunch; now rewrite ?andb_true_r.
  - unfold setupGyroSensor. destruct api; crunch; now rewrite ?andb_true_r.
  - unfold permissionAnswered, console_log. destruct granted; crunch; now rewrite ?andb_true_r.
  - unfold unmount. crunch. now rewrite andb_false_r.
Qed.

Lemma step_fieldInv e s : fieldInv s -> fieldInv (step host e s).
Proof.
  assert (Hframe : forall f s0, fieldInv s0 -> fieldInv (draw host f s0)).
  { unfold fieldInv. intros f s0 Hinv.
    pose proof (draw_fixed host f s0) as Hfix. unfold fixed in Hfix.
    injection Hfix as _ _ -> _ _ _ -> _ _ _ _. intros H.
    destruct (draw_guarded f s0 H) as (_ & -> & _). auto. }
  unfold fieldInv in *. intros Hinv.
  destruct e as [f|now|value|vw vh f|beta gamma|api|granted|]; cbn [step].
  - apply Hframe, Hinv.
  - rewrite resetGame_shape. sst. reflexivity.
  - unfold setIntroOverlayState, p_random. destruct value; sst;
      [reflexivity|]. intros [H|H]; [discriminate H | auto].
  - resize_frame Hframe f Hd. apply Hd, Hinv.
  - unfold handleOrientation. crunch; exact Hinv.
  - unfold setupGyroSensor. destruct api; crunch; exact Hinv.
  - unfold permissionAnswered, console_log. destruct granted; crunch; exact Hinv.
  - unfold unmount. crunch; exact Hinv.
Qed.

Lemma run_fieldInv es s : fieldInv s -> fieldInv (run host es s).
Proof.
  revert s. induction es as [|e es IH]; intros s H; cbn [run]; [exact H|].
  apply IH, step_fieldInv, H.
Qed.

Lemma boot_fieldInv st l1 l2 l3 l4 l5 vw vh now :
  fieldInv (boot host st l1 l2 l3 l4 l5 vw vh now).
Proof.
  unfold fieldInv, boot, setup, canvasSize. intros _.
  destruct (isMobileDevice host); rewrite resetGame_shape; sst; reflexivity.
Qed.

Lemma transitions_over es s :
  Forall (fun e => isReset e = false) es -> gameOver s = true ->
  transitions host es s = 0%nat.
Proof.
  intros Hes. revert s. induction Hes as [|e es He _ IH]; intros s Hg;
    cbn [transitions]; [reflexivity|].
  destruct (step_same_round host e s He) as [_ Hover].
  destruct (Hover Hg) as [Hg' _]. rewrite Hg, (IH _ Hg'). reflexivity.
Qed.

Lemma transitions_at_most_one es s :
  Forall (fun e => isReset e = false) es ->
  (transitions host es s <= 1)%nat.
Proof.
  intros Hes. revert s. induction Hes as [|e es He Hes' IH]; intros s;
    cbn [transitions]; [lia|].
  destruct (gameOver s) eqn:Hg; cbn [negb andb].
  - specialize (IH (step host e s)). lia.
  - destruct (gameOver (step host e s)) eqn:Hg'.
    + rewrite (transitions_over es _ Hes' Hg'). lia.
    + specialize (IH (step host e s)). lia.
Qed.

End Playing.

Lemma hits_distance (hd : Segment.t) (o : Obstacle.t) :
  hits hd o = true <->
  (sqrt ((Q2R (Obstacle.x o) - Q2R (Segment.x hd))
         * (Q2R (Obstacle.x o) - Q2R (Segment.x hd))
         + (Q2R (Obstacle.y o) - Q2R (Segment.y hd))
           * (Q2R (Obstacle.y o) - Q2R (Segment.y hd)))
   < 80 + Q2R (Obstacle.size o) * (45 / 100))%R.
Proof.
  unfold hits. rewrite dist_lt_sqrt.
  assert (E : Q2R (headRadius + Obstacle.size o * 0.45)
              = (80 + Q2R (Obstacle.size o) * (45 / 100))%R).
  { rewrite Q2R_plus, Q2R_mult. unfold headRadius, Q2R. cbn. lra. }
  rewrite E. reflexivity.
Qed.

Lemma pastViewport_top (h : Q) (o : Obstacle.t) :
  pastViewport h o = true <-> h + 50 < Obstacle.y o - Obstacle.size o / 2.
Proof. apply Qltb_lt. Qed.

(** *** The game does not read pictures, canvas, store or console *)

Lemma gameplay_dress s1 s2 :
  gameplay s1 = gameplay s2 ->
  s2 = dress (headImage s2) (backgroundTexture s2) (canvas s2)
             (sessionStorage s2) (console s2) s1.
Proof.
  destruct s1, s2. unfold gameplay. sst. intros H. injection H. intros.
  subst. reflexivity.
Qed.

Lemma gameplay_of_dress a b c st l s :
  gameplay (dress a b c st l s) = gameplay s.
Proof. reflexivity. Qed.

Ltac undress H :=
  apply gameplay_dress in H; rewrite H; clear H; unfold dress.

Section Blind.
Context (host : Host).

Lemma drawScreenTexture_gameplay s : gameplay (drawScreenTexture s) = gameplay s.
Proof. unfold drawScreenTexture. crunch; reflexivity. Qed.

Lemma drawFlowingLines_gameplay s1 s2 :
  gameplay s1 = gameplay s2 ->
  gameplay (drawFlowingLines s1) = gameplay (drawFlowingLines s2).
Proof.
  intros H. undress H. unfold drawFlowingLines. crunch; reflexivity.
Qed.

Lemma updateScore_gameplay f s1 s2 :
  gameplay s1 = gameplay s2 ->
  gameplay (updateScore f s1) = gameplay (updateScore f s2).
Proof.
  intros H. undress H. unfold updateScore, updateHud. crunch; reflexivity.
Qed.

Lemma prologue_gameplay f s1 s2 :
  gameplay s1 = gameplay s2 ->
  gameplay (prologue f s1) = gameplay (prologue f s2).
Proof.
  intros H. unfold prologue.
  apply updateScore_gameplay, drawFlowingLines_gameplay.
  rewrite !drawScreenTexture_gameplay. exact H.
Qed.

Lemma spawnTick_gameplay dt s1 s2 :
  gameplay s1 = gameplay s2 ->
  gameplay (spawnTick host dt s1) = gameplay (spawnTick host dt s2).
Proof.
  intros H. undress H. unfold spawnTick, spawnObstacle, p_random.
  crunch; reflexivity.
Qed.

(** The [gameplay] variables are the [untouched] ones but the two
    pictures, the [outcome] ones but store and console, and the
    obstacles. *)
Lemma gameplay_parts s1 s2 t1 t2 :
  gameplay s1 = gameplay s2 ->
  untouched t1 = untouched s1 -> untouched t2 = untouched s2 ->
  obstacles t1 = obstacles t2 ->
  gameOver t1 = gameOver t2 -> vibrations t1 = vibrations t2 ->
  score t1 = score t2 -> bestScore t1 = bestScore t2 ->
  hudState t1 = hudState t2 ->
  gameplay t1 = gameplay t2.
Proof.
  destruct s1, s2, t1, t2. unfold gameplay, untouched. sst.
  intros H H1 H2 -> -> -> -> -> ->.
  injection H. injection H1. injection H2. intros. subst. reflexivity.
Qed.

Lemma gameplay_fields s1 s2 :
  gameplay s1 = gameplay s2 ->
  obstacles s1 = obstacles s2 /\ gameOver s1 = gameOver s2 /\
  height s1 = height s2 /\ segments s1 = segments s2 /\
  obstacleImage s1 = obstacleImage s2 /\
  introOverlayActive s1 = introOverlayActive s2 /\
  vibrations s1 = vibrations s2 /\ score s1 = score s2 /\
  bestScore s1 = bestScore s2 /\ hudState s1 = hudState s2 /\
  isMounted s1 = isMounted s2.
Proof.
  unfold gameplay. intros H. injection H. intros. auto 20.
Qed.

Lemma obstacleLoop_gameplay img head s1 s2 :
  gameplay s1 = gameplay s2 ->
  gameplay (obstacleLoop host img head (length (obstacles s1)) s1)
  = gameplay (obstacleLoop host img head (length (obstacles s2)) s2).
Proof.
  intros H.
  destruct (gameplay_fields s1 s2 H)
    as (Hobs & Hg & Hh & _ & _ & _ & Hv & Hs & Hb & Hhud & Hm).
  destruct (gameOver s2) eqn:Hg2.
  - destruct (obstacleLoop_over host img head (obstacles s1) [] s1)
      as (A1 & A2 & A3); [now rewrite app_nil_r | exact Hg |].
    destruct (obstacleLoop_over host img head (obstacles s2) [] s2)
      as (B1 & B2 & B3); [now rewrite app_nil_r | exact Hg2 |].
    apply outcome_same in A2 as (A21 & A22 & A23 & A24 & _ & _ & A27).
    apply outcome_same in B2 as (B21 & B22 & B23 & B24 & _ & _ & B27).
    apply (gameplay_parts s1 s2); try assumption; congruence.
  - destruct (last_hit_split head (obstacles s2))
      as [Hall | (pre & o & post & Hsplit & Hhit & Hpost)].
    + destruct (obstacleLoop_no_hit host img head s2 Hg2 Hall) as (B1 & B2 & B3).
      rewrite <- Hobs in Hall.
      destruct (obstacleLoop_no_hit host img head s1 Hg Hall) as (A1 & A2 & A3).
      apply outcome_same in A2 as (A21 & A22 & A23 & A24 & _ & _ & A27).
      apply outcome_same in B2 as (B21 & B22 & B23 & B24 & _ & _ & B27).
      apply (gameplay_parts s1 s2); try assumption; congruence.
    + destruct (obstacleLoop_first_hit host img head s2 pre o post Hg2 Hsplit
                  Hhit Hpost) as (B1 & B2 & B3).
      rewrite <- Hobs in Hsplit.
      destruct (obstacleLoop_first_hit host img head s1 pre o post Hg Hsplit
                  Hhit Hpost) as (A1 & A2 & A3).
      unfold collisionOutcome in A2, B2. cbn zeta in A2, B2.
      apply outcome_fields in A2 as (A21 & A22 & A23 & A24 & _ & _ & A27).
      apply outcome_fields in B2 as (B21 & B22 & B23 & B24 & _ & _ & B27).
      rewrite Hv in A22. rewrite Hs in A23. rewrite Hs, Hb in A24.
      rewrite Hs, Hb, Hm, Hhud in A27.
      apply (gameplay_parts s1 s2); try assumption; congruence.
Qed.

Lemma updateObstacles_gameplay f s1 s2 :
  gameplay s1 = gameplay s2 ->
  gameplay (updateObstacles host f s1) = gameplay (updateObstacles host f s2).
Proof.
  intros H.
  destruct (gameplay_fields s1 s2 H)
    as (_ & _ & _ & _ & Himg & Hintro & _).
  unfold updateObstacles. rewrite Himg, Hintro.
  destruct (obstacleImage s2) as [img|]; [|exact H].
  destruct (introOverlayActive s2); [exact H|].
  pose proof (spawnTick_gameplay (Frame.deltaTime f) s1 s2 H) as H'.
  destruct (gameplay_fields _ _ H') as (_ & _ & _ & -> & _).
  apply obstacleLoop_gameplay, H'.
Qed.

Lemma epilogue_gameplay f s1 s2 :
  gameplay s1 = gameplay s2 ->
  gameplay (epilogue f s1) = gameplay (epilogue f s2).
Proof.
  intros H.
  assert (Hf : forall t, gameplay (epilogue f t)
                         = gameplay (set_segments (segments (epilogue f t)) t)).
  { intros t. destruct (epilogue_shape f t) as (c & ->). reflexivity. }
  rewrite (Hf s1), (Hf s2).
  destruct (epilogue_keeps f s1) as (_ & _ & _ & _ & _ & _ & _ & ->).
  destruct (epilogue_keeps f s2) as (_ & _ & _ & _ & _ & _ & _ & ->).
  undress H. unfold target. sst. reflexivity.
Qed.

Lemma draw_gameplay f s1 s2 :
  gameplay s1 = gameplay s2 ->
  gameplay (draw host f s1) = gameplay (draw host f s2).
Proof.
  intros H. rewrite !draw_stages.
  apply epilogue_gameplay, updateObstacles_gameplay, prologue_gameplay, H.
Qed.

Lemma step_gameplay e s1 s2 :
  gameplay s1 = gameplay s2 ->
  gameplay (step host e s1) = gameplay (step host e s2).
Proof.
  intros H. destruct e as [f|now|value|vw vh f|beta gamma|api|granted|];
    cbn [step].
  - apply draw_gameplay, H.
  - rewrite !resetGame_shape. undress H. sst. reflexivity.
  - undress H. unfold setIntroOverlayState, p_random. crunch; reflexivity.
  - rewrite !windowResized_shape.
    set (w := if isMobileDevice host then vw else 800).
    assert (Hr : gameplay (set_height vh (set_width w s1))
                 = gameplay (set_height vh (set_width w s2)))
      by (undress H; reflexivity).
    apply (draw_gameplay f) in Hr. revert Hr.
    generalize (draw host f (set_height vh (set_width w s1))),
      (draw host f (set_height vh (set_width w s2))).
    intros d1 d2 Hd. undress Hd. reflexivity.
  - undress H. unfold handleOrientation. crunch; reflexivity.
  - undress H. unfold setupGyroSensor. destruct api; reflexivity.
  - undress H. unfold permissionAnswered, console_log.
    destruct granted; reflexivity.
  - undress H. reflexivity.
Qed.

Lemma run_gameplay es s1 s2 :
  gameplay s1 = gameplay s2 ->
  gameplay (run host es s1) = gameplay (run host es s2).
Proof.
  revert s1 s2. induction es as [|e es IH]; intros s1 s2 H; cbn [run];
    [exact H|]. apply IH, step_gameplay, H.
Qed.

End Blind.

(** *** What a frame draws *)

Lemma strokeLoop_body i segs : Forall (fun op => visual op = Body) (strokeLoop i segs).
Proof.
  induction i as [|j IH]; cbn [strokeLoop]; [constructor|].
  destruct (segs !! S j), (segs !! j); try exact IH. constructor; [reflexivity|exact IH].
Qed.

Section Canvas.
Context (host : Host).

Lemma prologue_canvas f s :
  exists tex,
    canvas (prologue f s) = Background :: tex ++ [FlowingLines (flowOffset s)] /\
    Forall (fun op => visual op = Texture) tex /\
    (backgroundTexture s = None -> tex = []).
Proof.
  assert (Hu : forall t, canvas (updateScore f t) = canvas t).
  { intros t. unfold updateScore, updateHud. crunch; reflexivity. }
  unfold prologue. rewrite Hu. unfold drawFlowingLines, drawScreenTexture.
  sst. destruct (backgroundTexture s) as [t|]; sst.
  - destruct (Qltb _ _); sst; eexists [_]; (split; [reflexivity|]);
      (split; [repeat constructor | discriminate]).
  - exists []. split; [reflexivity|]. split; [constructor | reflexivity].
Qed.

Lemma obstacleStep_canvas img head i s :
  exists ops,
    canvas (obstacleStep host img head i s) = canvas s ++ ops /\
    Forall (fun op => visual op = ObstaclePicture) ops.
Proof.
  unfold obstacleStep. destruct (obstacles s !! i) as [o|];
    [|exists []; split; [now rewrite app_nil_r | constructor]].
  set (o' := if negb (gameOver s) then fall o else o).
  exists [ObstacleImage (Obstacle.x o') (Obstacle.y o')
            (Obstacle.size o' * (Image.width img / Image.height img))
            (Obstacle.size o')].
  split; [|repeat constructor].
  match goal with |- canvas (if _ then set_obstacles _ ?t else ?t) = ?r =>
    assert (E : canvas t = r) end.
  { destruct head as [hd|]; [|reflexivity]. sst.
    destruct (negb (gameOver s) && hits hd _); [|reflexivity].
    match goal with |- context [onCollision host ?t] =>
      destruct (onCollision_frame host t) as (_ & _ & ->) end. reflexivity. }
  destruct (_ && _); sst; exact E.
Qed.

Lemma obstacleLoop_canvas img head n s :
  exists ops,
    canvas (obstacleLoop host img head n s) = canvas s ++ ops /\
    Forall (fun op => visual op = ObstaclePicture) ops.
Proof.
  revert s. induction n as [|i IH]; intros s; cbn [obstacleLoop].
  - exists []. split; [now rewrite app_nil_r | constructor].
  - destruct (obstacleStep_canvas img head i s) as (ops1 & E1 & F1).
    destruct (IH (obstacleStep host img head i s)) as (ops2 & E2 & F2).
    exists (ops1 ++ ops2). rewrite E2, E1, app_assoc. split; [reflexivity|].
    apply Forall_app. auto.
Qed.

Lemma updateObstacles_canvas f s :
  exists ops,
    canvas (updateObstacles host f s) = canvas s ++ ops /\
    Forall (fun op => visual op = ObstaclePicture) ops /\
    (obstacleImage s = None -> ops = []).
Proof.
  unfold updateObstacles. destruct (obstacleImage s) as [img|].
  - destruct (introOverlayActive s).
    + exists []. split; [now rewrite app_nil_r|]. split; [constructor|auto].
    + match goal with |- context [obstacleLoop host img ?h ?n ?t] =>
        destruct (obstacleLoop_canvas img h n t) as (ops & E & F) end.
      exists ops. rewrite E.
      destruct (spawnTick_shape host (Frame.deltaTime f) s)
        as (a1 & a2 & a3 & a4 & ->). sst.
      split; [reflexivity|]. split; [exact F | discriminate].
  - exists []. split; [now rewrite app_nil_r|]. split; [constructor|auto].
Qed.

Lemma epilogue_canvas f s :
  exists body hd,
    canvas (epilogue f s) = canvas s ++ body ++ hd /\
    Forall (fun op => visual op = Body) body /\
    Forall (fun op => visual op = HeadPicture) hd /\
    (headImage s = None -> hd = []).
Proof.
  unfold epilogue. destruct (segments s) as [|seg segs] eqn:Hs.
  - exists [], []. split; [now rewrite app_nil_r|]. repeat split; constructor.
  - match goal with |- context [drawHead (drawBodyStroke ?t)] =>
      assert (Ht : canvas t = canvas s /\ headImage t = headImage s) end.
    { unfold target. crunch; auto. }
    match goal with |- context [drawHead (drawBodyStroke ?t)] =>
      generalize dependent t end.
    intros t [Hc Hh].
    assert (Hb : exists body,
               canvas (drawBodyStroke t) = canvas t ++ body /\
               Forall (fun op => visual op = Body) body /\
               headImage (drawBodyStroke t) = headImage t /\
               segments (drawBodyStroke t) = segments t).
    { unfold drawBodyStroke. destruct (_ <? _)%nat.
      - exists []. rewrite app_nil_r. repeat split. constructor.
      - eexists. sst. repeat split. apply strokeLoop_body. }
    destruct Hb as (body & Eb & Fb & Hhb & Hsb).
    unfold drawHead. rewrite Hhb, Hsb, Hh.
    destruct (headImage s) as [img|].
    + destruct (segments t !! 0%nat) as [h0|].
      * sst. rewrite Eb, Hc. eexists body, [_]. rewrite <- app_assoc.
        split; [reflexivity|]. repeat split; try assumption;
          [repeat constructor | discriminate].
      * rewrite Eb, Hc. exists body, []. rewrite app_nil_r.
        repeat split; try assumption; constructor.
    + rewrite Eb, Hc. exists body, []. rewrite app_nil_r.
      repeat split; try assumption; constructor.
Qed.

(** The canvas after a frame: the background, the texture, the lines, the
    obstacles, the body and the head, each only when its picture is
    there. *)
Lemma draw_canvas f s :
  exists tex obs body hd,
    canvas (draw host f s)
    = Background :: tex ++ FlowingLines (flowOffset s) :: obs ++ body ++ hd /\
    Forall (fun op => visual op = Texture) tex /\
    Forall (fun op => visual op = ObstaclePicture) obs /\
    Forall (fun op => visual op = Body) body /\
    Forall (fun op => visual op = HeadPicture) hd /\
    (backgroundTexture s = None -> tex = []) /\
    (obstacleImage s = None -> obs = []) /\
    (headImage s = None -> hd = []).
Proof.
  rewrite draw_stages.
  destruct (prologue_canvas f s) as (tex & Ep & Ft & Nt).
  destruct (updateObstacles_canvas f (prologue f s)) as (obs & Eo & Fo & No).
  destruct (epilogue_canvas f (updateObstacles host f (prologue f s)))
    as (body & hd & Ee & Fb & Fh & Nh).
  exists tex, obs, body, hd. rewrite Ee, Eo, Ep.
  split; [cbn [app]; rewrite <- !app_assoc; reflexivity|].
  repeat split; try assumption.
  - intros H. apply No.
    destruct (prologue_keeps f s) as (Hfix & _). unfold fixed in Hfix.
    injection Hfix as _ _ -> _ _ _ _ _ _ _ _. exact H.
  - intros H. apply Nh.
    pose proof (draw_fixed host f s) as Hfix. rewrite draw_stages in Hfix.
    destruct (epilogue_keeps f (updateObstacles host f (prologue f s)))
      as (Hfe & _).
    rewrite Hfe in Hfix. unfold fixed in Hfix.
    injection Hfix as -> _ _ _ _ _ _ _ _ _ _. exact H.
Qed.

End Canvas.

(** *** Startup, pictures and the session store *)

Lemma setItem_reads key value st :
  Storage.reads (Storage.setItem key value st).2 = Storage.reads st.
Proof.
  unfold Storage.setItem, Storage.reads. destruct (Storage.writable st);
    cbn [snd Storage.calls]; rewrite List.filter_app; cbn;
    now rewrite app_nil_r.
Qed.

Section Startup.
Context (host : Host).

Lemma preload_console l1 l2 l3 l4 l5 s :
  console (preload l1 l2 l3 l4 l5 s)
  = console s
    ++ (if failed l1 then ["Failed to load /head.png"%string] else [])
    ++ (if failed l2 then ["Failed to load /pattern.png"%string] else [])
    ++ (if failed l3 then ["Failed to load /2025.png"%string] else [])
    ++ (if failed l4
        then ["Failed to load /noita-digital-zcx5ztIjQAM-unsplash.png"%string]
        else [])
    ++ (if failed l5 then ["Failed to load /2026.png"%string] else []).
Proof.
  unfold preload, loadImage, console_log.
  destruct (failed l1), (failed l2), (failed l3), (failed l4), (failed l5);
    sst; rewrite <- ?app_assoc, ?app_nil_r; reflexivity.
Qed.

Lemma preload_keeps l1 l2 l3 l4 l5 s :
  obstacleImage (preload l1 l2 l3 l4 l5 s) = handle l5 /\
  headImage (preload l1 l2 l3 l4 l5 s) = handle l1 /\
  backgroundTexture (preload l1 l2 l3 l4 l5 s) = handle l4 /\
  bestScore (preload l1 l2 l3 l4 l5 s) = bestScore s /\
  sessionStorage (preload l1 l2 l3 l4 l5 s) = sessionStorage s.
Proof.
  unfold preload, loadImage, console_log.
  destruct (failed l1), (failed l2), (failed l3), (failed l4), (failed l5);
    sst; auto.
Qed.

Lemma boot_keeps st l1 l2 l3 l4 l5 vw vh now :
  bestScore (boot host st l1 l2 l3 l4 l5 vw vh now) = bestScore (mount host st) /\
  sessionStorage (boot host st l1 l2 l3 l4 l5 vw vh now)
  = sessionStorage (mount host st).
Proof.
  unfold boot, setup, canvasSize.
  destruct (preload_keeps l1 l2 l3 l4 l5
              (setIntroOverlayState host true (mount host st)))
    as (_ & _ & _ & Hb & Hs).
  destruct (isMobileDevice host); rewrite resetGame_shape; sst;
    rewrite Hb, Hs; unfold setIntroOverlayState; sst; auto.
Qed.

Lemma mount_storage st :
  Storage.calls (sessionStorage (mount host st))
  = Storage.calls st ++ [Storage.GetItem BEST_SCORE_KEY].
Proof.
  unfold mount, readSessionBest, Storage.getItem.
  destruct (Storage.readable st); reflexivity.
Qed.

(** The best score the sketch starts with. *)
Lemma mount_bestScore st :
  bestScore (mount host st)
  = normalizeScore
      (Fin (if Storage.readable st then
              match Storage.items st !! BEST_SCORE_KEY with
              | None => 0
              | Some raw =>
                  if String.eqb raw "" then 0
                  else match js_Number host raw with Fin q => q | _ => 0 end
              end
            else 0)).
Proof.
  unfold mount, readSessionBest, Storage.getItem.
  destruct (Storage.readable st); [|reflexivity]. cbn [Storage.items].
  destruct (Storage.items st !! BEST_SCORE_KEY) as [raw|]; [|reflexivity].
  destruct (String.eqb raw ""); reflexivity.
Qed.

Lemma step_reads e s :
  Storage.reads (sessionStorage (step host e s))
  = Storage.reads (sessionStorage s).
Proof.
  assert (Hframe : forall f s0,
             Storage.reads (sessionStorage (draw host f s0))
             = Storage.reads (sessionStorage s0)).
  { intros f s0.
    destruct (prologue_keeps f s0) as (_ & _ & _ & _ & _ & _ & Hst & _).
    destruct (draw_outcome host f s0) as [Hout | [_ Hout]].
    - apply outcome_same in Hout as (_ & _ & _ & _ & -> & _). now rewrite Hst.
    - unfold collisionOutcome in Hout. cbn zeta in Hout.
      apply outcome_fields in Hout as (_ & _ & _ & _ & -> & _).
      destruct (Qltb _ _); rewrite ?setItem_reads, Hst; reflexivity. }
  destruct e as [f|now|value|vw vh f|beta gamma|api|granted|]; cbn [step].
  - apply Hframe.
  - rewrite resetGame_shape. reflexivity.
  - unfold setIntroOverlayState, p_random. crunch; reflexivity.
  - resize_frame Hframe f Hd. exact Hd.
  - unfold handleOrientation. crunch; reflexivity.
  - unfold setupGyroSensor. destruct api; reflexivity.
  - unfold permissionAnswered, console_log. destruct granted; crunch; reflexivity.
  - reflexivity.
Qed.

Lemma run_reads es s :
  Storage.reads (sessionStorage (run host es s))
  = Storage.reads (sessionStorage s).
Proof.
  revert s. induction es as [|e es IH]; intros s; cbn [run]; [reflexivity|].
  now rewrite IH, step_reads.
Qed.

Lemma preload_shape l1 l2 l3 l4 l5 s :
  preload l1 l2 l3 l4 l5 s
  = set_obstacleImage (handle l5)
      (set_backgroundTexture (handle l4)
         (set_headImage (handle l1)
            (set_console (console (preload l1 l2 l3 l4 l5 s)) s))).
Proof.
  unfold preload, loadImage, console_log.
  destruct (failed l1), (failed l2), (failed l3), (failed l4), (failed l5);
    sst; by_fields s.
Qed.

Lemma mount_shape st :
  mount host st
  = {| segments := []; headImage := None; backgroundTexture := None;
       obstacleImage := None; gyroX := 0; gyroY := 0; useGyro := false;
       flowOffset := 0; introOverlayActive := true; obstacles := [];
       obstacleSpawnTimer := 0; nextObstacleDelay := 1200; score := 0;
       bestScore := bestScore (mount host st); roundStartTime := 0;
       lastHudScore := -1; gameOver := false; width := 0; height := 0;
       canvas := []; randomCalls := 0; vibrations := 0; isMounted := true;
       hudState := {| HudState.gameOver := false; HudState.score := 0;
                      HudState.bestScore := bestScore (mount host st) |};
       sessionStorage := sessionStorage (mount host st);
       console := console (mount host st) |}.
Proof.
  unfold mount. destruct (readSessionBest host st []) as [[best st'] log].
  reflexivity.
Qed.

Lemma preboot_shape st l1 l2 l3 l4 l5 :
  exists log,
    preload l1 l2 l3 l4 l5 (setIntroOverlayState host true (mount host st))
    = set_obstacleImage (handle l5)
        (set_backgroundTexture (handle l4)
           (set_headImage (handle l1) (set_console log (mount host st)))).
Proof.
  rewrite preload_shape. eexists. unfold setIntroOverlayState.
  rewrite (mount_shape st). sst. reflexivity.
Qed.

Lemma boot_shape st l1 l2 l3 l4 l5 vw vh now :
  exists log,
    boot host st l1 l2 l3 l4 l5 vw vh now
    = resetGame host now
        (set_height vh
           (set_width (if isMobileDevice host then vw else 800)
              (set_obstacleImage (handle l5)
                 (set_backgroundTexture (handle l4)
                    (set_headImage (handle l1)
                       (set_console log (mount host st))))))).
Proof.
  destruct (preboot_shape st l1 l2 l3 l4 l5) as [log E].
  exists log. unfold boot, setup, canvasSize. rewrite E. reflexivity.
Qed.

End Startup.

(** *** The game does not read what a picture holds *)

Lemma game_of_gameplay s1 s2 : gameplay s1 = gameplay s2 -> game s1 = game s2.
Proof.
  destruct s1, s2. unfold gameplay, game. simpl. intros H. injection H.
  intros. subst. reflexivity.
Qed.

Lemma game_gameplay s1 s2 :
  game s1 = game s2 ->
  gameplay (set_obstacleImage (obstacleImage s2) s1) = gameplay s2.
Proof.
  destruct s1, s2. unfold gameplay, game. simpl. intros H. injection H.
  intros. subst. reflexivity.
Qed.

Lemma game_dress s1 s2 :
  game s1 = game s2 ->
  s2 = set_obstacleImage (obstacleImage s2)
         (dress (headImage s2) (backgroundTexture s2) (canvas s2)
                (sessionStorage s2) (console s2) s1).
Proof.
  destruct s1, s2. unfold game. simpl. intros H. injection H. intros.
  subst. reflexivity.
Qed.

Lemma game_picture i s : game (set_obstacleImage i s) = game s.
Proof. reflexivity. Qed.

Lemma game_recentred v d1 d2 :
  game d1 = game d2 -> game (set_segments v d1) = game (set_segments v d2).
Proof.
  destruct d1, d2. unfold game. simpl. intros H. injection H. intros.
  subst. reflexivity.
Qed.

Lemma game_parts s1 s2 t1 t2 :
  game s1 = game s2 ->
  untouched t1 = untouched s1 -> untouched t2 = untouched s2 ->
  obstacles t1 = obstacles t2 ->
  gameOver t1 = gameOver t2 -> vibrations t1 = vibrations t2 ->
  score t1 = score t2 -> bestScore t1 = bestScore t2 ->
  hudState t1 = hudState t2 ->
  game t1 = game t2.
Proof.
  destruct s1, s2, t1, t2. unfold game, untouched. simpl.
  intros H H1 H2 -> -> -> -> -> ->.
  injection H. injection H1. injection H2. intros. subst. reflexivity.
Qed.

Lemma game_fields s1 s2 :
  game s1 = game s2 ->
  obstacles s1 = obstacles s2 /\ gameOver s1 = gameOver s2 /\
  vibrations s1 = vibrations s2 /\ score s1 = score s2 /\
  bestScore s1 = bestScore s2 /\ hudState s1 = hudState s2 /\
  isMounted s1 = isMounted s2.
Proof.
  unfold game. intros H. injection H. intros. auto 20.
Qed.

Ltac undress_game H :=
  apply game_dress in H; rewrite H; clear H; unfold dress.

Section Pictures.
Context (host : Host).

(** No event changes a picture. *)
Lemma step_pictures e s :
  headImage (step host e s) = headImage s /\
  backgroundTexture (step host e s) = backgroundTexture s /\
  obstacleImage (step host e s) = obstacleImage s.
Proof.
  assert (Hframe : forall f s0,
             headImage (draw host f s0) = headImage s0 /\
             backgroundTexture (draw host f s0) = backgroundTexture s0 /\
             obstacleImage (draw host f s0) = obstacleImage s0).
  { intros f s0. pose proof (draw_fixed host f s0) as Hfix.
    unfold fixed in Hfix. injection Hfix as -> -> -> _ _ _ _ _ _ _ _. auto. }
  destruct e as [f|now|value|vw vh f|beta gamma|api|granted|]; cbn [step].
  - apply Hframe.
  - rewrite resetGame_shape. sst. auto.
  - unfold setIntroOverlayState, p_random. destruct value; sst; auto.
  - resize_frame Hframe f Hd. exact Hd.
  - unfold handleOrientation. sst. auto.
  - unfold setupGyroSensor. destruct api; sst; auto.
  - unfold permissionAnswered, console_log. destruct granted; sst; auto.
  - unfold unmount. sst. auto.
Qed.

Lemma run_pictures es s :
  headImage (run host es s) = headImage s /\
  backgroundTexture (run host es s) = backgroundTexture s /\
  obstacleImage (run host es s) = obstacleImage s.
Proof.
  revert s. induction es as [|e es IH]; intros s; cbn [run]; [auto|].
  destruct (IH (step host e s)) as (-> & -> & ->). apply step_pictures.
Qed.

Lemma prologue_picture f i s :
  prologue f (set_obstacleImage i s) = set_obstacleImage i (prologue f s).
Proof.
  unfold prologue, updateScore, drawFlowingLines, drawScreenTexture, updateHud.
  crunch; by_fields s.
Qed.

Lemma spawnTick_picture dt s a b :
  obstacleImage s = Some a ->
  spawnTick host dt (set_obstacleImage (Some b) s)
  = set_obstacleImage (Some b) (spawnTick host dt s).
Proof.
  intros Hs. unfold spawnTick, spawnObstacle, p_random. sst. rewrite Hs.
  crunch; destruct s; simpl in Hs; subst; reflexivity.
Qed.

Lemma obstacleLoop_game img1 img2 head s1 s2 :
  game s1 = game s2 ->
  game (obstacleLoop host img1 head (length (obstacles s1)) s1)
  = game (obstacleLoop host img2 head (length (obstacles s2)) s2).
Proof.
  intros H.
  destruct (game_fields s1 s2 H) as (Hobs & Hg & Hv & Hs & Hb & Hhud & Hm).
  destruct (gameOver s2) eqn:Hg2.
  - destruct (obstacleLoop_over host img1 head (obstacles s1) [] s1)
      as (A1 & A2 & A3); [now rewrite app_nil_r | exact Hg |].
    destruct (obstacleLoop_over host img2 head (obstacles s2) [] s2)
      as (B1 & B2 & B3); [now rewrite app_nil_r | exact Hg2 |].
    apply outcome_same in A2 as (A21 & A22 & A23 & A24 & _ & _ & A27).
    apply outcome_same in B2 as (B21 & B22 & B23 & B24 & _ & _ & B27).
    apply (game_parts s1 s2); try assumption; congruence.
  - destruct (last_hit_split head (obstacles s2))
      as [Hall | (pre & o & post & Hsplit & Hhit & Hpost)].
    + destruct (obstacleLoop_no_hit host img2 head s2 Hg2 Hall)
        as (B1 & B2 & B3).
      rewrite <- Hobs in Hall.
      destruct (obstacleLoop_no_hit host img1 head s1 Hg Hall)
        as (A1 & A2 & A3).
      assert (Hh : height s1 = height s2)
        by (unfold game in H; injection H; intros; assumption).
      apply outcome_same in A2 as (A21 & A22 & A23 & A24 & _ & _ & A27).
      apply outcome_same in B2 as (B21 & B22 & B23 & B24 & _ & _ & B27).
      apply (game_parts s1 s2); try assumption; congruence.
    + destruct (obstacleLoop_first_hit host img2 head s2 pre o post Hg2
                  Hsplit Hhit Hpost) as (B1 & B2 & B3).
      rewrite <- Hobs in Hsplit.
      destruct (obstacleLoop_first_hit host img1 head s1 pre o post Hg
                  Hsplit Hhit Hpost) as (A1 & A2 & A3).
      assert (Hh : height s1 = height s2)
        by (unfold game in H; injection H; intros; assumption).
      unfold collisionOutcome in A2, B2. cbn zeta in A2, B2.
      apply outcome_fields in A2 as (A21 & A22 & A23 & A24 & _ & _ & A27).
      apply outcome_fields in B2 as (B21 & B22 & B23 & B24 & _ & _ & B27).
      rewrite Hv in A22. rewrite Hs in A23. rewrite Hs, Hb in A24.
      rewrite Hs, Hb, Hm, Hhud in A27.
      apply (game_parts s1 s2); try assumption; congruence.
Qed.

Lemma epilogue_game f s1 s2 :
  game s1 = game s2 -> game (epilogue f s1) = game (epilogue f s2).
Proof.
  intros H.
  assert (Hf : forall t, game (epilogue f t)
                         = game (set_segments (segments (epilogue f t)) t)).
  { intros t. destruct (epilogue_shape f t) as (c & ->). reflexivity. }
  rewrite (Hf s1), (Hf s2).
  destruct (epilogue_keeps f s1) as (_ & _ & _ & _ & _ & _ & _ & ->).
  destruct (epilogue_keeps f s2) as (_ & _ & _ & _ & _ & _ & _ & ->).
  undress_game H. unfold target. sst. reflexivity.
Qed.

(** A frame plays the same whatever the obstacle picture holds. *)
Lemma draw_picture f s a b :
  obstacleImage s = Some a ->
  game (draw host f (set_obstacleImage (Some b) s)) = game (draw host f s).
Proof.
  intros Hs. rewrite !draw_stages, prologue_picture.
  assert (Hx : obstacleImage (prologue f s) = Some a).
  { destruct (prologue_keeps f s) as (Hfix & _). unfold fixed in Hfix.
    injection Hfix as _ _ -> _ _ _ _ _ _ _ _. exact Hs. }
  revert Hx. generalize (prologue f s). intros x Hx.
  apply epilogue_game. unfold updateObstacles. sst. rewrite Hx.
  destruct (introOverlayActive x); [apply game_picture|].
  rewrite (spawnTick_picture (Frame.deltaTime f) x a b Hx).
  generalize (spawnTick host (Frame.deltaTime f) x). intros y. sst.
  apply (obstacleLoop_game b a (segments y !! 0%nat)
                           (set_obstacleImage (Some b) y) y).
  apply game_picture.
Qed.

Lemma step_picture e s a b :
  obstacleImage s = Some a ->
  game (step host e (set_obstacleImage (Some b) s)) = game (step host e s).
Proof.
  intros Hs.
  destruct e as [f|now|value|vw vh f|beta gamma|api|granted|]; cbn [step].
  - apply (draw_picture f s a b Hs).
  - rewrite !resetGame_shape. sst. reflexivity.
  - unfold setIntroOverlayState, p_random. destruct value; reflexivity.
  - rewrite !windowResized_shape.
    set (w := if isMobileDevice host then vw else 800).
    pose proof (draw_picture f (set_height vh (set_width w s)) a b Hs) as Hd.
    apply (game_recentred (homeChain w vh)) in Hd. exact Hd.
  - reflexivity.
  - unfold setupGyroSensor. destruct api; reflexivity.
  - unfold permissionAnswered, console_log. destruct granted; reflexivity.
  - reflexivity.
Qed.

Lemma step_game e s1 s2 :
  game s1 = game s2 ->
  obstacleImage s1 <> None -> obstacleImage s2 <> None ->
  game (step host e s1) = game (step host e s2).
Proof.
  intros H H1 H2.
  destruct (obstacleImage s1) as [a|] eqn:Ha; [|contradiction].
  destruct (obstacleImage s2) as [b|] eqn:Hb; [|contradiction].
  pose proof (game_gameplay s1 s2 H) as Hgp. rewrite Hb in Hgp.
  apply (step_gameplay host e), game_of_gameplay in Hgp.
  rewrite <- Hgp. symmetry. apply (step_picture e s1 a b Ha).
Qed.

Lemma run_game es s1 s2 :
  game s1 = game s2 ->
  obstacleImage s1 <> None -> obstacleImage s2 <> None ->
  game (run host es s1) = game (run host es s2).
Proof.
  revert s1 s2. induction es as [|e es IH]; intros s1 s2 H H1 H2;
    cbn [run]; [exact H|].
  apply IH; [apply step_game; assumption | |];
    destruct (step_pictures e s1) as (_ & _ & E1);
    destruct (step_pictures e s2) as (_ & _ & E2); congruence.
Qed.

(** The messages of the startup. *)
Lemma boot_console st l1 l2 l3 l4 l5 vw vh now :
  console (boot host st l1 l2 l3 l4 l5 vw vh now)
  = console (preload l1 l2 l3 l4 l5
                     (setIntroOverlayState host true (mount host st))).
Proof.
  unfold boot, setup, canvasSize. rewrite resetGame_shape. reflexivity.
Qed.

End Pictures.

(** Drawing an empty picture shows nothing. *)
Lemma painted_nothing_blank (s : state) :
  (visible (headImage s) = false ->
   Forall (fun op => visual op <> HeadPicture) (painted s)) /\
  (visible (backgroundTexture s) = false ->
   Forall (fun op => visual op <> Texture) (painted s)) /\
  (visible (obstacleImage s) = false ->
   Forall (fun op => visual op <> ObstaclePicture) (painted s)).
Proof.
  unfold painted. repeat split; intros Hv; apply Forall_forall; intros op Hop;
    apply list_elem_of_In, filter_In in Hop as [_ Hshow];
    destruct op; cbn [shows visual] in *; congruence.
Qed.

(** * The claims *)

Section Claims.
Context (host : Host).

(** C1.  In the frame that detects a collision the score is frozen at its
    rounded value and the best score becomes the larger of the previous
    best and that value: a greater rounded score replaces the best score
    and is written to the session store (where it can be read back when
    the store accepts writes), otherwise best score and store are left
    alone; afterwards the best score is at least the score. *)
Theorem best_score_at_game_over (f : Frame.t) (s : state) :
  gameOver s = false -> gameOver (draw host f s) = true ->
  let rounded := normalizeScore (Fin (elapsedSeconds f s)) in
  let s' := draw host f s in
  score s' = rounded /\
  bestScore s' == Qmax (bestScore s) rounded /\
  (bestScore s < rounded ->
   bestScore s' = rounded /\
   sessionStorage s'
   = (Storage.setItem BEST_SCORE_KEY (js_toString host rounded)
                      (sessionStorage s)).2 /\
   (Storage.writable (sessionStorage s) = true ->
    Storage.items (sessionStorage s') !! BEST_SCORE_KEY
    = Some (js_toString host rounded))) /\
  (rounded <= bestScore s ->
   bestScore s' = bestScore s /\ sessionStorage s' = sessionStorage s) /\
  score s' <= bestScore s'.
Proof.
  intros Hg Hover. cbn zeta.
  destruct (prologue_keeps f s)
    as (_ & _ & _ & Hg0 & _ & Hbest & Hstore & _ & Hscore).
  rewrite Hg in Hscore.
  destruct (draw_outcome host f s) as [Hout | [_ Hout]].
  { exfalso. apply outcome_same in Hout as (Hout & _). congruence. }
  unfold collisionOutcome in Hout. cbn zeta in Hout.
  apply outcome_fields in Hout as (_ & _ & Hs & Hb & Hst & _ & _).
  rewrite Hscore in Hs. rewrite Hscore, Hbest in Hb.
  rewrite Hscore, Hbest, Hstore in Hst.
  set (rounded := normalizeScore (Fin (elapsedSeconds f s))) in *.
  rewrite Hs, Hb, Hst.
  destruct (Qltb (bestScore s) rounded) eqn:Hlt.
  - apply Qltb_lt in Hlt. repeat split.
    + symmetry. apply Q.max_r. now apply Qlt_le_weak.
    + unfold Storage.setItem. intros ->. cbn. apply lookup_insert_eq.
    + exfalso. eapply Qlt_not_le; eassumption.
    + exfalso. eapply Qlt_not_le; eassumption.
    + apply Qle_refl.
  - apply Qltb_ge in Hlt. repeat split.
    + symmetry. now apply Q.max_l.
    + exfalso. eapply Qlt_not_le; eassumption.
    + exfalso. eapply Qlt_not_le; eassumption.
    + exfalso. eapply Qlt_not_le; eassumption.
    + exact Hlt.
Qed.

(** C10.  [resetGame] leaves the best score and the session store as they
    are, and gives the score, the spawn timer and its delay, the obstacles,
    the game-over flag and the segments their initial values. *)
Theorem resetGame_keeps_best_score (now : Q) (s : state) :
  let s' := resetGame host now s in
  bestScore s' = bestScore s /\ sessionStorage s' = sessionStorage s /\
  score s' = 0 /\ obstacleSpawnTimer s' = 0 /\
  nextObstacleDelay s' = scaled (Math_random host (randomCalls s)) 900 1600 /\
  obstacles s' = [] /\ gameOver s' = false /\
  segments s' = homeChain (width s) (height s) /\
  roundStartTime s' = now /\ lastHudScore s' = -1.
Proof.
  cbn zeta. rewrite resetGame_shape. sst. repeat split; reflexivity.
Qed.

(** C7.  From a game-over state, pressing retry any number of times ends
    in a playing state with score 0, no obstacles, the spawn timer at 0
    with a delay freshly drawn from 900 to 1600, and the five segments at
    the centre of the canvas; up to that delay (and the count of random
    numbers drawn) it is the state a single retry gives. *)
Theorem retry_gives_fresh_round (s : state) (nows : list Q) (now : Q) :
  phase s = GameOver ->
  (forall n, 0 <= Math_random host n /\ Math_random host n < 1) ->
  let s' := handleRetryClick host now (retryAll host nows s) in
  phase s' = Playing /\ score s' = 0 /\ obstacles s' = [] /\
  obstacleSpawnTimer s' = 0 /\
  nextObstacleDelay s'
  = scaled (Math_random host (randomCalls s + length nows)) 900 1600 /\
  900 <= nextObstacleDelay s' /\ nextObstacleDelay s' < 1600 /\
  length (segments s') = 5%nat /\
  Forall (fun seg => Segment.x seg = width s / 2 /\
                     Segment.y seg = height s / 2) (segments s') /\
  sameRound s' (handleRetryClick host now s).
Proof.
  intros Hphase Hrand. cbn zeta.
  split; [|split; [|split; [|split; [|split; [|split; [|split; [|split;
    [|split; [|apply retryAll_sameRound]]]]]]]]].
  all: destruct (retryAll_keeps host nows s) as (Hw & Hh & Hi).
  all: pose proof (retryAll_randomCalls host nows s) as Hr.
  all: unfold handleRetryClick; rewrite resetGame_shape; unfold phase; sst.
  all: rewrite ?Hw, ?Hh, ?Hi, ?Hr.
  all: destruct (Hrand (randomCalls s + length nows)%nat) as [H0 H1].
  all: destruct (scaled_range _ 900 1600 H0 H1) as [Hlo Hhi]; [reflexivity|].
  all: destruct (homeChain_segments (width s) (height s)) as [Hlen Hall].
  all: try assumption; try reflexivity.
  unfold phase in Hphase.
  destruct (introOverlayActive s); [discriminate Hphase | reflexivity].
Qed.

(** C3, as the code has it.  In a frame that leaves the round running,
    segment 0 eases toward the target by its ease factor, and every later
    segment eases toward the position its predecessor has after the
    predecessor's own update in this frame; the number of segments does not
    change.  A frame that ends the round leaves the chain alone. *)
Theorem chain_follows_updated_predecessor (f : Frame.t) (s : state) :
  let old := segments s in
  let new := segments (draw host f s) in
  (gameOver (draw host f s) = false ->
   length new = length old /\
   (forall first, old !! 0%nat = Some first ->
      new !! 0%nat
      = Some (easeToward first (target f s).1 (target f s).2)) /\
   (forall i prev curr,
      (1 <= i)%nat -> new !! (i - 1)%nat = Some prev ->
      old !! i = Some curr ->
      new !! i = Some (easeToward curr (Segment.x prev) (Segment.y prev)))) /\
  (gameOver (draw host f s) = true -> new = old).
Proof.
  cbn zeta. rewrite draw_segments. split; intros ->; [|reflexivity].
  apply followTarget_spec.
Qed.

(** C2.  In a round (no reset among the events) with a clock that does not
    run backwards: while the round is running the score is the time since
    the round started, in seconds, the value reported to the HUD is that
    time rounded to one decimal, and the score of a later frame is at least
    the score of an earlier one; the frame that ends the round leaves the
    rounded time as the score, and no later event of the round changes
    it. *)
Theorem score_follows_clock (s : state) (f1 f2 : Frame.t) (es : list event) :
  gameOver s = false -> Forall (fun e => isReset e = false) es ->
  roundStartTime s <= Frame.millis f1 -> Frame.millis f1 <= Frame.millis f2 ->
  let s1 := draw host f1 s in
  let s2 := draw host f2 (run host es s1) in
  let elapsed1 := (Frame.millis f1 - roundStartTime s) / 1000 in
  let elapsed2 := (Frame.millis f2 - roundStartTime s) / 1000 in
  lastHudScore s1 == normalizeScore (Fin elapsed1) /\
  (isMounted s = true ->
   HudState.score (hudState s) == lastHudScore s \/ lastHudScore s < 0 ->
   HudState.score (hudState s1) == normalizeScore (Fin elapsed1)) /\
  (gameOver s1 = false ->
   score s1 = elapsed1 /\
   (gameOver s2 = false -> score s2 = elapsed2 /\ score s1 <= score s2)) /\
  (gameOver s1 = true ->
   score s1 = normalizeScore (Fin elapsed1) /\
   score (run host es s1) = score s1 /\ score s2 = score s1 /\
   gameOver s2 = true).
Proof.
  intros Hg Hes Ht1 Ht2. cbn zeta.
  destruct (prologue_report f1 s Hg) as [Hlast Hhud].
  destruct (prologue_keeps f1 s) as (Hfix & _ & _ & Hg0 & _ & _ & _ & _ & Hsc).
  rewrite Hg in Hsc. rewrite (elapsedSeconds_after f1 s Ht1) in Hlast, Hhud, Hsc.
  set (elapsed1 := (Frame.millis f1 - roundStartTime s) / 1000) in *.
  assert (Hrst1 : roundStartTime (draw host f1 s) = roundStartTime s).
  { pose proof (draw_fixed host f1 s) as H. unfold fixed in H.
    injection H as _ _ _ _ _ _ _ -> _ _ _. reflexivity. }
  destruct (run_same_round host es (draw host f1 s) Hes) as [Hrst Hfrozen].
  split; [rewrite draw_lastHudScore; exact Hlast|]. split; [|split].
  - intros Hm Hinv. specialize (Hhud Hm Hinv).
    destruct (gameOver (draw host f1 s)) eqn:Hg1.
    + pose proof (draw_hit host f1 s Hg Hg1) as Hout.
      unfold collisionOutcome in Hout. cbn zeta in Hout.
      apply outcome_fields in Hout as (_ & _ & _ & _ & _ & _ & ->).
      assert (Hm' : isMounted (prologue f1 s) = true).
      { unfold fixed in Hfix. injection Hfix as _ _ _ _ _ _ _ _ _ _ ->.
        exact Hm. }
      rewrite Hm', Hsc. cbn [HudState.score]. reflexivity.
    + pose proof (draw_miss host f1 s Hg1) as Hout.
      apply outcome_same in Hout as (_ & _ & _ & _ & _ & _ & ->). exact Hhud.
  - intros Hg1. pose proof (draw_miss host f1 s Hg1) as Hout.
    apply outcome_same in Hout as (_ & _ & Hs1 & _).
    rewrite Hs1, Hsc. split; [reflexivity|]. intros Hg2.
    assert (Hgr : gameOver (run host es (draw host f1 s)) = false).
    { destruct (gameOver (run host es (draw host f1 s))) eqn:Hgr;
        [|reflexivity].
      destruct (draw_over host f2 _ Hgr) as (Hout & _).
      apply outcome_same in Hout as (Hout & _). congruence. }
    pose proof (draw_miss host f2 _ Hg2) as Hout.
    apply outcome_same in Hout as (_ & _ & Hs2 & _).
    destruct (prologue_keeps f2 (run host es (draw host f1 s)))
      as (_ & _ & _ & _ & _ & _ & _ & _ & Hsc2).
    rewrite Hgr in Hsc2. rewrite Hs2, Hsc2.
    rewrite elapsedSeconds_after by (rewrite Hrst, Hrst1; lra).
    rewrite Hrst, Hrst1. split; [reflexivity|].
    unfold elapsed1. apply Qmult_le_compat_r; [lra | discriminate].
  - intros Hg1. pose proof (draw_hit host f1 s Hg Hg1) as Hout.
    unfold collisionOutcome in Hout. cbn zeta in Hout.
    apply outcome_fields in Hout as (_ & _ & Hs1 & _).
    rewrite Hsc in Hs1. destruct (Hfrozen Hg1) as [Hgr Hsr].
    destruct (draw_over host f2 _ Hgr) as (Hout & _).
    apply outcome_same in Hout as (Hg2 & _ & Hs2 & _).
    split; [exact Hs1|]. split; [exact Hsr|]. split; congruence.
Qed.

(** C4.  While the round runs, the head exists and the obstacle picture
    is loaded, a frame raises the game-over flag exactly when one of the
    obstacles it visits, once moved, lies within 80 + size * 0.45 of the
    head in Euclidean distance.  The loop goes from the last obstacle to
    the first, and at the first one hit the collision branch runs, once:
    the obstacles before it in the array are neither moved nor tested.
    During the intro, or without the picture, no frame raises the flag, and
    there is no obstacle to test.  No run without a reset raises the flag
    more than once. *)
Theorem collision_ends_round_once
        (f : Frame.t) (s : state) (hd : Segment.t) (es : list event) :
  gameOver s = false -> segments s !! 0%nat = Some hd ->
  Forall (fun e => isReset e = false) es ->
  (forall o,
      hits hd o = true <->
      (sqrt ((Q2R (Obstacle.x o) - Q2R (Segment.x hd))
             * (Q2R (Obstacle.x o) - Q2R (Segment.x hd))
             + (Q2R (Obstacle.y o) - Q2R (Segment.y hd))
               * (Q2R (Obstacle.y o) - Q2R (Segment.y hd)))
       < 80 + Q2R (Obstacle.size o) * (45 / 100))%R) /\
  (phase s = Playing -> obstacleImage s <> None ->
   (gameOver (draw host f s) = true <->
    Exists (fun o => hits hd (fall o) = true) (visited host f s)) /\
   (forall pre o post,
       visited host f s = pre ++ o :: post -> hits hd (fall o) = true ->
       Forall (fun p => hits hd (fall p) = false) post ->
       obstacles (draw host f s)
       = pre ++ fall o
             :: List.filter (onScreen (height s)) (List.map fall post) /\
       outcome (draw host f s) = collisionOutcome host (prologue f s))) /\
  (phase s = Intro \/ obstacleImage s = None ->
   gameOver (draw host f s) = false /\ (fieldInv s -> obstacles s = [])) /\
  (transitions host es s <= 1)%nat.
Proof.
  intros Hg Hhd Hes.
  split; [intros o; apply hits_distance|].
  split; [|split; [|apply transitions_at_most_one; exact Hes]].
  - intros Hphase Himg.
    assert (Hintro : introOverlayActive s = false).
    { unfold phase in Hphase.
      destruct (introOverlayActive s); [discriminate Hphase | reflexivity]. }
    destruct (obstacleImage s) as [img|] eqn:Hi; [clear Himg | now elim Himg].
    split.
    + rewrite (draw_game_over_iff host f s img Hi Hintro Hg), Hhd.
      reflexivity.
    + intros pre o post Hsplit Hhit Hpost.
      apply (draw_first_hit host f s img pre o post Hi Hintro Hg Hsplit);
        rewrite Hhd; assumption.
  - intros Hguard.
    assert (Hguard' : introOverlayActive s = true \/ obstacleImage s = None).
    { destruct Hguard as [Hphase | Himg]; [left | right; exact Himg].
      unfold phase in Hphase. destruct (introOverlayActive s);
        [reflexivity|]. destruct (gameOver s); discriminate Hphase. }
    split; [|intros Hinv; apply Hinv; exact Hguard'].
    destruct (draw_guarded host f s Hguard') as (Hout & _).
    apply outcome_same in Hout as (-> & _).
    destruct (prologue_keeps f s) as (_ & _ & _ & -> & _). exact Hg.
Qed.

(** C5, as the code has it.  A frame of a finished round removes nothing.
    In a frame of a running round, an obstacle the loop visits while the
    round is still running is removed exactly when, after its move, its top
    edge [y - size / 2] is more than 50 below the bottom of the canvas; the
    obstacle that is hit and those before it in the array stay. *)
Theorem obstacles_leave_by_top_edge (f : Frame.t) (s : state) :
  (forall o, onScreen (height s) o = false <->
             height s + 50 < Obstacle.y o - Obstacle.size o / 2) /\
  (gameOver s = true -> obstacles (draw host f s) = obstacles s) /\
  (phase s = Playing -> obstacleImage s <> None ->
   (gameOver (draw host f s) = false ->
    obstacles (draw host f s)
    = List.filter (onScreen (height s)) (List.map fall (visited host f s))) /\
   (forall pre o post,
       visited host f s = pre ++ o :: post ->
       struck (segments s !! 0%nat) (fall o) = true ->
       Forall (fun p => struck (segments s !! 0%nat) (fall p) = false) post ->
       obstacles (draw host f s)
       = pre ++ fall o
             :: List.filter (onScreen (height s)) (List.map fall post))).
Proof.
  split; [|split].
  - intros o. unfold onScreen. rewrite negb_false_iff. apply pastViewport_top.
  - intros Hg. apply (draw_over host f s Hg).
  - intros Hphase Himg.
    assert (Hflags : introOverlayActive s = false /\ gameOver s = false).
    { unfold phase in Hphase. destruct (introOverlayActive s);
        [discriminate Hphase|]. destruct (gameOver s);
        [discriminate Hphase | auto]. }
    destruct Hflags as [Hintro Hg].
    destruct (obstacleImage s) as [img|] eqn:Hi; [clear Himg | now elim Himg].
    split.
    + intros Hrun.
      destruct (last_hit_split (segments s !! 0%nat) (visited host f s))
        as [Hall | (pre & o & post & Hsplit & Hhit & Hpost)].
      * apply (draw_no_hit host f s img Hi Hintro Hg Hall).
      * exfalso.
        destruct (draw_first_hit host f s img pre o post Hi Hintro Hg Hsplit
                    Hhit Hpost) as (_ & Hout).
        unfold collisionOutcome in Hout. cbn zeta in Hout.
        apply outcome_fields in Hout as (Hout & _).
        rewrite Hrun in Hout. discriminate Hout.
    + intros pre o post Hsplit Hhit Hpost.
      apply (draw_first_hit host f s img pre o post Hi Hintro Hg Hsplit Hhit
               Hpost).
Qed.

(** C6.  From startup on, whatever happens, the obstacle collection is
    empty whenever the intro overlay is up; raising the overlay empties
    it, and a frame drawn under the overlay neither spawns nor moves
    anything: obstacles, spawn timer, delay and random numbers drawn stay
    as they are. *)
Theorem intro_has_no_obstacles
        (st : Storage.t) (head pattern year texture obstacle : Load)
        (viewportWidth viewportHeight now : Q) (es : list event)
        (s : state) (f : Frame.t) :
  let s0 := boot host st head pattern year texture obstacle
                 viewportWidth viewportHeight now in
  (phase (run host es s0) = Intro -> obstacles (run host es s0) = []) /\
  (obstacles (setIntroOverlayState host true s) = [] /\
   phase (setIntroOverlayState host true s) = Intro) /\
  (phase s = Intro ->
   phase (draw host f s) = Intro /\
   obstacles (draw host f s) = obstacles s /\
   obstacleSpawnTimer (draw host f s) = obstacleSpawnTimer s /\
   nextObstacleDelay (draw host f s) = nextObstacleDelay s /\
   randomCalls (draw host f s) = randomCalls s).
Proof.
  cbn zeta.
  assert (Hphase : forall t, phase t = Intro -> introOverlayActive t = true).
  { intros t Ht. unfold phase in Ht. destruct (introOverlayActive t);
      [reflexivity|]. destruct (gameOver t); discriminate Ht. }
  split; [|split].
  - intros Hi. apply (run_fieldInv host es); [apply boot_fieldInv|].
    left. apply Hphase, Hi.
  - unfold setIntroOverlayState, phase. sst. auto.
  - intros Hi. apply Hphase in Hi.
    destruct (draw_guarded host f s (or_introl Hi)) as (_ & Hrest).
    split; [|exact Hrest].
    pose proof (draw_fixed host f s) as Hfix. unfold fixed in Hfix.
    unfold phase. injection Hfix as _ _ _ _ _ _ -> _ _ _ _.
    rewrite Hi. reflexivity.
Qed.

(** C8.  A failed load is logged, and only drawing degrades.
    [p.loadImage] hands back an image object at once, so no picture
    variable is [null] once [preload] has run; after a failed load it
    holds the empty placeholder, and drawing that shows nothing: the
    missing picture is not on the canvas.  The game goes on unaffected:
    after any events from startup every variable of the game (obstacles
    spawned and moved, spawn timer, collision and game over, score, chain,
    HUD) is what it is in a session where other loads failed or none
    did. *)
Theorem failed_load_only_degrades_drawing
        (st : Storage.t) (head pattern year texture obstacle : Load)
        (head' pattern' year' texture' obstacle' : Load)
        (viewportWidth viewportHeight now : Q) (es : list event) :
  let s0 := boot host st head pattern year texture obstacle
                 viewportWidth viewportHeight now in
  let other := boot host st head' pattern' year' texture' obstacle'
                    viewportWidth viewportHeight now in
  ((failed head = true ->
    In "Failed to load /head.png"%string (console s0)) /\
   (failed pattern = true ->
    In "Failed to load /pattern.png"%string (console s0)) /\
   (failed year = true ->
    In "Failed to load /2025.png"%string (console s0)) /\
   (failed texture = true ->
    In "Failed to load /noita-digital-zcx5ztIjQAM-unsplash.png"%string
       (console s0)) /\
   (failed obstacle = true ->
    In "Failed to load /2026.png"%string (console s0))) /\
  (headImage (run host es s0) = handle head /\
   backgroundTexture (run host es s0) = handle texture /\
   obstacleImage (run host es s0) = handle obstacle /\
   (forall l, handle l <> None) /\
   (forall l, failed l = true -> handle l = Some Image.placeholder)) /\
  ((failed head = true ->
    Forall (fun op => visual op <> HeadPicture) (painted (run host es s0))) /\
   (failed texture = true ->
    Forall (fun op => visual op <> Texture) (painted (run host es s0))) /\
   (failed obstacle = true ->
    Forall (fun op => visual op <> ObstaclePicture)
           (painted (run host es s0)))) /\
  game (run host es s0) = game (run host es other).
Proof.
  cbn zeta.
  assert (Hpics : forall l1 l2 l3 l4 l5,
             headImage (boot host st l1 l2 l3 l4 l5 viewportWidth
                             viewportHeight now) = handle l1 /\
             backgroundTexture (boot host st l1 l2 l3 l4 l5 viewportWidth
                                     viewportHeight now) = handle l4 /\
             obstacleImage (boot host st l1 l2 l3 l4 l5 viewportWidth
                                 viewportHeight now) = handle l5).
  { intros l1 l2 l3 l4 l5.
    destruct (boot_shape host st l1 l2 l3 l4 l5 viewportWidth viewportHeight
                         now) as [log ->].
    rewrite resetGame_shape. sst. auto. }
  assert (Hsome : forall l, handle l <> None)
    by (intros l; unfold handle; discriminate).
  assert (Hblank : forall l, failed l = true ->
                             handle l = Some Image.placeholder)
    by (intros l Hl; unfold handle; rewrite Hl; reflexivity).
  destruct (Hpics head pattern year texture obstacle) as (Hh & Ht & Ho).
  destruct (Hpics head' pattern' year' texture' obstacle')
    as (_ & _ & Ho').
  destruct (run_pictures host es
              (boot host st head pattern year texture obstacle viewportWidth
                    viewportHeight now)) as (Rh & Rt & Ro).
  split; [|split; [|split]].
  - rewrite boot_console, preload_console.
    repeat split; intros ->; rewrite !in_app_iff; cbn [In]; tauto.
  - rewrite Rh, Rt, Ro, Hh, Ht, Ho. auto.
  - destruct (painted_nothing_blank
                (run host es
                     (boot host st head pattern year texture obstacle
                           viewportWidth viewportHeight now)))
      as (Ph & Pt & Po).
    rewrite Rh, Hh in Ph. rewrite Rt, Ht in Pt. rewrite Ro, Ho in Po.
    repeat split; intros Hf; [apply Ph | apply Pt | apply Po];
      rewrite (Hblank _ Hf); reflexivity.
  - apply run_game; [|rewrite Ho; apply Hsome | rewrite Ho'; apply Hsome].
    destruct (boot_shape host st head pattern year texture obstacle
                         viewportWidth viewportHeight now) as [log ->].
    destruct (boot_shape host st head' pattern' year' texture' obstacle'
                         viewportWidth viewportHeight now) as [log' ->].
    rewrite !resetGame_shape. reflexivity.
Qed.

(** C9.  The stored best score is read once, when the component mounts,
    and never again.  The sketch starts with best score 0 when the read
    throws, when the key is absent or empty, and when the stored text is
    not a finite number; with the stored number, rounded, otherwise.  When
    the write of a new best throws, the new best stays in memory, the
    store keeps what it had and a warning is logged; whatever the store
    holds or does, the game runs the same. *)
Theorem best_score_store
        (st : Storage.t) (head pattern year texture obstacle : Load)
        (viewportWidth viewportHeight now : Q) (es : list event)
        (s : state) (f : Frame.t) (st' : Storage.t) :
  let s0 := boot host st head pattern year texture obstacle
                 viewportWidth viewportHeight now in
  Storage.calls (sessionStorage s0)
  = Storage.calls st ++ [Storage.GetItem BEST_SCORE_KEY] /\
  Storage.reads (sessionStorage (run host es s0)) = S (Storage.reads st) /\
  (Storage.readable st = false \/
   Storage.items st !! BEST_SCORE_KEY = None \/
   Storage.items st !! BEST_SCORE_KEY = Some ""%string \/
   (exists raw, Storage.items st !! BEST_SCORE_KEY = Some raw /\
                Number_isFinite (js_Number host raw) = false) ->
   bestScore s0 == 0) /\
  (forall raw q,
      Storage.readable st = true ->
      Storage.items st !! BEST_SCORE_KEY = Some raw -> raw <> ""%string ->
      js_Number host raw = Fin q -> bestScore s0 = normalizeScore (Fin q)) /\
  (Storage.writable (sessionStorage s) = false -> gameOver s = false ->
   gameOver (draw host f s) = true ->
   bestScore s < normalizeScore (Fin (elapsedSeconds f s)) ->
   bestScore (draw host f s) = normalizeScore (Fin (elapsedSeconds f s)) /\
   Storage.items (sessionStorage (draw host f s))
   = Storage.items (sessionStorage s) /\
   In "Unable to persist session best score"%string
      (console (draw host f s))) /\
  gameplay (run host es (set_sessionStorage st' s)) = gameplay (run host es s).
Proof.
  cbn zeta.
  destruct (boot_keeps host st head pattern year texture obstacle
              viewportWidth viewportHeight now) as [Hb Hs].
  rewrite Hb, run_reads, Hs, mount_bestScore.
  split; [apply mount_storage|]. split; [|split; [|split; [|split]]].
  - unfold Storage.reads. rewrite mount_storage, List.filter_app, length_app.
    cbn. lia.
  - intros [Hr | [Hk | [Hk | (raw & Hk & Hn)]]].
    + rewrite Hr. reflexivity.
    + rewrite Hk. destruct (Storage.readable st); reflexivity.
    + rewrite Hk. destruct (Storage.readable st); reflexivity.
    + rewrite Hk. destruct (Storage.readable st); [|reflexivity].
      destruct (String.eqb raw ""); [reflexivity|].
      destruct (js_Number host raw); [discriminate Hn | | |]; reflexivity.
  - intros raw q Hr Hk Hraw Hq. rewrite Hr, Hk, Hq.
    apply String.eqb_neq in Hraw. rewrite Hraw. reflexivity.
  - intros Hw Hg Hover Hnew.
    destruct (prologue_keeps f s)
      as (_ & _ & _ & _ & _ & Hbest & Hstore & Hcons & Hscore).
    rewrite Hg in Hscore.
    pose proof (draw_hit host f s Hg Hover) as Hout.
    unfold collisionOutcome in Hout. cbn zeta in Hout.
    apply outcome_fields in Hout as (_ & _ & _ & Hb' & Hst & Hc & _).
    rewrite Hscore, Hbest in Hb'. rewrite Hscore, Hbest, Hstore in Hst.
    rewrite Hscore, Hbest, Hstore, Hcons in Hc.
    apply Qltb_lt in Hnew. rewrite Hnew in Hb', Hst, Hc.
    rewrite Hw in Hc. cbn [negb andb] in Hc.
    rewrite Hb', Hst, Hc. unfold Storage.setItem. rewrite Hw.
    split; [reflexivity|]. split; [reflexivity|].
    apply in_app_iff. right. left. reflexivity.
  - apply run_gameplay. reflexivity.
Qed.

End Claims.




Lemma best_score_at_game_over_witness :
  let s' := draw exampleHost (exampleFrame 4446 16) exampleDanger in
  gameOver exampleDanger = false /\ gameOver s' = true /\
  score s' == 3.4 /\ bestScore exampleDanger == 0 /\ bestScore s' == 3.4 /\
  Storage.items (sessionStorage s') !! BEST_SCORE_KEY = Some "3.4"%string.
Proof.
  assert (H1 : gameOver exampleDanger = false) by (vm_compute; reflexivity).
  assert (H2 : gameOver (draw exampleHost (exampleFrame 4446 16) exampleDanger)
               = true) by (vm_compute; reflexivity).
  destruct (best_score_at_game_over exampleHost (exampleFrame 4446 16)
              exampleDanger H1 H2) as (Hs & Hb & Hnew & _ & _).
  destruct Hnew as (Hb' & _ & Hread); [vm_compute; reflexivity|].
  cbn zeta. split; [exact H1|]. split; [exact H2|].
  split; [rewrite Hs; vm_compute; reflexivity|].
  split; [vm_compute; reflexivity|].
  split; [rewrite Hb'; vm_compute; reflexivity|].
  rewrite Hread by reflexivity. vm_compute. reflexivity.
Defined.

Lemma exampleRandom_range (n : nat) :
  0 <= exampleRandom n /\ exampleRandom n < 1.
Proof.
  unfold exampleRandom.
  pose proof (Z.mod_pos_bound (Z.of_nat (n * 37 + 11)) 100 eq_refl) as [Hlo Hhi].
  set (z := (Z.of_nat (n * 37 + 11) mod 100)%Z) in *.
  unfold Qdiv, Qle, Qlt, Qmult, Qinv, inject_Z. cbn. lia.
Qed.

Lemma retry_gives_fresh_round_witness :
  let over := draw exampleHost (exampleFrame 4446 16) exampleDanger in
  let s' := handleRetryClick exampleHost 9000
              (retryAll exampleHost [5000; 7000] over) in
  phase over = GameOver /\ phase s' = Playing /\ score s' = 0 /\
  obstacles s' = [] /\ 900 <= nextObstacleDelay s' /\
  nextObstacleDelay s' < 1600.
Proof.
  assert (H : phase (draw exampleHost (exampleFrame 4446 16) exampleDanger)
              = GameOver) by (vm_compute; reflexivity).
  destruct (retry_gives_fresh_round exampleHost _ [5000; 7000] 9000 H
              exampleRandom_range)
    as (H1 & H2 & H3 & _ & _ & H4 & H5 & _).
  cbn zeta. auto 10.
Defined.

Lemma chain_follows_updated_predecessor_witness :
  let s' := draw exampleHost (exampleFrame 1016 16) examplePlaying in
  gameOver s' = false /\
  exists prev curr new,
    segments s' !! 0%nat = Some prev /\
    segments examplePlaying !! 1%nat = Some curr /\
    segments s' !! 1%nat = Some new /\
    new = easeToward curr (Segment.x prev) (Segment.y prev).
Proof.
  assert (H : gameOver (draw exampleHost (exampleFrame 1016 16) examplePlaying)
              = false) by (vm_compute; reflexivity).
  destruct (chain_follows_updated_predecessor exampleHost
              (exampleFrame 1016 16) examplePlaying) as [Hrun _].
  destruct (Hrun H) as (_ & _ & Hnext). cbn zeta. split; [exact H|].
  destruct (segments (draw exampleHost (exampleFrame 1016 16) examplePlaying)
              !! 0%nat) as [prev|] eqn:Hprev; [|vm_compute in Hprev; discriminate].
  destruct (segments examplePlaying !! 1%nat) as [curr|] eqn:Hcurr;
    [|vm_compute in Hcurr; discriminate].
  exists prev, curr, (easeToward curr (Segment.x prev) (Segment.y prev)).
  split; [reflexivity|]. split; [reflexivity|]. split; [|reflexivity].
  apply (Hnext 1%nat prev curr); [lia | exact Hprev | exact Hcurr].
Defined.

(** C3 as stated fails: after one frame the second segment has moved
    toward the new position of the first, not toward its previous one. *)
Lemma chain_not_toward_previous_position :
  let old := segments examplePlaying in
  let new := segments (draw exampleHost (exampleFrame 1016 16) examplePlaying) in
  exists prev curr moved,
    old !! 0%nat = Some prev /\ old !! 1%nat = Some curr /\
    new !! 1%nat = Some moved /\
    ~ (Segment.x moved
       == Segment.x curr
          + (Segment.x prev - Segment.x curr) * Segment.easeFactor curr).
Proof.
  cbn zeta. eexists _, _, _.
  split; [vm_compute; reflexivity|].
  split; [vm_compute; reflexivity|].
  split; [vm_compute; reflexivity|].
  vm_compute. discriminate.
Qed.

Lemma score_follows_clock_witness :
  let s1 := draw exampleHost (exampleFrame 1016 16) examplePlaying in
  let s2 := draw exampleHost (exampleFrame 4446 16)
                 (run exampleHost
                      [WindowResized 1280 600 (exampleFrame 2000 16)] s1) in
  let over := draw exampleHost (exampleFrame 4446 16) exampleDanger in
  (gameOver s1 = false /\ gameOver s2 = false /\
   score s1 == 0.016 /\ score s2 == 3.446 /\ score s1 <= score s2) /\
  (gameOver over = true /\ score over == 3.4 /\
   score (draw exampleHost (exampleFrame 9999 16)
               (run exampleHost [Orientation None None] over)) = score over).
Proof.
  assert (Hes : forall e, isReset e = false ->
                          Forall (fun e => isReset e = false) [e])
    by (intros e He; repeat constructor; exact He).
  cbn zeta. split.
  - destruct (score_follows_clock exampleHost examplePlaying
                (exampleFrame 1016 16) (exampleFrame 4446 16)
                [WindowResized 1280 600 (exampleFrame 2000 16)])
      as (_ & _ & Hrun & _);
      [vm_compute; reflexivity | apply Hes; reflexivity
      | vm_compute; discriminate | vm_compute; discriminate |].
    destruct Hrun as [Hs1 Hnext]; [vm_compute; reflexivity|].
    destruct Hnext as [Hs2 Hle]; [vm_compute; reflexivity|].
    split; [vm_compute; reflexivity|]. split; [vm_compute; reflexivity|].
    split; [rewrite Hs1; vm_compute; reflexivity|].
    split; [rewrite Hs2; vm_compute; reflexivity | exact Hle].
  - destruct (score_follows_clock exampleHost exampleDanger
                (exampleFrame 4446 16) (exampleFrame 9999 16)
                [Orientation None None])
      as (_ & _ & _ & Hend);
      [vm_compute; reflexivity | apply Hes; reflexivity
      | vm_compute; discriminate | vm_compute; discriminate |].
    destruct Hend as (Hs1 & _ & Hs2 & _); [vm_compute; reflexivity|].
    split; [vm_compute; reflexivity|].
    split; [rewrite Hs1; vm_compute; reflexivity | exact Hs2].
Defined.

Lemma collision_ends_round_once_witness :
  let f := exampleFrame 4446 16 in
  (gameOver exampleDanger = false /\
   segments exampleDanger !! 0%nat = Some exampleHead /\
   phase exampleDanger = Playing /\
   Exists (fun o => hits exampleHead (fall o) = true)
          (visited exampleHost f exampleDanger)) /\
  (transitions exampleHost [Draw f; Draw f; Orientation None None]
               exampleDanger <= 1)%nat.
Proof.
  cbn zeta.
  destruct (collision_ends_round_once exampleHost (exampleFrame 4446 16)
              exampleDanger exampleHead
              [Draw (exampleFrame 4446 16); Draw (exampleFrame 4446 16);
               Orientation None None])
    as (_ & Hplay & _ & Hone);
    [vm_compute; reflexivity | vm_compute; reflexivity
    | repeat constructor |].
  destruct Hplay as [Hiff _];
    [vm_compute; reflexivity | vm_compute; discriminate |].
  split; [|exact Hone].
  split; [vm_compute; reflexivity|]. split; [vm_compute; reflexivity|].
  split; [vm_compute; reflexivity|].
  apply Hiff. vm_compute. reflexivity.
Defined.

Lemma obstacles_leave_by_top_edge_witness :
  let s' := draw exampleHost (exampleFrame 1016 16) exampleLow in
  phase exampleLow = Playing /\ gameOver s' = false /\
  obstacles s'
  = List.filter (onScreen (height exampleLow))
                (List.map fall (visited exampleHost (exampleFrame 1016 16)
                                        exampleLow)) /\
  length (obstacles exampleLow) = 2%nat /\ length (obstacles s') = 1%nat.
Proof.
  cbn zeta.
  destruct (obstacles_leave_by_top_edge exampleHost (exampleFrame 1016 16)
              exampleLow) as (_ & _ & Hplay).
  destruct Hplay as [Hrun _];
    [vm_compute; reflexivity | vm_compute; discriminate |].
  split; [vm_compute; reflexivity|].
  split; [vm_compute; reflexivity|].
  split; [apply Hrun; vm_compute; reflexivity|].
  split; vm_compute; reflexivity.
Defined.

(** C5 as stated fails: in one frame of a running round the small obstacle
    is removed and the large one is kept although the bottom edge of the
    large one is the lower of the two, so no margin under the canvas sorts
    the removed from the kept by their bottom edges. *)
Lemma removal_is_not_by_bottom_edge :
  let s' := draw exampleHost (exampleFrame 1016 16) exampleLow in
  gameOver s' = false /\
  ~ exists margin : Q,
      forall o, In o (obstacles exampleLow) ->
        (In (fall o) (obstacles s') <->
         ~ height exampleLow + margin
           < Obstacle.y (fall o) + Obstacle.size (fall o) / 2).
Proof.
  cbn zeta. split; [vm_compute; reflexivity|].
  intros (margin & H).
  set (small := {| Obstacle.x := 100; Obstacle.y := 669; Obstacle.speed := 2;
                   Obstacle.size := 40; Obstacle.drift := 0 |}).
  set (large := {| Obstacle.x := 700; Obstacle.y := 687; Obstacle.speed := 2;
                   Obstacle.size := 80; Obstacle.drift := 0 |}).
  assert (Hobs : obstacles (draw exampleHost (exampleFrame 1016 16) exampleLow)
                 = [fall large]) by (vm_compute; reflexivity).
  assert (Hh : height exampleLow = 600) by (vm_compute; reflexivity).
  rewrite Hobs, Hh in H.
  destruct (H small) as [_ Hsmall]; [left; reflexivity|].
  destruct (H large) as [Hlarge _]; [right; left; reflexivity|].
  assert (Hkept : ~ 600 + margin
                    < Obstacle.y (fall large) + Obstacle.size (fall large) / 2).
  { apply Hlarge. left. reflexivity. }
  assert (Hgone : ~ ~ 600 + margin
                      < Obstacle.y (fall small) + Obstacle.size (fall small) / 2).
  { intros Hn. destruct (Hsmall Hn) as [E | []].
    apply (f_equal Obstacle.x) in E. vm_compute in E. discriminate E. }
  apply Hgone. intros Hlt. apply Hkept.
  eapply Qlt_trans; [exact Hlt|]. vm_compute. reflexivity.
Qed.

Lemma intro_has_no_obstacles_witness :
  phase exampleBoot = Intro /\
  obstacles (run exampleHost [Draw (exampleFrame 16 2000);
                              Draw (exampleFrame 2016 2000)] exampleBoot) = [] /\
  randomCalls (draw exampleHost (exampleFrame 16 2000) exampleBoot)
  = randomCalls exampleBoot.
Proof.
  destruct (intro_has_no_obstacles exampleHost emptyStorage (loaded 320 324)
              (loaded 64 64) (loaded 400 200) (loaded 1600 900)
              (loaded 120 60) 1280 600 0
              [Draw (exampleFrame 16 2000); Draw (exampleFrame 2016 2000)]
              exampleBoot (exampleFrame 16 2000))
    as (Hrun & _ & Hframe).
  split; [vm_compute; reflexivity|]. split.
  - apply Hrun. vm_compute. reflexivity.
  - destruct Hframe as (_ & _ & _ & _ & Hr); [vm_compute; reflexivity|].
    exact Hr.
Defined.

Lemma failed_load_only_degrades_drawing_witness :
  let es := [ResetGame 1000; SetIntroOverlay false;
             Draw (exampleFrame 3000 2000)] in
  failed (lost 120 60) = true /\
  In "Failed to load /2026.png"%string (console exampleFailedBoot) /\
  obstacleImage (run exampleHost es exampleFailedBoot)
  = Some Image.placeholder /\
  Forall (fun op => visual op <> ObstaclePicture)
         (painted (run exampleHost es exampleFailedBoot)) /\
  game (run exampleHost es exampleFailedBoot)
  = game (run exampleHost es exampleBoot) /\
  length (obstacles (run exampleHost es exampleFailedBoot)) = 1%nat /\
  gameOver (draw exampleHost (exampleFrame 4446 16) exampleFailedDanger)
  = true.
Proof.
  cbn zeta. unfold exampleFailedBoot, exampleBoot.
  destruct (failed_load_only_degrades_drawing exampleHost emptyStorage
              (loaded 320 324) (loaded 64 64) (loaded 400 200)
              (loaded 1600 900) (lost 120 60)
              (loaded 320 324) (loaded 64 64) (loaded 400 200)
              (loaded 1600 900) (loaded 120 60) 1280 600 0
              [ResetGame 1000; SetIntroOverlay false;
               Draw (exampleFrame 3000 2000)])
    as ((_ & _ & _ & _ & Hlog) & (_ & _ & Himg & _ & Hblank) & (_ & _ & Hnot)
        & Hgame).
  split; [reflexivity|]. split; [apply Hlog; reflexivity|].
  split; [rewrite Himg; apply Hblank; reflexivity|].
  split; [apply Hnot; reflexivity|]. split; [exact Hgame|].
  split; vm_compute; reflexivity.
Defined.


Lemma best_score_store_witness :
  let f := exampleFrame 4446 16 in
  (bestScore (boot exampleHost wordStorage (loaded 320 324) (loaded 64 64)
                   (loaded 400 200) (loaded 1600 900) (loaded 120 60)
                   1280 600 0) == 0 /\
   bestScore (boot exampleHost deniedStorage (loaded 320 324) (loaded 64 64)
                   (loaded 400 200) (loaded 1600 900) (loaded 120 60)
                   1280 600 0) == 0) /\
  Storage.writable (sessionStorage exampleFull) = false /\
  gameOver (draw exampleHost f exampleFull) = true /\
  bestScore exampleFull == 0 /\
  bestScore (draw exampleHost f exampleFull) == 3.4 /\
  Storage.items (sessionStorage (draw exampleHost f exampleFull)) = ∅.
Proof.
  cbn zeta. split; [split|].
  - destruct (best_score_store exampleHost wordStorage (loaded 320 324)
                (loaded 64 64) (loaded 400 200) (loaded 1600 900)
                (loaded 120 60) 1280 600 0 [] exampleFull
                (exampleFrame 4446 16) emptyStorage)
      as (_ & _ & Hzero & _).
    apply Hzero. right. right. right. exists "best"%string.
    split; vm_compute; reflexivity.
  - destruct (best_score_store exampleHost deniedStorage (loaded 320 324)
                (loaded 64 64) (loaded 400 200) (loaded 1600 900)
                (loaded 120 60) 1280 600 0 [] exampleFull
                (exampleFrame 4446 16) emptyStorage)
      as (_ & _ & Hzero & _).
    apply Hzero. left. reflexivity.
  - destruct (best_score_store exampleHost emptyStorage (loaded 320 324)
                (loaded 64 64) (loaded 400 200) (loaded 1600 900)
                (loaded 120 60) 1280 600 0 [] exampleFull
                (exampleFrame 4446 16) emptyStorage)
      as (_ & _ & _ & _ & Hfull & _).
    destruct Hfull as (Hb & Hi & _);
      [reflexivity | vm_compute; reflexivity | vm_compute; reflexivity
      | vm_compute; reflexivity |].
    split; [reflexivity|]. split; [vm_compute; reflexivity|].
    split; [vm_compute; reflexivity|].
    split; [rewrite Hb; vm_compute; reflexivity|].
    rewrite Hi. reflexivity.
Defined.

(** * Further properties of the sketch *)

(** *** Rounding to one decimal *)

Lemma Qfloor_half (k : Z) : Qfloor (inject_Z k + 1 / 2) = k.
Proof.
  pose proof (Qfloor_le (inject_Z k + 1 / 2)) as Hle.
  pose proof (Qlt_floor (inject_Z k + 1 / 2)) as Hlt.
  set (a := Qfloor (inject_Z k + 1 / 2)) in *.
  assert (Ha : inject_Z a < inject_Z (k + 1)).
  { rewrite inject_Z_plus. eapply Qle_lt_trans; [exact Hle|].
    apply Qplus_lt_r. reflexivity. }
  assert (Hk : inject_Z k < inject_Z (a + 1)).
  { eapply Qle_lt_trans; [|exact Hlt].
    rewrite <- (Qplus_0_r (inject_Z k)) at 1.
    apply Qplus_le_r. discriminate. }
  rewrite <- Zlt_Qlt in Ha, Hk. lia.
Qed.

Lemma Qle_bool_false (x y : Q) : Qle_bool x y = false <-> y < x.
Proof.
  split; intros H.
  - apply Qnot_le_lt. intros Hle. apply Qle_bool_iff in Hle. congruence.
  - destruct (Qle_bool x y) eqn:E; [|reflexivity].
    apply Qle_bool_iff in E. exfalso. exact (Qlt_not_le _ _ H E).
Qed.

Lemma toFixed1_comp (x y : Q) : x == y -> toFixed1 x == toFixed1 y.
Proof.
  intros Hxy. unfold toFixed1.
  assert (Hb : Qle_bool 0 x = Qle_bool 0 y).
  { destruct (Qle_bool 0 x) eqn:Ex, (Qle_bool 0 y) eqn:Ey; try reflexivity.
    - apply Qle_bool_iff in Ex. apply Qle_bool_false in Ey.
      rewrite Hxy in Ex. exfalso. exact (Qlt_not_le _ _ Ey Ex).
    - apply Qle_bool_iff in Ey. apply Qle_bool_false in Ex.
      rewrite Hxy in Ex. exfalso. exact (Qlt_not_le _ _ Ex Ey). }
  rewrite Hb. destruct (Qle_bool 0 y).
  - assert (Hf : Qfloor (x * 10 + 1 / 2) = Qfloor (y * 10 + 1 / 2))
      by (apply Qfloor_comp; rewrite Hxy; reflexivity).
    rewrite Hf. reflexivity.
  - assert (Hf : Qfloor (- x * 10 + 1 / 2) = Qfloor (- y * 10 + 1 / 2))
      by (apply Qfloor_comp; rewrite Hxy; reflexivity).
    rewrite Hf. reflexivity.
Qed.

(** A number of tenths is its own rounding. *)
Lemma toFixed1_of_tenths (k : Z) :
  toFixed1 (inject_Z k / 10) == inject_Z k / 10.
Proof.
  unfold toFixed1. destruct (Qle_bool 0 (inject_Z k / 10)) eqn:E.
  - assert (Hf : Qfloor (inject_Z k / 10 * 10 + 1 / 2) = k).
    { rewrite <- (Qfloor_half k) at 2.
      apply (Qfloor_comp _ (inject_Z k + 1 / 2)). field. }
    rewrite Hf. reflexivity.
  - assert (Hf : Qfloor (- (inject_Z k / 10) * 10 + 1 / 2) = (- k)%Z).
    { rewrite <- (Qfloor_half (- k)).
      apply (Qfloor_comp _ (inject_Z (- k) + 1 / 2)).
      rewrite inject_Z_opp. field. }
    rewrite Hf, inject_Z_opp. field.
Qed.

Lemma toFixed1_tenths (v : Q) : exists k : Z, toFixed1 v == inject_Z k / 10.
Proof.
  unfold toFixed1. destruct (Qle_bool 0 v).
  - eexists. reflexivity.
  - exists (- Qfloor (- v * 10 + 1 / 2))%Z. rewrite inject_Z_opp. field.
Qed.

Lemma toFixed1_idem (v : Q) : toFixed1 (toFixed1 v) == toFixed1 v.
Proof.
  destruct (toFixed1_tenths v) as [k Hk].
  rewrite (toFixed1_comp _ _ Hk), Hk. apply toFixed1_of_tenths.
Qed.

Lemma toFixed1_near (v : Q) :
  toFixed1 v - 1 / 20 <= v /\ v <= toFixed1 v + 1 / 20.
Proof.
  unfold toFixed1. destruct (Qle_bool 0 v) eqn:E.
  - pose proof (Qfloor_le (v * 10 + 1 / 2)) as Hle.
    pose proof (Qlt_floor (v * 10 + 1 / 2)) as Hlt.
    rewrite inject_Z_plus in Hlt.
    set (k := inject_Z (Qfloor (v * 10 + 1 / 2))) in *. clearbody k.
    change (inject_Z 1) with 1 in Hlt.
    change (1 / 2) with (1 # 2) in *.
    split.
    + apply Qmult_le_r with (z := 10); [reflexivity|].
      setoid_replace ((k / 10 - 1 / 20) * 10) with (k - (1 # 2)) using relation Qeq by field.
      lra.
    + apply Qmult_le_r with (z := 10); [reflexivity|].
      setoid_replace ((k / 10 + 1 / 20) * 10) with (k + (1 # 2)) using relation Qeq by field.
      lra.
  - pose proof (Qfloor_le (- v * 10 + 1 / 2)) as Hle.
    pose proof (Qlt_floor (- v * 10 + 1 / 2)) as Hlt.
    rewrite inject_Z_plus in Hlt.
    set (k := inject_Z (Qfloor (- v * 10 + 1 / 2))) in *. clearbody k.
    change (inject_Z 1) with 1 in Hlt.
    change (1 / 2) with (1 # 2) in *.
    split.
    + apply Qmult_le_r with (z := 10); [reflexivity|].
      setoid_replace ((- (k / 10) - 1 / 20) * 10) with (- k - (1 # 2)) using relation Qeq by field.
      lra.
    + apply Qmult_le_r with (z := 10); [reflexivity|].
      setoid_replace ((- (k / 10) + 1 / 20) * 10) with (- k + (1 # 2)) using relation Qeq by field.
      lra.
Qed.

(** *** What the score block and the startup leave in the state *)

Section Reports.
Context (host : Host).

Lemma prologue_hud f s :
  let rounded := normalizeScore (Fin (elapsedSeconds f s)) in
  let fresh := negb (gameOver s) && Qneqb rounded (lastHudScore s) in
  lastHudScore (prologue f s) = (if fresh then rounded else lastHudScore s) /\
  hudState (prologue f s)
  = (if fresh && isMounted s
     then {| HudState.gameOver := HudState.gameOver (hudState s);
             HudState.score := rounded;
             HudState.bestScore := HudState.bestScore (hudState s) |}
     else hudState s) /\
  flowOffset (prologue f s)
  = flowOffset s + (if introOverlayActive s then 0.18 else 0.5).
Proof.
  cbn zeta.
  assert (E : lastHudScore (prologue f s) = lastHudScore (updateScore f s) /\
              hudState (prologue f s) = hudState (updateScore f s) /\
              flowOffset (prologue f s)
              = flowOffset s + (if introOverlayActive s then 0.18 else 0.5)).
  { unfold prologue, updateScore, drawFlowingLines, drawScreenTexture,
      updateHud.
    crunch; auto. }
  destruct E as (-> & -> & ->).
  unfold updateScore, updateHud, elapsedSeconds, HudState.merge.
  destruct (gameOver s); sst; [auto|].
  destruct (Qneqb _ _); sst; [|auto].
  destruct (isMounted s); sst; auto.
Qed.

End Reports.

(** *** The HUD *)

Section Hud.
Context (host : Host).

Lemma boot_hudInv st l1 l2 l3 l4 l5 vw vh now :
  hudInv (boot host st l1 l2 l3 l4 l5 vw vh now).
Proof.
  destruct (boot_shape host st l1 l2 l3 l4 l5 vw vh now) as [log ->].
  rewrite resetGame_shape, (mount_shape host st). sst.
  unfold hudInv, hudMirror. sst. cbn [HudState.gameOver HudState.score
    HudState.bestScore].
  rewrite (mount_bestScore host st). cbn [normalizeScore].
  repeat split; try reflexivity.
  - apply toFixed1_idem.
  - apply toFixed1_idem.
  - right. reflexivity.
Qed.

Lemma draw_hudInv f s : hudInv s -> hudInv (draw host f s).
Proof.
  intros (Hm & (Hg & Hb & Hs) & Hn & Hl).
  pose proof (draw_fixed host f s) as Hfix. unfold fixed in Hfix.
  injection Hfix as _ _ _ _ _ _ _ _ _ _ Hm'.
  pose proof (draw_lastHudScore host f s) as Hlast.
  destruct (prologue_keeps f s)
    as (Hpfix & _ & _ & Hpg & _ & Hpb & _ & _ & Hps).
  unfold fixed in Hpfix. injection Hpfix as _ _ _ _ _ _ _ _ _ _ Hpm.
  destruct (prologue_hud f s) as (Hpl & Hph & _). cbn zeta in Hpl, Hph.
  assert (Hpos : 0 <= normalizeScore (Fin (elapsedSeconds f s))).
  { apply toFixed1_nonneg, Math_max_nonneg. }
  set (rounded := normalizeScore (Fin (elapsedSeconds f s))) in *.
  assert (Hshown : gameOver s = false ->
                   lastHudScore (prologue f s) == rounded /\
                   HudState.score (hudState (prologue f s)) == rounded /\
                   HudState.gameOver (hudState (prologue f s))
                   = HudState.gameOver (hudState s) /\
                   HudState.bestScore (hudState (prologue f s))
                   = HudState.bestScore (hudState s)).
  { intros Hgs. rewrite Hpl, Hph, Hgs, Hm. cbn [negb andb].
    rewrite andb_true_r. unfold Qneqb.
    destruct (Qeq_bool rounded (lastHudScore s)) eqn:Heq; cbn [negb].
    - apply Qeq_bool_iff in Heq. split; [symmetry; exact Heq|].
      split; [|split; reflexivity].
      destruct Hl as [Hl | Hl].
      + rewrite <- Hl. symmetry. exact Heq.
      + exfalso. rewrite Heq, Hl in Hpos. apply Hpos. reflexivity.
    - cbn [HudState.gameOver HudState.score HudState.bestScore].
      repeat split; reflexivity. }
  unfold hudInv, hudMirror. rewrite Hm', Hlast.
  destruct (draw_outcome host f s) as [Hout | [Hgs Hout]].
  + apply outcome_same in Hout as (-> & _ & -> & -> & _ & _ & ->).
    rewrite Hpg, Hpb, Hps.
    destruct (gameOver s) eqn:Hgs.
    * rewrite Hpl, Hph. cbn [negb andb]. auto.
    * destruct (Hshown eq_refl) as (H1 & H2 & H3 & H4).
      rewrite H3, H4. fold rounded.
      repeat split; auto. left. rewrite H1, H2. reflexivity.
  + unfold collisionOutcome in Hout. cbn zeta in Hout.
    apply outcome_fields in Hout as (-> & _ & -> & -> & _ & _ & ->).
    rewrite Hpm, Hm, Hpb, Hps, Hgs.
    cbn [HudState.gameOver HudState.score HudState.bestScore].
    fold rounded.
    destruct (Hshown Hgs) as (H1 & _).
    assert (Hbest : normalizeScore
                      (Fin (if Qltb (bestScore s) rounded then rounded
                            else bestScore s))
                    == (if Qltb (bestScore s) rounded then rounded
                        else bestScore s)).
    { destruct (Qltb _ _); [apply toFixed1_idem | exact Hn]. }
    split; [reflexivity|]. split; [|split; [exact Hbest|]].
    * split; [reflexivity|]. split; [exact Hbest|].
      symmetry. apply toFixed1_idem.
    * left. exact H1.
Qed.

Lemma step_hudInv e s :
  isUnmount e = false -> hudInv s -> hudInv (step host e s).
Proof.
  intros He Hinv.
  destruct e as [f|now|value|vw vh f|beta gamma|api|granted|];
    try discriminate He; cbn [step].
  - apply draw_hudInv. exact Hinv.
  - destruct Hinv as (Hm & (Hg & Hb & Hs) & Hn & Hl).
    rewrite resetGame_shape. unfold hudInv, hudMirror. sst. rewrite Hm.
    cbn [HudState.gameOver HudState.score HudState.bestScore].
    repeat split; auto. right. reflexivity.
  - destruct Hinv as (Hm & (Hg & Hb & Hs) & Hn & Hl).
    unfold setIntroOverlayState, p_random, hudInv, hudMirror.
    destruct value; sst; auto.
  - pose proof draw_hudInv as Hframe.
    resize_frame Hframe f Hd. unfold hudInv, hudMirror in *. sst_all.
    apply Hd, Hinv.
  - destruct Hinv as (Hm & (Hg & Hb & Hs) & Hn & Hl).
    unfold handleOrientation, hudInv, hudMirror. sst. auto.
  - destruct Hinv as (Hm & (Hg & Hb & Hs) & Hn & Hl).
    unfold setupGyroSensor, hudInv, hudMirror. destruct api; sst; auto.
  - destruct Hinv as (Hm & (Hg & Hb & Hs) & Hn & Hl).
    unfold permissionAnswered, console_log, hudInv, hudMirror.
    destruct granted; sst; auto.
Qed.

Lemma run_hudInv es s :
  Forall (fun e => isUnmount e = false) es -> hudInv s ->
  hudInv (run host es s).
Proof.
  intros Hes. revert s. induction Hes as [|e es He _ IH]; intros s H;
    cbn [run]; [exact H|].
  apply IH, step_hudInv; assumption.
Qed.

(** X1.  As long as the component is mounted the HUD shows the game: from
    startup on, after any events, the game-over flag and the best score in
    the React state are those of the sketch, and the score shown is the
    sketch's score rounded to one decimal. *)
Theorem hud_mirrors_game
        (st : Storage.t) (head pattern year texture obstacle : Load)
        (viewportWidth viewportHeight now : Q) (es : list event) :
  Forall (fun e => isUnmount e = false) es ->
  hudMirror (run host es (boot host st head pattern year texture obstacle
                               viewportWidth viewportHeight now)).
Proof.
  intros Hes. apply (run_hudInv es _ Hes (boot_hudInv _ _ _ _ _ _ _ _ _)).
Qed.

End Hud.

(** *** What a frame does to the variables of the collision branch *)

Section Effects.
Context (host : Host).

(** A frame either leaves the variables of the collision branch as the
    score block left them, or it ends the round. *)
Lemma draw_effect f s :
  (gameOver (draw host f s) = gameOver s /\
   vibrations (draw host f s) = vibrations s /\
   bestScore (draw host f s) = bestScore s /\
   sessionStorage (draw host f s) = sessionStorage s /\
   console (draw host f s) = console s /\
   score (draw host f s)
   = (if gameOver s then score s else elapsedSeconds f s) /\
   hudState (draw host f s) = hudState (prologue f s)) \/
  (gameOver s = false /\ gameOver (draw host f s) = true /\
   let rounded := normalizeScore (Fin (elapsedSeconds f s)) in
   let newBest := Qltb (bestScore s) rounded in
   vibrations (draw host f s)
   = (if hasVibrate host then S (vibrations s) else vibrations s) /\
   score (draw host f s) = rounded /\
   bestScore (draw host f s) = (if newBest then rounded else bestScore s) /\
   sessionStorage (draw host f s)
   = (if newBest
      then (Storage.setItem BEST_SCORE_KEY (js_toString host rounded)
                            (sessionStorage s)).2
      else sessionStorage s) /\
   console (draw host f s)
   = (if newBest && negb (Storage.writable (sessionStorage s))
      then console s ++ ["Unable to persist session best score"%string]
      else console s) /\
   hudState (draw host f s)
   = (if isMounted s
      then {| HudState.gameOver := true; HudState.score := rounded;
              HudState.bestScore :=
                normalizeScore
                  (Fin (if newBest then rounded else bestScore s)) |}
      else hudState (prologue f s))).
Proof.
  destruct (prologue_keeps f s)
    as (Hpfix & _ & _ & Hpg & Hpv & Hpb & Hpst & Hpc & Hps).
  unfold fixed in Hpfix. injection Hpfix as _ _ _ _ _ _ _ _ _ _ Hpm.
  destruct (draw_outcome host f s) as [Hout | [Hgs Hout]].
  - left. apply outcome_same in Hout as (-> & -> & -> & -> & -> & -> & ->).
    rewrite Hpg, Hpv, Hpb, Hpst, Hpc, Hps. repeat split; reflexivity.
  - right. unfold collisionOutcome in Hout. cbn zeta in Hout.
    apply outcome_fields in Hout as (-> & -> & -> & -> & -> & -> & ->).
    rewrite Hpv, Hpb, Hpst, Hpc, Hps, Hpm, Hgs. cbn zeta.
    repeat split; reflexivity.
Qed.

Lemma step_quiet e s :
  match e with
  | Draw _ | ResetGame _ | WindowResized _ _ _ => False
  | _ => True
  end ->
  outcome (step host e s)
  = (gameOver s, vibrations s, score s, bestScore s, sessionStorage s,
     console (step host e s), hudState s) /\
  lastHudScore (step host e s) = lastHudScore s.
Proof.
  destruct e as [f|now|value|vw vh f|beta gamma|api|granted|]; intros He;
    try contradiction; cbn [step]; unfold outcome.
  - unfold setIntroOverlayState, p_random. destruct value; sst; auto.
  - unfold handleOrientation. sst. auto.
  - unfold setupGyroSensor. destruct api; sst; auto.
  - unfold permissionAnswered, console_log. destruct granted; sst; auto.
  - unfold unmount. sst. auto.
Qed.

End Effects.

(** An event that is no frame, reset or resize, by [step_quiet]. *)
Ltac quiet_event Hout Hlast :=
  match goal with
  | |- context [step ?host ?e ?s] =>
      destruct (step_quiet host e s I) as [Hout Hlast]
  end.

(** *** Over whole runs *)

Section Runs.
Context (host : Host).

Lemma step_unmounted e s :
  isMounted s = false ->
  isMounted (step host e s) = false /\ hudState (step host e s) = hudState s.
Proof.
  intros Hm. destruct (step_obstacleImage host e s) as [_ Hm'].
  rewrite Hm in Hm'. split; [exact Hm'|]. clear Hm'.
  assert (Hframe : forall f s0, isMounted s0 = false ->
                                hudState (draw host f s0) = hudState s0).
  { intros f s0 H0. destruct (prologue_hud f s0) as (_ & Hph & _).
    cbn zeta in Hph. rewrite H0, andb_false_r in Hph.
    destruct (draw_effect host f s0)
      as [(_ & _ & _ & _ & _ & _ & Hh) | (_ & _ & _ & _ & _ & _ & _ & Hh)];
      cbn zeta in Hh; rewrite Hh, ?H0; exact Hph. }
  destruct e as [f|now|value|vw vh f|beta gamma|api|granted|];
    try (quiet_event Hout Hlast;
         apply outcome_fields in Hout as (_ & _ & _ & _ & _ & _ & Hh);
         exact Hh).
  - cbn [step]. apply Hframe, Hm.
  - cbn [step]. rewrite resetGame_shape. sst. rewrite Hm. reflexivity.
  - cbn [step]. resize_frame Hframe f Hd. apply Hd, Hm.
Qed.

(** X2.  Once the component is unmounted nothing reaches the React state
    any more: whatever events still arrive at the sketch, the HUD stays as
    it was, and the component stays unmounted. *)
Theorem hud_frozen_after_unmount (es : list event) (s : state) :
  isMounted s = false ->
  hudState (run host es s) = hudState s /\ isMounted (run host es s) = false.
Proof.
  revert s. induction es as [|e es IH]; intros s Hm; cbn [run]; [auto|].
  destruct (step_unmounted e s Hm) as [Hm' Hh].
  destruct (IH _ Hm') as [IH1 IH2]. split; [congruence | exact IH2].
Qed.

Lemma step_bestScore e s :
  bestScore (step host e s) = bestScore s \/
  (gameOver s = false /\ gameOver (step host e s) = true /\
   bestScore s < bestScore (step host e s) /\
   bestScore (step host e s) = score (step host e s)).
Proof.
  assert (Hframe : forall f s0,
             bestScore (draw host f s0) = bestScore s0 \/
             (gameOver s0 = false /\ gameOver (draw host f s0) = true /\
              bestScore s0 < bestScore (draw host f s0) /\
              bestScore (draw host f s0) = score (draw host f s0))).
  { intros f s0. destruct (draw_effect host f s0)
      as [(_ & _ & Hb & _) | (Hg & Hg' & _ & Hs & Hb & _)];
      [left; exact Hb|].
    cbn zeta in Hs, Hb. rewrite Hb, Hs.
    destruct (Qltb (bestScore s0) _) eqn:E; [|left; reflexivity].
    right. apply Qltb_lt in E. auto. }
  destruct e as [f|now|value|vw vh f|beta gamma|api|granted|];
    try (left; quiet_event Hout Hlast;
         apply outcome_fields in Hout as (_ & _ & _ & Hb & _); exact Hb).
  - cbn [step]. apply Hframe.
  - left. cbn [step]. rewrite resetGame_shape. reflexivity.
  - cbn [step]. resize_frame Hframe f Hd. exact Hd.
Qed.

(** X3.  The best score never decreases.  An event changes it only by
    ending a round, and then to the final score of that round, which is
    greater than the previous best. *)
Theorem best_score_never_decreases (es : list event) (e : event) (s : state) :
  bestScore s <= bestScore (run host es s) /\
  (bestScore (step host e s) = bestScore s \/
   (gameOver s = false /\ gameOver (step host e s) = true /\
    bestScore s < bestScore (step host e s) /\
    bestScore (step host e s) = score (step host e s))).
Proof.
  split; [|apply step_bestScore]. clear e.
  revert s. induction es as [|e es IH]; intros s; cbn [run];
    [apply Qle_refl|].
  eapply Qle_trans; [|apply IH].
  destruct (step_bestScore e s) as [-> | (_ & _ & Hlt & _)];
    [apply Qle_refl | apply Qlt_le_weak, Hlt].
Qed.

Lemma step_score_nonneg e s : 0 <= score s -> 0 <= score (step host e s).
Proof.
  intros H.
  assert (Hframe : forall f s0,
             0 <= score s0 -> 0 <= score (draw host f s0)).
  { intros f s0 H0. destruct (draw_effect host f s0)
      as [(_ & _ & _ & _ & _ & -> & _) | (_ & _ & _ & Hs & _)].
    + destruct (gameOver s0); [exact H0 | apply Math_max_nonneg].
    + cbn zeta in Hs. rewrite Hs. apply toFixed1_nonneg, Math_max_nonneg. }
  destruct e as [f|now|value|vw vh f|beta gamma|api|granted|];
    try (quiet_event Hout Hlast;
         apply outcome_fields in Hout as (_ & _ & -> & _); exact H).
  - cbn [step]. apply Hframe, H.
  - cbn [step]. rewrite resetGame_shape. sst. apply Qle_refl.
  - cbn [step]. resize_frame Hframe f Hd. apply Hd, H.
Qed.

(** X4.  The score is never negative: from startup on, after any events,
    also with frames whose clock reading lies before the start of the
    round. *)
Theorem score_never_negative
        (st : Storage.t) (head pattern year texture obstacle : Load)
        (viewportWidth viewportHeight now : Q) (es : list event) :
  0 <= score (run host es (boot host st head pattern year texture obstacle
                                viewportWidth viewportHeight now)).
Proof.
  assert (H0 : 0 <= score (boot host st head pattern year texture obstacle
                                viewportWidth viewportHeight now)).
  { destruct (boot_shape host st head pattern year texture obstacle
                         viewportWidth viewportHeight now) as [log ->].
    rewrite resetGame_shape. sst. apply Qle_refl. }
  revert H0. generalize (boot host st head pattern year texture obstacle
                              viewportWidth viewportHeight now).
  induction es as [|e es IH]; intros s H; cbn [run]; [exact H|].
  apply IH, step_score_nonneg, H.
Qed.

Lemma step_vibrations e s :
  vibrations (step host e s)
  = (vibrations s
     + (if hasVibrate host
        then (if negb (gameOver s) && gameOver (step host e s) then 1 else 0)
        else 0))%nat.
Proof.
  assert (Hframe : forall f s0,
             vibrations (draw host f s0)
             = (vibrations s0
                + (if hasVibrate host
                   then (if negb (gameOver s0) && gameOver (draw host f s0)
                         then 1 else 0)
                   else 0))%nat).
  { intros f s0. destruct (draw_effect host f s0)
      as [(-> & -> & _) | (Hg & -> & Hv & _)].
    + rewrite andb_negb_l. destruct (hasVibrate host); lia.
    + cbn zeta in Hv. rewrite Hv, Hg. cbn [negb andb].
      destruct (hasVibrate host); lia. }
  destruct e as [f|now|value|vw vh f|beta gamma|api|granted|];
    try (quiet_event Hout Hlast;
         apply outcome_fields in Hout as (-> & -> & _);
         rewrite andb_negb_l; destruct (hasVibrate host); lia).
  - cbn [step]. apply Hframe.
  - cbn [step]. rewrite resetGame_shape. sst. rewrite andb_false_r.
    destruct (hasVibrate host); lia.
  - cbn [step]. resize_frame Hframe f Hd. exact Hd.
Qed.

(** X5.  The device vibrates exactly when an event ends a round: after any
    run the number of vibrations has grown by the number of round endings
    where [navigator.vibrate] exists, and not at all where it does not. *)
Theorem vibrates_once_per_round_end (es : list event) (s : state) :
  vibrations (run host es s)
  = (vibrations s
     + (if hasVibrate host then transitions host es s else 0))%nat.
Proof.
  revert s. induction es as [|e es IH]; intros s; cbn [run transitions].
  - destruct (hasVibrate host); lia.
  - rewrite IH, step_vibrations. destruct (hasVibrate host); lia.
Qed.

End Runs.

(** *** The session store *)

Section Store.
Context (host : Host).

Lemma step_storage e s :
  sessionStorage (step host e s) = sessionStorage s \/
  (gameOver s = false /\ gameOver (step host e s) = true /\
   exists v, sessionStorage (step host e s)
             = (Storage.setItem BEST_SCORE_KEY v (sessionStorage s)).2).
Proof.
  assert (Hframe : forall f s0,
             sessionStorage (draw host f s0) = sessionStorage s0 \/
             (gameOver s0 = false /\ gameOver (draw host f s0) = true /\
              exists v, sessionStorage (draw host f s0)
                        = (Storage.setItem BEST_SCORE_KEY v
                                           (sessionStorage s0)).2)).
  { intros f s0. destruct (draw_effect host f s0)
      as [(_ & _ & _ & Hst & _) | (Hg & Hg' & _ & _ & _ & Hst & _)];
      [left; exact Hst|].
    cbn zeta in Hst. rewrite Hst.
    destruct (Qltb (bestScore s0) _); [|left; reflexivity].
    right. eauto. }
  destruct e as [f|now|value|vw vh f|beta gamma|api|granted|];
    try (left; quiet_event Hout Hlast;
         apply outcome_fields in Hout as (_ & _ & _ & _ & Hst & _); exact Hst).
  - cbn [step]. apply Hframe.
  - left. cbn [step]. rewrite resetGame_shape. reflexivity.
  - cbn [step]. resize_frame Hframe f Hd. exact Hd.
Qed.

(** X6.  The sketch writes to the session store only when an event ends a
    round, and only under its own key: after any run the store's log has
    grown by writes of the best-score key, at most one for each round
    ending; the entries under all other keys, and whether the store can be
    read and written, are as before. *)
Theorem store_written_only_at_round_end (es : list event) (s : state) :
  exists ws,
    Storage.calls (sessionStorage (run host es s))
    = Storage.calls (sessionStorage s) ++ ws /\
    Forall (fun c => exists v, c = Storage.SetItem BEST_SCORE_KEY v) ws /\
    (length ws <= transitions host es s)%nat /\
    (forall key, key <> BEST_SCORE_KEY ->
       Storage.items (sessionStorage (run host es s)) !! key
       = Storage.items (sessionStorage s) !! key) /\
    Storage.readable (sessionStorage (run host es s))
    = Storage.readable (sessionStorage s) /\
    Storage.writable (sessionStorage (run host es s))
    = Storage.writable (sessionStorage s).
Proof.
  revert s. induction es as [|e es IH]; intros s; cbn [run transitions].
  - exists []. rewrite app_nil_r. split_and!; auto.
  - destruct (IH (step host e s)) as (ws & Hc & Hw & Hn & Hk & Hr & Hwr).
    destruct (step_storage e s) as [E | (Hg & Hg' & v & E)].
    + exists ws. rewrite Hc, Hr, Hwr, E. split_and!; auto; [lia|].
      intros key Hkey. rewrite (Hk key Hkey), E. reflexivity.
    + exists (Storage.SetItem BEST_SCORE_KEY v :: ws).
      rewrite Hc, Hr, Hwr, Hg, Hg'. cbn [negb andb].
      assert (Hset : Storage.calls (sessionStorage (step host e s))
                     = Storage.calls (sessionStorage s)
                       ++ [Storage.SetItem BEST_SCORE_KEY v] /\
                     Storage.readable (sessionStorage (step host e s))
                     = Storage.readable (sessionStorage s) /\
                     Storage.writable (sessionStorage (step host e s))
                     = Storage.writable (sessionStorage s) /\
                     forall key, key <> BEST_SCORE_KEY ->
                       Storage.items (sessionStorage (step host e s)) !! key
                       = Storage.items (sessionStorage s) !! key).
      { rewrite E. unfold Storage.setItem.
        destruct (Storage.writable (sessionStorage s)) eqn:Hwrit;
          cbn [snd Storage.calls Storage.items Storage.readable
               Storage.writable]; split_and!; auto.
        intros key Hkey. apply lookup_insert_ne. congruence. }
      destruct Hset as (Hc' & Hr' & Hwr' & Hk').
      rewrite Hc', Hr', Hwr', <- app_assoc. cbn [app length].
      split_and!; auto; [constructor; eauto | lia |].
      intros key Hkey. rewrite (Hk key Hkey). apply Hk', Hkey.
Qed.

Lemma mount_reads_items st1 st2 :
  Storage.items st1 = Storage.items st2 ->
  Storage.readable st1 = Storage.readable st2 ->
  bestScore (mount host st1) = bestScore (mount host st2).
Proof.
  intros Hi Hr. rewrite !mount_bestScore, Hi, Hr. reflexivity.
Qed.

(** X7.  What the sketch writes, a later mount reads back.  The store is
    left by the startup with the entries it had, so mounting again reads
    the same best score.  And when a frame ends a round with a new best
    score, in a store that can be read and written and with a host whose
    number-to-string conversion is undone by its string-to-number
    conversion at that value, a mount on the store the frame leaves starts
    with that best score. *)
Theorem best_score_survives_reload (st : Storage.t) (f : Frame.t) (s : state) :
  bestScore (mount host (sessionStorage (mount host st)))
  = bestScore (mount host st) /\
  (gameOver s = false -> gameOver (draw host f s) = true ->
   let rounded := normalizeScore (Fin (elapsedSeconds f s)) in
   bestScore s < rounded ->
   Storage.readable (sessionStorage s) = true ->
   Storage.writable (sessionStorage s) = true ->
   js_toString host rounded <> ""%string ->
   (exists q, js_Number host (js_toString host rounded) = Fin q /\
              q == rounded) ->
   bestScore (mount host (sessionStorage (draw host f s)))
   == bestScore (draw host f s)).
Proof.
  split.
  - apply mount_reads_items; unfold mount, readSessionBest, Storage.getItem;
      destruct (Storage.readable st); reflexivity.
  - intros Hg Hg' rounded Hnew Hr Hw Hne (q & Hq & Hqr).
    destruct (draw_effect host f s)
      as [(E & _) | (_ & _ & _ & _ & Hb & Hst & _)];
      [rewrite Hg, Hg' in E; discriminate E|].
    cbn zeta in Hb, Hst. fold rounded in Hb, Hst.
    apply Qltb_lt in Hnew. rewrite Hnew in Hb, Hst.
    rewrite Hb, mount_bestScore, Hst. unfold Storage.setItem.
    rewrite Hw. cbn [snd Storage.readable Storage.items]. rewrite Hr.
    rewrite lookup_insert_eq.
    destruct (String.eqb_spec (js_toString host rounded) "") as [E|_];
      [contradiction|].
    rewrite Hq. cbn [normalizeScore].
    rewrite (toFixed1_comp _ _ Hqr). apply toFixed1_idem.
Qed.

End Store.

(** *** The orientation sensor *)

Section Gyro.
Context (host : Host).

Lemma step_useGyro e s :
  useGyro (step host e s) = useGyro s || enablesGyro e.
Proof.
  assert (Hframe : forall f s0, useGyro (draw host f s0) = useGyro s0).
  { intros f s0. pose proof (draw_fixed host f s0) as Hfix.
    unfold fixed in Hfix.
    injection Hfix as _ _ _ _ _ -> _ _ _ _ _. reflexivity. }
  destruct e as [f|now|value|vw vh f|beta gamma|api|granted|];
    cbn [step enablesGyro].
  - rewrite Hframe. now rewrite orb_false_r.
  - rewrite resetGame_shape. sst. now rewrite orb_false_r.
  - unfold setIntroOverlayState, p_random. destruct value; sst;
      now rewrite orb_false_r.
  - resize_frame Hframe f Hd. rewrite Hd. now rewrite orb_false_r.
  - unfold handleOrientation. sst. now rewrite orb_false_r.
  - unfold setupGyroSensor. destruct api; sst;
      now rewrite ?orb_false_r, ?orb_true_r.
  - unfold permissionAnswered, console_log. destruct granted; sst;
      now rewrite ?orb_false_r, ?orb_true_r.
  - unfold unmount. sst. now rewrite orb_false_r.
Qed.

(** X8.  The sensor is switched on by a setup that needs no permission or
    by a granted permission, and by nothing else; no event switches it off
    again, neither a reset nor a refused or failed permission request. *)
Theorem gyro_is_a_latch (es : list event) (s : state) :
  useGyro (run host es s) = useGyro s || existsb enablesGyro es.
Proof.
  revert s. induction es as [|e es IH]; intros s; cbn [run existsb].
  - now rewrite orb_false_r.
  - rewrite IH, step_useGyro, orb_assoc. reflexivity.
Qed.

End Gyro.

Lemma clamp_range (v : Q) :
  -90 <= Math_max (-90) (Math_min 90 v) /\
  Math_max (-90) (Math_min 90 v) <= 90.
Proof.
  unfold Math_max, Math_min.
  destruct (Qle_bool 90 v) eqn:E1.
  - cbn. split; discriminate.
  - apply Qle_bool_false in E1.
    destruct (Qle_bool (-90) v) eqn:E2.
    + apply Qle_bool_iff in E2. split; [exact E2 | apply Qlt_le_weak, E1].
    + split; discriminate.
Qed.

Lemma clamp_inside (v : Q) :
  -90 <= v -> v <= 90 -> Math_max (-90) (Math_min 90 v) == v.
Proof.
  intros H1 H2. unfold Math_max, Math_min.
  destruct (Qle_bool 90 v) eqn:E1.
  - apply Qle_bool_iff in E1. cbn. apply Qle_antisym; assumption.
  - apply Qle_bool_iff in H1. rewrite H1. reflexivity.
Qed.

Lemma clamp_above (v : Q) : 90 <= v -> Math_max (-90) (Math_min 90 v) == 90.
Proof.
  intros H. unfold Math_max, Math_min. apply Qle_bool_iff in H. rewrite H.
  reflexivity.
Qed.

Lemma clamp_below (v : Q) : v <= -90 -> Math_max (-90) (Math_min 90 v) == -90.
Proof.
  intros H. unfold Math_max, Math_min.
  destruct (Qle_bool 90 v) eqn:E1.
  - apply Qle_bool_iff in E1. exfalso.
    assert (H' : 90 <= -90) by (eapply Qle_trans; eassumption).
    apply H'. reflexivity.
  - destruct (Qle_bool (-90) v) eqn:E2; [|reflexivity].
    apply Qle_bool_iff in E2. apply Qle_antisym; assumption.
Qed.

Lemma p_map_tilt (n size : Q) :
  p_map n (-90) 90 0 size == (n + 90) * size * (1 # 180).
Proof. unfold p_map. field. Qed.

Lemma p_map_tilt_range (n size : Q) :
  -90 <= n -> n <= 90 -> 0 <= size ->
  0 <= p_map n (-90) 90 0 size /\ p_map n (-90) 90 0 size <= size.
Proof.
  intros H1 H2 H3. rewrite p_map_tilt. split; nra.
Qed.

(** X9.  Whatever the tilt reported, [handleOrientation] puts the sensor
    target on the canvas: each angle is clamped to [-90, 90] and mapped
    linearly onto the width or the height, a missing angle counts as 0
    and gives the middle, and an angle of 90 degrees or more gives the far
    edge, one of -90 or less the near edge.  With the sensor on, this is
    the target the next frame steers the head to. *)
Theorem tilt_maps_onto_canvas
        (beta gamma : option Q) (f : Frame.t) (s : state) :
  0 <= width s -> 0 <= height s ->
  let s' := handleOrientation beta gamma s in
  (0 <= gyroX s' /\ gyroX s' <= width s) /\
  (0 <= gyroY s' /\ gyroY s' <= height s) /\
  (gamma = None -> gyroX s' == width s / 2) /\
  (beta = None -> gyroY s' == height s / 2) /\
  (forall g, gamma = Some g -> -90 <= g -> g <= 90 ->
             gyroX s' == (g + 90) / 180 * width s) /\
  (forall b, beta = Some b -> -90 <= b -> b <= 90 ->
             gyroY s' == (b + 90) / 180 * height s) /\
  (forall g, gamma = Some g -> 90 <= g -> gyroX s' == width s) /\
  (forall g, gamma = Some g -> g <= -90 -> gyroX s' == 0) /\
  (forall b, beta = Some b -> 90 <= b -> gyroY s' == height s) /\
  (forall b, beta = Some b -> b <= -90 -> gyroY s' == 0) /\
  (useGyro s = true -> target f s' = (gyroX s', gyroY s')).
Proof.
  intros Hw Hh. cbn zeta. unfold handleOrientation, target. sst.
  pose proof (clamp_range (default 0 gamma)) as [Hg1 Hg2].
  pose proof (clamp_range (default 0 beta)) as [Hb1 Hb2].
  split; [apply p_map_tilt_range; assumption|].
  split; [apply p_map_tilt_range; assumption|].
  split_and!.
  - intros ->. cbn [default].
    rewrite p_map_tilt, (clamp_inside 0); [field | discriminate..].
  - intros ->. cbn [default].
    rewrite p_map_tilt, (clamp_inside 0); [field | discriminate..].
  - intros g -> H1 H2. cbn [default].
    rewrite p_map_tilt, (clamp_inside g H1 H2). field.
  - intros b -> H1 H2. cbn [default].
    rewrite p_map_tilt, (clamp_inside b H1 H2). field.
  - intros g -> H. cbn [default]. rewrite p_map_tilt, (clamp_above g H).
    field.
  - intros g -> H. cbn [default]. rewrite p_map_tilt, (clamp_below g H).
    field.
  - intros b -> H. cbn [default]. rewrite p_map_tilt, (clamp_above b H).
    field.
  - intros b -> H. cbn [default]. rewrite p_map_tilt, (clamp_below b H).
    field.
  - intros ->. reflexivity.
Qed.

(** *** The chain over whole runs *)

Lemma followLoop_ease (count i : nat) (segs : list Segment.t) :
  Segment.easeFactor <$> followLoop count i segs = Segment.easeFactor <$> segs.
Proof.
  revert i segs. induction count as [|count IH]; intros i segs;
    cbn [followLoop]; [reflexivity|].
  destruct (segs !! (i - 1)%nat) as [prev|]; [|reflexivity].
  destruct (segs !! i) as [curr|] eqn:Hc; [|reflexivity].
  rewrite IH, list_fmap_insert. apply list_insert_id.
  rewrite list_lookup_fmap, Hc. reflexivity.
Qed.

Lemma followTarget_ease (tx ty : Q) (segs : list Segment.t) :
  Segment.easeFactor <$> followTarget tx ty segs = Segment.easeFactor <$> segs.
Proof.
  unfold followTarget. destruct (segs !! 0%nat) as [first|] eqn:Hf;
    [|reflexivity].
  rewrite followLoop_ease, list_fmap_insert. apply list_insert_id.
  rewrite list_lookup_fmap, Hf. reflexivity.
Qed.

Lemma homeChain_ease (w h : Q) :
  Segment.easeFactor <$> homeChain w h
  = (fun i : nat => 0.16 - inject_Z (Z.of_nat i) * 0.004) <$> seq 0 5.
Proof. reflexivity. Qed.

Section ChainRuns.
Context (host : Host).

Lemma step_ease e s :
  Segment.easeFactor <$> segments s = Segment.easeFactor <$> homeChain 0 0 ->
  Segment.easeFactor <$> segments (step host e s)
  = Segment.easeFactor <$> homeChain 0 0.
Proof.
  intros H.
  destruct e as [f|now|value|vw vh f|beta gamma|api|granted|]; cbn [step].
  - rewrite draw_segments. destruct (gameOver (draw host f s)); [exact H|].
    rewrite followTarget_ease. exact H.
  - rewrite resetGame_shape. sst. reflexivity.
  - unfold setIntroOverlayState, p_random. destruct value; sst; exact H.
  - rewrite windowResized_shape.
    match goal with |- context [draw host f ?r] =>
      generalize (draw host f r) end.
    intros d. sst. rewrite !homeChain_ease. reflexivity.
  - unfold handleOrientation. sst. exact H.
  - unfold setupGyroSensor. destruct api; sst; exact H.
  - unfold permissionAnswered, console_log. destruct granted; sst; exact H.
  - unfold unmount. sst. exact H.
Qed.

Lemma run_ease es s :
  Segment.easeFactor <$> segments s = Segment.easeFactor <$> homeChain 0 0 ->
  Segment.easeFactor <$> segments (run host es s)
  = Segment.easeFactor <$> homeChain 0 0.
Proof.
  revert s. induction es as [|e es IH]; intros s H; cbn [run]; [exact H|].
  apply IH, step_ease, H.
Qed.

(** X10.  From startup on, after any events, the chain has its five
    segments, and their ease factors are 0.16, 0.156, 0.152, 0.148 and
    0.144 from head to tail: no frame, reset or resize adds, drops or
    reorders a segment or changes a factor.  So every factor lies strictly
    between 0 and 1. *)
Theorem chain_keeps_its_shape
        (st : Storage.t) (head pattern year texture obstacle : Load)
        (viewportWidth viewportHeight now : Q) (es : list event) :
  let s := run host es (boot host st head pattern year texture obstacle
                             viewportWidth viewportHeight now) in
  length (segments s) = 5%nat /\
  Forall2 Qeq (Segment.easeFactor <$> segments s)
          [0.16; 0.156; 0.152; 0.148; 0.144] /\
  Forall (fun seg => 0 < Segment.easeFactor seg /\ Segment.easeFactor seg < 1)
         (segments s).
Proof.
  cbn zeta.
  assert (H : Segment.easeFactor
                <$> segments (run host es
                                (boot host st head pattern year texture
                                      obstacle viewportWidth viewportHeight
                                      now))
              = Segment.easeFactor <$> homeChain 0 0).
  { apply run_ease.
    destruct (boot_shape host st head pattern year texture obstacle
                         viewportWidth viewportHeight now) as [log ->].
    rewrite resetGame_shape. sst. reflexivity. }
  revert H. generalize (segments (run host es
                                   (boot host st head pattern year texture
                                         obstacle viewportWidth viewportHeight
                                         now))).
  intros segs H. rewrite homeChain_ease in H. cbn [seq fmap list_fmap] in H.
  assert (Hlen : length segs = 5%nat).
  { rewrite <- (length_fmap Segment.easeFactor), H. reflexivity. }
  split; [exact Hlen|]. split.
  - rewrite H. repeat constructor.
  - apply Forall_fmap with (f := Segment.easeFactor)
                           (P := fun e => 0 < e /\ e < 1).
    rewrite H. repeat constructor.
Qed.

End ChainRuns.

(** *** The chain stays between its old place and the target *)

Lemma easeToward_between (lo hi c t e : Q) :
  0 <= e -> e <= 1 -> lo <= c -> c <= hi -> lo <= t -> t <= hi ->
  lo <= c + (t - c) * e /\ c + (t - c) * e <= hi.
Proof. intros. split; nra. Qed.

Lemma easeToward_inBox xlo xhi ylo yhi (curr : Segment.t) (tx ty : Q) :
  0 <= Segment.easeFactor curr -> Segment.easeFactor curr <= 1 ->
  inBox xlo xhi ylo yhi curr ->
  xlo <= tx -> tx <= xhi -> ylo <= ty -> ty <= yhi ->
  inBox xlo xhi ylo yhi (easeToward curr tx ty).
Proof.
  intros He0 He1 [[Hx1 Hx2] [Hy1 Hy2]] Htx1 Htx2 Hty1 Hty2.
  unfold inBox, easeToward. cbn [Segment.x Segment.y].
  split; apply easeToward_between; assumption.
Qed.

(** X11.  The chain update never overshoots.  With ease factors between 0
    and 1, a chain that lies in a rectangle is still in it after following
    a target of that rectangle: every segment ends between its old place
    and the place it follows.  In particular a chain that rests on its
    target stays where it is. *)
Theorem chain_stays_in_box
        (xlo xhi ylo yhi tx ty : Q) (segs : list Segment.t) :
  Forall (fun seg => 0 <= Segment.easeFactor seg /\
                     Segment.easeFactor seg <= 1) segs ->
  Forall (inBox xlo xhi ylo yhi) segs ->
  xlo <= tx -> tx <= xhi -> ylo <= ty -> ty <= yhi ->
  Forall (inBox xlo xhi ylo yhi) (followTarget tx ty segs).
Proof.
  intros He Hbox Htx1 Htx2 Hty1 Hty2.
  destruct (followTarget_spec tx ty segs) as (Hlen & Hhead & Htail).
  set (r := followTarget tx ty segs) in *. clearbody r.
  rewrite Forall_lookup in He, Hbox. apply Forall_lookup.
  intros i. induction i as [|i IH]; intros seg Hseg.
  - destruct (segs !! 0%nat) as [first|] eqn:Hf.
    + rewrite (Hhead first eq_refl) in Hseg. injection Hseg as <-.
      destruct (He _ _ Hf). apply easeToward_inBox; eauto.
    + apply lookup_lt_Some in Hseg. apply lookup_ge_None in Hf. lia.
  - assert (Hi : (S i < length segs)%nat)
      by (rewrite <- Hlen; eapply lookup_lt_Some; eassumption).
    destruct (lookup_lt_is_Some_2 segs (S i) Hi) as [curr Hcurr].
    assert (Hj : (i < length r)%nat) by lia.
    destruct (lookup_lt_is_Some_2 r i Hj) as [prev Hprev].
    assert (Hstep : r !! S i
                    = Some (easeToward curr (Segment.x prev) (Segment.y prev))).
    { apply (Htail (S i)); [lia | | exact Hcurr].
      replace (S i - 1)%nat with i by lia. exact Hprev. }
    rewrite Hstep in Hseg. injection Hseg as <-.
    destruct (He _ _ Hcurr). destruct (IH _ Hprev) as [[? ?] [? ?]].
    apply easeToward_inBox; eauto.
Qed.

(** *** Spawning *)

Section Spawning.
Context (host : Host).

Lemma spawnObstacle_spec s img :
  obstacleImage s = Some img ->
  spawnObstacle host s
  = set_obstacles (obstacles s ++ [spawned host s])
      (set_randomCalls (S (S (S (S (randomCalls s))))) s).
Proof.
  intros Hi. unfold spawnObstacle, p_random, spawned. rewrite Hi. sst.
  by_fields s.
Qed.

Lemma spawnTick_spec dt s img :
  obstacleImage s = Some img -> gameOver s = false ->
  spawnTick host dt s
  = (if Qle_bool (nextObstacleDelay s) (obstacleSpawnTimer s + dt)
     then set_nextObstacleDelay
            (scaled (Math_random host (S (S (S (S (randomCalls s))))))
                    900 1600)
            (set_randomCalls (S (S (S (S (S (randomCalls s))))))
               (set_obstacleSpawnTimer 0
                  (set_obstacles (obstacles s ++ [spawned host s]) s)))
     else set_obstacleSpawnTimer (obstacleSpawnTimer s + dt) s).
Proof.
  intros Hi Hg. unfold spawnTick. rewrite Hg. sst.
  destruct (Qle_bool (nextObstacleDelay s) (obstacleSpawnTimer s + dt));
    [|reflexivity].
  rewrite (spawnObstacle_spec _ img)
    by (destruct s; cbn in Hi |- *; exact Hi).
  unfold p_random. sst. by_fields s.
Qed.

Lemma visited_cases f s :
  visited host f s = obstacles s \/
  visited host f s = obstacles s ++ [spawned host s].
Proof.
  unfold visited, spawnTick, spawnObstacle, p_random, spawned.
  crunch; auto.
Qed.

Lemma spawned_wellFormed s :
  (forall n, 0 <= Math_random host n /\ Math_random host n < 1) ->
  wellFormed (spawned host s).
Proof.
  intros Hr. unfold wellFormed, spawned. cbn [Obstacle.size Obstacle.speed
    Obstacle.drift].
  split_and!; apply scaled_range; try apply Hr; reflexivity.
Qed.

(** X12.  A spawned obstacle starts above the canvas, with everything in
    range.  With random numbers in [0, 1), the obstacle picture loaded and
    a canvas at least 80 wide, [spawnObstacle] appends one obstacle and
    draws four random numbers; its size is in [40, 80), its speed in
    [1.2, 2.4), its drift in [-0.4, 0.4), its centre is at height [-size],
    so that even its lower edge [y + size / 2] is above the canvas, and its
    [x] is at least half its size away from both sides of the canvas. *)
Theorem spawned_obstacle_in_range (s : state) (img : Image.t) :
  (forall n, 0 <= Math_random host n /\ Math_random host n < 1) ->
  obstacleImage s = Some img -> 80 <= width s ->
  exists o,
    obstacles (spawnObstacle host s) = obstacles s ++ [o] /\
    randomCalls (spawnObstacle host s) = (randomCalls s + 4)%nat /\
    wellFormed o /\
    Obstacle.y o = - Obstacle.size o /\
    Obstacle.y o + Obstacle.size o / 2 < 0 /\
    Obstacle.size o / 2 <= Obstacle.x o /\
    Obstacle.x o < width s - Obstacle.size o / 2.
Proof.
  intros Hr Hi Hw. exists (spawned host s).
  rewrite (spawnObstacle_spec s img Hi). sst.
  pose proof (spawned_wellFormed s Hr) as Hwf.
  destruct Hwf as ([Hs1 Hs2] & Hsp & Hd).
  split; [reflexivity|]. split; [lia|].
  split; [exact (conj (conj Hs1 Hs2) (conj Hsp Hd))|].
  split; [reflexivity|].
  unfold spawned in *. cbn [Obstacle.size Obstacle.x Obstacle.y] in *.
  set (size := scaled (Math_random host (randomCalls s)) 40 80) in *.
  assert (Hhalf : size / 2 == size * (1 # 2)) by field.
  split; [rewrite Hhalf; lra|].
  apply scaled_range; try apply Hr. rewrite Hhalf. lra.
Qed.

End Spawning.

(** *** Obstacles over a frame *)

Section Field.
Context (host : Host).

(** What a frame leaves in the spawn timer: what [spawnTick] computes
    where the obstacle game runs, nothing new where it does not. *)
Lemma draw_timers f s img :
  obstacleImage s = Some img -> introOverlayActive s = false ->
  let t := spawnTick host (Frame.deltaTime f) s in
  obstacleSpawnTimer (draw host f s) = obstacleSpawnTimer t /\
  nextObstacleDelay (draw host f s) = nextObstacleDelay t /\
  randomCalls (draw host f s) = randomCalls t.
Proof.
  intros Hi Hintro. cbn zeta. rewrite draw_stages.
  destruct (epilogue_keeps f (updateObstacles host f (prologue f s)))
    as (_ & _ & _ & -> & -> & -> & _).
  destruct (prologue_keeps f s) as (Hfix & _).
  unfold fixed in Hfix. injection Hfix as _ _ Hpi _ _ _ Hpintro _ _ _ _.
  unfold updateObstacles. rewrite Hpi, Hi, Hpintro, Hintro.
  destruct (obstacleLoop_cases host img
              (segments (spawnTick host (Frame.deltaTime f) (prologue f s))
                 !! 0%nat)
              (spawnTick host (Frame.deltaTime f) (prologue f s)))
    as (Hun & _).
  cbn zeta in Hun. unfold untouched in Hun.
  injection Hun as _ _ _ _ _ _ _ _ _ -> -> _ _ _ _ -> _.
  destruct (prologue_shape f s) as (c & o & l & h & ->).
  rewrite spawnTick_commutes. sst. auto.
Qed.

(** The obstacles a frame leaves are obstacles it visited, moved or not,
    in the order they had. *)
Lemma draw_obstacles_Forall (P : Obstacle.t -> Prop) f s :
  (forall o, P o -> P (fall o)) ->
  Forall P (obstacles s) -> Forall P (visited host f s) ->
  Forall P (obstacles (draw host f s)) /\
  (length (obstacles (draw host f s)) <= length (visited host f s))%nat.
Proof.
  intros Hfall Hs Hv.
  assert (Hvlen : (length (obstacles s) <= length (visited host f s))%nat).
  { destruct (visited_cases host f s) as [-> | ->];
      rewrite ?length_app; cbn [length]; lia. }
  destruct (obstacleImage s) as [img|] eqn:Hi;
    [destruct (introOverlayActive s) eqn:Hintro|].
  - destruct (draw_guarded host f s (or_introl Hintro)) as (_ & -> & _).
    auto.
  - destruct (draw_sweeps host f s img Hi Hintro)
      as (s1 & -> & Ho1 & Hfix1 & _).
    destruct (epilogue_keeps
                f (obstacleLoop host img (segments s !! 0%nat)
                                (length (obstacles s1)) s1))
      as (_ & _ & -> & _).
    destruct (obstacleLoop_cases host img (segments s !! 0%nat) s1)
      as (_ & Hover & Halive). cbn zeta in Hover, Halive.
    rewrite <- Ho1 in Hv |- *.
    destruct (gameOver s1) eqn:Hg1.
    + destruct (Hover eq_refl) as [-> _]. auto.
    + destruct (Halive eq_refl)
        as [(_ & -> & _) | (pre & o & post & E & _ & _ & -> & _)].
      * split.
        -- apply Forall_forall. intros o Ho.
           apply list_elem_of_In, filter_In in Ho as [Ho _].
           apply in_map_iff in Ho as (o0 & <- & Ho0).
           apply Hfall. rewrite Forall_forall in Hv. apply Hv.
           apply list_elem_of_In. exact Ho0.
        -- etransitivity; [apply filter_length_le|].
           rewrite length_map. lia.
      * rewrite E in Hv |- *.
        apply Forall_app in Hv as [Hpre Hrest].
        apply Forall_cons in Hrest as [Ho Hpost]. split.
        -- apply Forall_app. split; [exact Hpre|].
           apply Forall_cons. split; [apply Hfall, Ho|].
           apply Forall_forall. intros o' Ho'.
           apply list_elem_of_In, filter_In in Ho' as [Ho' _].
           apply in_map_iff in Ho' as (o0 & <- & Ho0).
           apply Hfall. rewrite Forall_forall in Hpost. apply Hpost.
           apply list_elem_of_In. exact Ho0.
        -- rewrite !length_app. cbn [length].
           pose proof (filter_length_le (onScreen (height s1))
                                        (List.map fall post)) as Hle.
           rewrite length_map in Hle. lia.
  - destruct (draw_guarded host f s (or_intror Hi)) as (_ & -> & _).
    auto.
Qed.

(** X13.  The spawn timer.  In a frame of a running round with the
    obstacle picture loaded, the timer grows by the frame's [deltaTime].
    While it stays below the delay nothing else happens to the field: no
    obstacle appears, the delay stays and no random number is drawn.  When
    it reaches the delay, one obstacle is appended after those present,
    the timer starts again from 0 (what it had beyond the delay is
    dropped) and a new delay in [900, 1600) is drawn: five random numbers
    in all. *)
Theorem spawn_timer_runs_out (f : Frame.t) (s : state) :
  phase s = Playing -> obstacleImage s <> None ->
  (forall n, 0 <= Math_random host n /\ Math_random host n < 1) ->
  let s' := draw host f s in
  (spawnDue f s = false ->
   obstacleSpawnTimer s' = obstacleSpawnTimer s + Frame.deltaTime f /\
   nextObstacleDelay s' = nextObstacleDelay s /\
   randomCalls s' = randomCalls s /\
   visited host f s = obstacles s) /\
  (spawnDue f s = true ->
   obstacleSpawnTimer s' = 0 /\
   (900 <= nextObstacleDelay s' /\ nextObstacleDelay s' < 1600) /\
   randomCalls s' = (randomCalls s + 5)%nat /\
   visited host f s = obstacles s ++ [spawned host s] /\
   wellFormed (spawned host s)).
Proof.
  intros Hphase Hi Hr. cbn zeta.
  assert (Hflags : introOverlayActive s = false /\ gameOver s = false).
  { unfold phase in Hphase. destruct (introOverlayActive s);
      [discriminate Hphase|]. destruct (gameOver s);
      [discriminate Hphase | auto]. }
  destruct Hflags as [Hintro Hg].
  destruct (obstacleImage s) as [img|] eqn:Himg; [clear Hi | contradiction].
  destruct (draw_timers f s img Himg Hintro) as (-> & -> & ->).
  unfold visited, spawnDue.
  rewrite (spawnTick_spec host (Frame.deltaTime f) s img Himg Hg).
  split; intros ->; sst.
  - auto.
  - split; [reflexivity|]. split; [apply scaled_range; try apply Hr;
      reflexivity|]. split; [lia|]. split; [reflexivity|].
    apply spawned_wellFormed, Hr.
Qed.

(** X14.  A frame adds at most one obstacle, however long the time since
    the previous frame was; and it adds none while the intro overlay is
    up, after the round has ended, or before the spawn timer has run
    out. *)
Theorem at_most_one_spawn_per_frame (f : Frame.t) (s : state) :
  (length (obstacles (draw host f s)) <= S (length (obstacles s)))%nat /\
  (phase s <> Playing \/ spawnDue f s = false ->
   (length (obstacles (draw host f s)) <= length (obstacles s))%nat).
Proof.
  destruct (draw_obstacles_Forall (fun _ => True) f s) as [_ Hlen];
    [auto | apply Forall_true; auto | apply Forall_true; auto |].
  split.
  - destruct (visited_cases host f s) as [E | E]; rewrite E in Hlen;
      rewrite ?length_app in Hlen; cbn [length] in Hlen; lia.
  - intros H. destruct (introOverlayActive s) eqn:Hintro.
    + destruct (draw_guarded host f s (or_introl Hintro)) as (_ & -> & _).
      lia.
    + destruct (gameOver s) eqn:Hg.
      * destruct (draw_over host f s Hg) as (_ & -> & _). lia.
      * assert (E : visited host f s = obstacles s);
          [|rewrite E in Hlen; exact Hlen].
        destruct H as [H | H];
          [exfalso; apply H; unfold phase; rewrite Hintro, Hg; reflexivity|].
        unfold visited, spawnTick. unfold spawnDue in H.
        rewrite Hg. sst. rewrite H. reflexivity.
Qed.

End Field.

(** *** The obstacle field over whole runs *)

Section FieldRuns.
Context (host : Host).
Hypothesis random_range :
  forall n, 0 <= Math_random host n /\ Math_random host n < 1.

Lemma fall_wellFormed o : wellFormed o -> wellFormed (fall o).
Proof. unfold wellFormed, fall. cbn [Obstacle.size Obstacle.speed
  Obstacle.drift]. auto. Qed.

Lemma step_wellFormed e s :
  Forall wellFormed (obstacles s) ->
  Forall wellFormed (obstacles (step host e s)).
Proof.
  intros H.
  assert (Hframe : forall f s0,
             Forall wellFormed (obstacles s0) ->
             Forall wellFormed (obstacles (draw host f s0))).
  { intros f s0 H0.
    apply (draw_obstacles_Forall host wellFormed f s0);
      [apply fall_wellFormed | exact H0 |].
    destruct (visited_cases host f s0) as [-> | ->]; [exact H0|].
    apply Forall_app. split; [exact H0|].
    apply Forall_cons. split; [|constructor].
    apply spawned_wellFormed, random_range. }
  destruct e as [f|now|value|vw vh f|beta gamma|api|granted|]; cbn [step].
  - apply Hframe, H.
  - rewrite resetGame_shape. sst. constructor.
  - unfold setIntroOverlayState, p_random. destruct value; sst;
      [constructor | exact H].
  - resize_frame Hframe f Hd. apply Hd, H.
  - unfold handleOrientation. sst. exact H.
  - unfold setupGyroSensor. destruct api; sst; exact H.
  - unfold permissionAnswered, console_log. destruct granted; sst; exact H.
  - unfold unmount. sst. exact H.
Qed.

Lemma run_wellFormed es s :
  Forall wellFormed (obstacles s) ->
  Forall wellFormed (obstacles (run host es s)).
Proof.
  revert s. induction es as [|e es IH]; intros s H; cbn [run]; [exact H|].
  apply IH, step_wellFormed, H.
Qed.

End FieldRuns.

Section FieldInvariant.
Context (host : Host).

(** X15.  With random numbers in [0, 1), every obstacle that is ever on
    the field has a size in [40, 80), a speed in [1.2, 2.4) and a drift in
    [-0.4, 0.4): from startup on, after any events; frames move obstacles
    but never change these three. *)
Theorem obstacles_stay_well_formed
        (st : Storage.t) (head pattern year texture obstacle : Load)
        (viewportWidth viewportHeight now : Q) (es : list event) :
  (forall n, 0 <= Math_random host n /\ Math_random host n < 1) ->
  Forall wellFormed
         (obstacles (run host es
                         (boot host st head pattern year texture obstacle
                               viewportWidth viewportHeight now))).
Proof.
  intros Hr. apply (run_wellFormed host Hr).
  destruct (boot_shape host st head pattern year texture obstacle
                       viewportWidth viewportHeight now) as [log ->].
  rewrite resetGame_shape. sst. constructor.
Qed.

End FieldInvariant.

(** *** A frame after the round has ended *)

Lemma untouched_same (s1 s2 : state) :
  untouched s1 = untouched s2 ->
  segments s1 = segments s2 /\ flowOffset s1 = flowOffset s2 /\
  obstacleSpawnTimer s1 = obstacleSpawnTimer s2 /\
  nextObstacleDelay s1 = nextObstacleDelay s2 /\
  lastHudScore s1 = lastHudScore s2 /\ randomCalls s1 = randomCalls s2 /\
  headImage s1 = headImage s2.
Proof.
  destruct s1, s2. unfold untouched. simpl. intros H.
  injection H as -> -> -> -> -> -> -> -> -> -> -> -> -> -> -> -> ->.
  repeat split; reflexivity.
Qed.

(** A state is determined by what no frame writes, what the collision
    branch writes, and the rest of what a frame can change. *)
Lemma redraw_ext (d s : state) (offset : Q) :
  fixed d = fixed s -> outcome d = outcome s ->
  obstacles d = obstacles s -> segments d = segments s ->
  lastHudScore d = lastHudScore s ->
  obstacleSpawnTimer d = obstacleSpawnTimer s ->
  nextObstacleDelay d = nextObstacleDelay s ->
  randomCalls d = randomCalls s -> flowOffset d = offset ->
  d = set_canvas (canvas d) (set_flowOffset offset s).
Proof.
  destruct d, s. unfold fixed, outcome. simpl.
  intros H1 H2 -> -> -> -> -> -> ->.
  injection H1 as -> -> -> -> -> -> -> -> -> -> ->.
  injection H2 as -> -> -> -> -> -> ->. reflexivity.
Qed.

Lemma flowOffset_after_epilogue c g x :
  flowOffset (set_canvas c (set_segments g x)) = flowOffset x.
Proof. reflexivity. Qed.

Lemma flowOffset_after_spawn obs t d r x :
  flowOffset (set_obstacles obs (set_obstacleSpawnTimer t
                (set_nextObstacleDelay d (set_randomCalls r x))))
  = flowOffset x.
Proof. reflexivity. Qed.

Section Over.
Context (host : Host).

Lemma updateObstacles_untouched f s :
  untouched (updateObstacles host f s)
  = untouched (if introOverlayActive s then s
               else match obstacleImage s with
                    | None => s
                    | Some _ => spawnTick host (Frame.deltaTime f) s
                    end).
Proof.
  unfold updateObstacles. destruct (obstacleImage s) as [img|];
    [|destruct (introOverlayActive s); reflexivity].
  destruct (introOverlayActive s); [reflexivity|].
  destruct (obstacleLoop_cases host img
              (segments (spawnTick host (Frame.deltaTime f) s) !! 0%nat)
              (spawnTick host (Frame.deltaTime f) s)) as (Hun & _).
  exact Hun.
Qed.

Lemma draw_flowOffset f s :
  flowOffset (draw host f s)
  = flowOffset s + (if introOverlayActive s then 0.18 else 0.5).
Proof.
  rewrite draw_stages.
  destruct (epilogue_shape f (updateObstacles host f (prologue f s)))
    as (c & E). rewrite E, flowOffset_after_epilogue. clear E.
  pose proof (updateObstacles_untouched f (prologue f s)) as Hun.
  apply untouched_same in Hun as (_ & Hfl & _). rewrite Hfl.
  destruct (prologue_hud f s) as (_ & _ & Hp). rewrite <- Hp.
  destruct (introOverlayActive (prologue f s)); [reflexivity|].
  destruct (obstacleImage (prologue f s)); [|reflexivity].
  destruct (spawnTick_shape host (Frame.deltaTime f) (prologue f s))
    as (a1 & a2 & a3 & a4 & E).
  rewrite E. apply flowOffset_after_spawn.
Qed.

(** X16.  Once the round has ended a frame only redraws: it advances the
    offset of the flowing background lines (by 0.5, or by 0.18 under the
    intro overlay) and repaints the canvas; score, best score, HUD,
    obstacles, chain, spawn timer, random numbers, store and console stay
    exactly as they are. *)
Theorem frame_after_game_over_only_redraws (f : Frame.t) (s : state) :
  gameOver s = true ->
  draw host f s
  = set_canvas (canvas (draw host f s))
      (set_flowOffset
         (flowOffset s + (if introOverlayActive s then 0.18 else 0.5)) s).
Proof.
  intros Hg.
  destruct (draw_over host f s Hg) as (Hout & Hobs & Hseg).
  pose proof (draw_lastHudScore host f s) as Hlast.
  destruct (prologue_hud f s) as (Hpl & _). cbn zeta in Hpl.
  rewrite Hg in Hpl. cbn [negb andb] in Hpl. rewrite Hpl in Hlast.
  assert (Ht : obstacleSpawnTimer (draw host f s) = obstacleSpawnTimer s /\
               nextObstacleDelay (draw host f s) = nextObstacleDelay s /\
               randomCalls (draw host f s) = randomCalls s).
  { destruct (introOverlayActive s) eqn:Hintro.
    - destruct (draw_guarded host f s (or_introl Hintro))
        as (_ & _ & ? & ? & ?). auto.
    - destruct (obstacleImage s) as [img|] eqn:Hi.
      + destruct (draw_timers host f s img Hi Hintro) as (E1 & E2 & E3).
        unfold spawnTick in E1, E2, E3. rewrite Hg in E1, E2, E3. auto.
      + destruct (draw_guarded host f s (or_intror Hi))
          as (_ & _ & ? & ? & ?). auto. }
  destruct Ht as (Ht1 & Ht2 & Ht3).
  exact (redraw_ext _ _ _ (draw_fixed host f s) Hout Hobs Hseg Hlast
                    Ht1 Ht2 Ht3 (draw_flowOffset f s)).
Qed.

End Over.

(** *** Drawing *)

Lemma cover_wide (w h a : Q) :
  0 < h -> w / h < a -> w <= a * h.
Proof.
  intros Hh Hlt. apply Qlt_le_weak.
  assert (E : w / h * h == w) by (field; intros E; rewrite E in Hh;
                                  apply (Qlt_irrefl 0), Hh).
  rewrite <- E. apply Qmult_lt_r; [exact Hh | exact Hlt].
Qed.

Lemma cover_tall (w h a : Q) :
  0 < h -> 0 < a -> a <= w / h -> h <= w / a.
Proof.
  intros Hh Ha Hle. apply Qle_shift_div_l; [exact Ha|].
  assert (E : w / h * h == w) by (field; intros E; rewrite E in Hh;
                                  apply (Qlt_irrefl 0), Hh).
  rewrite <- E, (Qmult_comm h a). apply Qmult_le_r; [exact Hh | exact Hle].
Qed.

(** X17.  The background texture covers the canvas.  With a canvas and a
    texture of positive size, [drawScreenTexture] draws the texture once,
    in the proportions of the picture, with one side equal to the canvas's
    and the other at least as long: nothing of the canvas is left
    uncovered, and nothing else changes. *)
Theorem texture_covers_canvas (s : state) (texture : Image.t) :
  backgroundTexture s = Some texture ->
  0 < width s -> 0 < height s ->
  0 < Image.width texture -> 0 < Image.height texture ->
  exists drawWidth drawHeight,
    drawScreenTexture s
    = set_canvas (canvas s ++ [ScreenTexture drawWidth drawHeight]) s /\
    width s <= drawWidth /\ height s <= drawHeight /\
    (drawWidth = width s \/ drawHeight = height s) /\
    drawWidth * Image.height texture == drawHeight * Image.width texture.
Proof.
  intros Ht Hw Hh Htw Hth. unfold drawScreenTexture. rewrite Ht.
  assert (Hth0 : ~ Image.height texture == 0)
    by (intros E; rewrite E in Hth; apply (Qlt_irrefl 0), Hth).
  assert (Htw0 : ~ Image.width texture == 0)
    by (intros E; rewrite E in Htw; apply (Qlt_irrefl 0), Htw).
  assert (Ha : 0 < Image.width texture / Image.height texture)
    by (apply Qlt_shift_div_l; [exact Hth | rewrite Qmult_0_l; exact Htw]).
  destruct (Qltb (width s / height s)
                 (Image.width texture / Image.height texture)) eqn:E.
  - apply Qltb_lt in E. eexists _, _. split; [reflexivity|].
    split; [apply cover_wide; assumption|]. split; [apply Qle_refl|].
    split; [right; reflexivity|]. field. exact Hth0.
  - apply Qltb_ge in E. eexists _, _. split; [reflexivity|].
    split; [apply Qle_refl|]. split; [apply cover_tall; assumption|].
    split; [left; reflexivity|]. field. split; assumption.
Qed.

Lemma joins_snoc (l : list Segment.t) (prev curr : Segment.t) :
  joins ((l ++ [prev]) ++ [curr])
  = joins (l ++ [prev])
    ++ [BodyLine (Segment.x curr) (Segment.y curr)
                 (Segment.x prev) (Segment.y prev)].
Proof.
  induction l as [|a l IH]; [reflexivity|].
  destruct l as [|b l]; [reflexivity|].
  change (joins (((a :: b :: l) ++ [prev]) ++ [curr]))
    with (BodyLine (Segment.x b) (Segment.y b) (Segment.x a) (Segment.y a)
            :: joins (((b :: l) ++ [prev]) ++ [curr])).
  rewrite IH. reflexivity.
Qed.

Lemma strokeLoop_joins (i : nat) (segs : list Segment.t) :
  (i < length segs)%nat ->
  strokeLoop i segs = rev (joins (take (S i) segs)).
Proof.
  induction i as [|j IH]; intros Hi.
  - destruct segs as [|a segs]; reflexivity.
  - destruct (lookup_lt_is_Some_2 segs (S j) Hi) as [curr Hc].
    destruct (lookup_lt_is_Some_2 segs j ltac:(lia)) as [prev Hp].
    cbn [strokeLoop]. rewrite Hc, Hp, IH by lia.
    rewrite (take_S_r segs (S j) curr Hc), (take_S_r segs j prev Hp).
    rewrite joins_snoc, rev_app_distr. reflexivity.
Qed.

(** X18.  The body is drawn as the lines between neighbouring segments,
    the one at the tail first: [drawBodyStroke] appends to the canvas one
    line for each pair of neighbours, from each segment to the one before
    it, in the order opposite to the chain's; with fewer than two segments
    it draws nothing. *)
Theorem body_joins_neighbours (s : state) :
  drawBodyStroke s = set_canvas (canvas s ++ rev (joins (segments s))) s /\
  length (joins (segments s)) = (length (segments s) - 1)%nat.
Proof.
  split.
  - unfold drawBodyStroke.
    destruct (length (segments s) <? 2)%nat eqn:E.
    + apply Nat.ltb_lt in E.
      destruct (segments s) as [|a [|b l]]; cbn [length] in E; try lia;
        cbn [joins rev]; rewrite app_nil_r; by_fields s.
    + apply Nat.ltb_ge in E.
      rewrite strokeLoop_joins by lia.
      replace (S (length (segments s) - 1)) with (length (segments s))
        by lia.
      rewrite firstn_all. reflexivity.
  - induction (segments s) as [|a l IH]; [reflexivity|].
    destruct l as [|b l]; [reflexivity|].
    cbn [joins length] in *. lia.
Qed.

(** *** Startup and the start button *)

Section Start.
Context (host : Host).

(** X19.  The state the component starts in.  After mounting, loading
    and [setup] the intro overlay is up and no round has ended; the canvas
    is 800 wide on a desktop and as wide as the viewport on a mobile
    device, and as high as the viewport; the chain rests at its centre;
    score and spawn timer are 0, the round clock starts at the time of
    [setup], and the first spawn delay has been drawn from the first
    random number, replacing the initial 1200; nothing has been drawn,
    the sensor is off, and the HUD shows no game over, score 0 and the
    best score read from the store. *)
Theorem startup_state
        (st : Storage.t) (head pattern year texture obstacle : Load)
        (viewportWidth viewportHeight now : Q) :
  let s0 := boot host st head pattern year texture obstacle
                 viewportWidth viewportHeight now in
  phase s0 = Intro /\ gameOver s0 = false /\
  width s0 = (if isMobileDevice host then viewportWidth else 800) /\
  height s0 = viewportHeight /\
  segments s0 = homeChain (width s0) (height s0) /\
  obstacles s0 = [] /\ score s0 = 0 /\ obstacleSpawnTimer s0 = 0 /\
  roundStartTime s0 = now /\
  nextObstacleDelay s0 = scaled (Math_random host 0) 900 1600 /\
  randomCalls s0 = 1%nat /\
  canvas s0 = [] /\ flowOffset s0 = 0 /\ useGyro s0 = false /\
  vibrations s0 = 0%nat /\ isMounted s0 = true /\
  hudState s0
  = {| HudState.gameOver := false; HudState.score := 0;
       HudState.bestScore := normalizeScore (Fin (bestScore s0)) |} /\
  headImage s0 = handle head /\
  backgroundTexture s0 = handle texture /\
  obstacleImage s0 = handle obstacle.
Proof.
  cbn zeta.
  destruct (boot_shape host st head pattern year texture obstacle
                       viewportWidth viewportHeight now) as [log ->].
  rewrite resetGame_shape, (mount_shape host st). unfold phase. sst.
  repeat split; reflexivity.
Qed.

Lemma setIntroOverlayState_false s :
  setIntroOverlayState host false s
  = set_nextObstacleDelay
      (scaled (Math_random host (randomCalls s)) 900 1600)
      (set_randomCalls (S (randomCalls s))
         (set_obstacleSpawnTimer 0 (set_introOverlayActive false s))).
Proof. unfold setIntroOverlayState, p_random. sst. by_fields s. Qed.

(** X20.  The start button begins a round.  Whatever the state before,
    [handleStartClick] leaves a running round: overlay down, game-over
    flag down, score 0, no obstacles, the chain at the centre, the round
    clock and the spawn timer restarted.  Two spawn delays are drawn, one
    by the reset and one when the overlay goes down, and the second is
    the one that counts.  The best score is kept.  The sensor is switched
    on at once only on a mobile device whose orientation events need no
    permission; on a desktop it is never asked for. *)
Theorem start_click_begins_round
        (api : OrientationApi) (now : Q) (s : state) :
  let s' := handleStartClick host api now s in
  phase s' = Playing /\ score s' = 0 /\ obstacles s' = [] /\
  segments s' = homeChain (width s) (height s) /\
  roundStartTime s' = now /\ obstacleSpawnTimer s' = 0 /\
  nextObstacleDelay s'
  = scaled (Math_random host (S (randomCalls s))) 900 1600 /\
  randomCalls s' = (randomCalls s + 2)%nat /\
  bestScore s' = bestScore s /\ sessionStorage s' = sessionStorage s /\
  useGyro s'
  = (useGyro s
     || (isMobileDevice host
         && match api with Ungated => true | _ => false end)) /\
  console s'
  = console s
    ++ [if isMobileDevice host
        then "Requesting gyro activation on start..."%string
        else "Non-mobile device detected; skipping gyro activation."%string].
Proof.
  cbn zeta. unfold handleStartClick.
  rewrite setIntroOverlayState_false, resetGame_shape. unfold phase. sst.
  destruct (isMobileDevice host); [destruct api|];
    unfold setupGyroSensor, console_log; sst;
    rewrite ?orb_false_r, ?orb_true_r;
    (repeat split; try reflexivity; lia).
Qed.

End Start.

(** *** Rounding the score *)

(** X21.  [normalizeScore] rounds to one decimal.  The result is a whole
    number of tenths, at most a twentieth away from the value; a value
    that is already rounded is left alone, so rounding twice is rounding
    once; a value that is not negative is not rounded below 0; and a
    value that is not a finite number gives 0. *)
Theorem normalizeScore_rounds_to_tenths (v : Q) :
  (exists k : Z, normalizeScore (Fin v) == inject_Z k / 10) /\
  (normalizeScore (Fin v) - 1 / 20 <= v /\
   v <= normalizeScore (Fin v) + 1 / 20) /\
  normalizeScore (Fin (normalizeScore (Fin v))) == normalizeScore (Fin v) /\
  (0 <= v -> 0 <= normalizeScore (Fin v)) /\
  normalizeScore NaN = 0 /\ normalizeScore Infinity = 0 /\
  normalizeScore NegInfinity = 0.
Proof.
  cbn [normalizeScore]. split; [apply toFixed1_tenths|].
  split; [apply toFixed1_near|]. split; [apply toFixed1_idem|].
  split; [apply toFixed1_nonneg|]. auto.
Qed.

(** *** The head picture *)

Section Head.
Context (host : Host).

Lemma drawHead_last x img hd :
  headImage x = Some img -> segments x !! 0%nat = Some hd ->
  last (canvas (drawHead x))
  = Some (HeadImage (Segment.x hd) (Segment.y hd)).
Proof.
  intros Hi Hs. unfold drawHead. rewrite Hi, Hs. sst. apply last_snoc.
Qed.

Lemma drawHead_segments x : segments (drawHead x) = segments x.
Proof.
  unfold drawHead. destruct (headImage x); [|reflexivity].
  destruct (segments x !! 0%nat); reflexivity.
Qed.

Lemma drawBodyStroke_keeps x :
  headImage (drawBodyStroke x) = headImage x /\
  segments (drawBodyStroke x) = segments x.
Proof.
  unfold drawBodyStroke. destruct (length (segments x) <? 2)%nat; auto.
Qed.

Lemma epilogue_head f s img hd :
  headImage s = Some img -> segments (epilogue f s) !! 0%nat = Some hd ->
  last (canvas (epilogue f s))
  = Some (HeadImage (Segment.x hd) (Segment.y hd)).
Proof.
  intros Hi. unfold epilogue.
  destruct (segments s) as [|a l] eqn:Hs.
  - rewrite Hs. intros H. discriminate H.
  - set (s' := if negb (gameOver s)
               then let '(targetX, targetY) := target f s in
                    set_segments (followTarget targetX targetY (a :: l)) s
               else s).
    assert (Hi' : headImage s' = Some img).
    { unfold s'. destruct (gameOver s); [exact Hi|].
      cbn [negb]. destruct (target f s). exact Hi. }
    clearbody s'. destruct (drawBodyStroke_keeps s') as [Hh Hsg].
    rewrite drawHead_segments, Hsg. intros H.
    apply drawHead_last with (img := img); congruence.
Qed.

(** X22.  The head picture is the last thing a frame draws, and it is
    drawn where the head is after the frame's chain update: on top of the
    body and of the obstacles. *)
Theorem head_drawn_last
        (f : Frame.t) (s : state) (img : Image.t) (hd : Segment.t) :
  headImage s = Some img ->
  segments (draw host f s) !! 0%nat = Some hd ->
  last (canvas (draw host f s))
  = Some (HeadImage (Segment.x hd) (Segment.y hd)).
Proof.
  rewrite draw_stages. intros Hi. apply epilogue_head with (img := img).
  pose proof (updateObstacles_untouched host f (prologue f s)) as Hun.
  apply untouched_same in Hun as (_ & _ & _ & _ & _ & _ & Hh).
  assert (E : headImage (updateObstacles host f (prologue f s))
              = headImage (prologue f s)).
  { rewrite Hh. destruct (introOverlayActive (prologue f s)); [reflexivity|].
    destruct (obstacleImage (prologue f s)); [|reflexivity].
    destruct (spawnTick_shape host (Frame.deltaTime f) (prologue f s))
      as (a1 & a2 & a3 & a4 & E).
    rewrite E. reflexivity. }
  rewrite E. destruct (prologue_keeps f s) as (Hfix & _).
  unfold fixed in Hfix. injection Hfix as -> _ _ _ _ _ _ _ _ _ _. exact Hi.
Qed.

End Head.

(** *** The further properties at work on the example session *)

Lemma hud_mirrors_game_witness :
  let es := [Draw (exampleFrame 16 16); ResetGame 1000;
             SetIntroOverlay false; Draw (exampleFrame 1016 16);
             WindowResized 1024 700 (exampleFrame 6000 16)] in
  Forall (fun e => isUnmount e = false) es /\
  hudMirror (run exampleHost es exampleBoot).
Proof.
  cbn zeta.
  assert (Hes : Forall (fun e => isUnmount e = false)
                       [Draw (exampleFrame 16 16); ResetGame 1000;
                        SetIntroOverlay false; Draw (exampleFrame 1016 16);
                        WindowResized 1024 700 (exampleFrame 6000 16)])
    by (repeat constructor).
  split; [exact Hes|]. unfold exampleBoot.
  exact (hud_mirrors_game exampleHost emptyStorage (loaded 320 324)
           (loaded 64 64) (loaded 400 200) (loaded 1600 900) (loaded 120 60)
           1280 600 0 _ Hes).
Defined.

Lemma hud_frozen_after_unmount_witness :
  let es := [Draw (exampleFrame 4446 16); ResetGame 5000] in
  isMounted (unmount exampleDanger) = false /\
  hudState (run exampleHost es (unmount exampleDanger))
  = hudState (unmount exampleDanger) /\
  gameOver (run exampleHost [Draw (exampleFrame 4446 16)]
                (unmount exampleDanger)) = true.
Proof.
  cbn zeta.
  assert (H : isMounted (unmount exampleDanger) = false)
    by (vm_compute; reflexivity).
  split; [exact H|].
  destruct (hud_frozen_after_unmount exampleHost
              [Draw (exampleFrame 4446 16); ResetGame 5000]
              (unmount exampleDanger) H) as [Hh _].
  split; [exact Hh | vm_compute; reflexivity].
Defined.

Lemma store_written_only_at_round_end_witness :
  let s' := run exampleHost [Draw (exampleFrame 4446 16)] exampleDanger in
  Storage.items (sessionStorage s') !! "theme"%string
  = Storage.items (sessionStorage exampleDanger) !! "theme"%string.
Proof.
  cbn zeta.
  destruct (store_written_only_at_round_end exampleHost
              [Draw (exampleFrame 4446 16)] exampleDanger)
    as (ws & _ & _ & _ & Hk & _).
  apply Hk. vm_compute. discriminate.
Defined.

Lemma best_score_survives_reload_witness :
  let s' := draw exampleHost (exampleFrame 4446 16) exampleDanger in
  gameOver exampleDanger = false /\ gameOver s' = true /\
  bestScore exampleDanger < bestScore s' /\
  bestScore (mount exampleHost (sessionStorage s')) == bestScore s'.
Proof.
  cbn zeta.
  assert (H1 : gameOver exampleDanger = false) by (vm_compute; reflexivity).
  assert (H2 : gameOver (draw exampleHost (exampleFrame 4446 16)
                              exampleDanger) = true)
    by (vm_compute; reflexivity).
  destruct (best_score_survives_reload exampleHost emptyStorage
              (exampleFrame 4446 16) exampleDanger) as [_ Hback].
  split; [exact H1|]. split; [exact H2|].
  split; [vm_compute; reflexivity|].
  apply Hback.
  - exact H1.
  - exact H2.
  - vm_compute. reflexivity.
  - vm_compute. reflexivity.
  - vm_compute. reflexivity.
  - vm_compute. discriminate.
  - eexists. split; [vm_compute; reflexivity|]. vm_compute. reflexivity.
Defined.

Lemma tilt_maps_onto_canvas_witness :
  let s' := handleOrientation (Some 120) (Some (-45)) examplePlaying in
  (0 <= gyroX s' /\ gyroX s' <= width examplePlaying) /\
  gyroX s' == 200 /\ gyroY s' == 600.
Proof.
  cbn zeta.
  destruct (tilt_maps_onto_canvas (Some 120) (Some (-45))
              (exampleFrame 1016 16) examplePlaying)
    as (Hx & _ & _ & _ & Hg & _ & _ & _ & Hb & _);
    [vm_compute; discriminate | vm_compute; discriminate |].
  split; [exact Hx|]. split.
  - eapply Qeq_trans;
      [apply (Hg (-45) eq_refl); vm_compute; discriminate|].
    vm_compute. reflexivity.
  - eapply Qeq_trans; [apply (Hb 120 eq_refl); vm_compute; discriminate|].
    vm_compute. reflexivity.
Defined.

Lemma chain_stays_in_box_witness :
  Forall (inBox 0 800 0 600) (followTarget 500 300 (homeChain 800 600)).
Proof.
  apply chain_stays_in_box.
  - unfold homeChain. cbn [initSegments_loop numSegments app].
    repeat constructor; cbn [Segment.easeFactor]; vm_compute; discriminate.
  - unfold homeChain. cbn [initSegments_loop numSegments app].
    repeat constructor; cbn [Segment.x Segment.y]; vm_compute; discriminate.
  - vm_compute. discriminate.
  - vm_compute. discriminate.
  - vm_compute. discriminate.
  - vm_compute. discriminate.
Defined.

Lemma spawned_obstacle_in_range_witness :
  exists o,
    obstacles (spawnObstacle exampleHost examplePlaying)
    = obstacles examplePlaying ++ [o] /\
    wellFormed o /\ Obstacle.y o + Obstacle.size o / 2 < 0.
Proof.
  destruct (spawned_obstacle_in_range exampleHost examplePlaying
              {| Image.width := 120; Image.height := 60;
                 Image.blank := false |}
              exampleRandom_range)
    as (o & Ho & _ & Hwf & _ & Habove & _);
    [vm_compute; reflexivity | vm_compute; discriminate |].
  exists o. auto.
Defined.

Lemma spawn_timer_runs_out_witness :
  let f := exampleFrame 3000 2000 in
  let s' := draw exampleHost f examplePlaying in
  phase examplePlaying = Playing /\ spawnDue f examplePlaying = true /\
  obstacleSpawnTimer s' = 0 /\
  900 <= nextObstacleDelay s' /\ nextObstacleDelay s' < 1600 /\
  randomCalls s' = (randomCalls examplePlaying + 5)%nat.
Proof.
  cbn zeta.
  assert (Hp : phase examplePlaying = Playing) by (vm_compute; reflexivity).
  assert (Hd : spawnDue (exampleFrame 3000 2000) examplePlaying = true)
    by (vm_compute; reflexivity).
  destruct (spawn_timer_runs_out exampleHost (exampleFrame 3000 2000)
              examplePlaying Hp) as [_ Hdue];
    [vm_compute; discriminate | exact exampleRandom_range |].
  destruct (Hdue Hd) as (Ht & [Hlo Hhi] & Hr & _).
  auto 10.
Defined.

Lemma at_most_one_spawn_per_frame_witness :
  let f := exampleFrame 1016 16 in
  spawnDue f exampleLow = false /\
  (length (obstacles (draw exampleHost f exampleLow))
   <= length (obstacles exampleLow))%nat.
Proof.
  cbn zeta.
  assert (Hd : spawnDue (exampleFrame 1016 16) exampleLow = false)
    by (vm_compute; reflexivity).
  split; [exact Hd|].
  destruct (at_most_one_spawn_per_frame exampleHost (exampleFrame 1016 16)
              exampleLow) as [_ Hnone].
  apply Hnone. right. exact Hd.
Defined.

Lemma obstacles_stay_well_formed_witness :
  let es := [ResetGame 1000; SetIntroOverlay false;
             Draw (exampleFrame 3000 2000); Draw (exampleFrame 3016 16)] in
  obstacles (run exampleHost es exampleBoot) <> [] /\
  Forall wellFormed (obstacles (run exampleHost es exampleBoot)).
Proof.
  cbn zeta. split; [vm_compute; discriminate|]. unfold exampleBoot.
  exact (obstacles_stay_well_formed exampleHost emptyStorage (loaded 320 324)
           (loaded 64 64) (loaded 400 200) (loaded 1600 900) (loaded 120 60)
           1280 600 0 _ exampleRandom_range).
Defined.

Lemma frame_after_game_over_only_redraws_witness :
  let over := draw exampleHost (exampleFrame 4446 16) exampleDanger in
  let s' := draw exampleHost (exampleFrame 9000 16) over in
  gameOver over = true /\
  s' = set_canvas (canvas s') (set_flowOffset (flowOffset over + 0.5) over).
Proof.
  cbn zeta.
  assert (H : gameOver (draw exampleHost (exampleFrame 4446 16) exampleDanger)
              = true) by (vm_compute; reflexivity).
  split; [exact H|].
  pose proof (frame_after_game_over_only_redraws exampleHost
                (exampleFrame 9000 16) _ H) as E.
  replace (introOverlayActive
             (draw exampleHost (exampleFrame 4446 16) exampleDanger))
    with false in E by (vm_compute; reflexivity).
  cbv iota in E. exact E.
Defined.

Lemma texture_covers_canvas_witness :
  exists drawWidth drawHeight,
    drawScreenTexture examplePlaying
    = set_canvas (canvas examplePlaying
                  ++ [ScreenTexture drawWidth drawHeight]) examplePlaying /\
    width examplePlaying <= drawWidth /\ height examplePlaying <= drawHeight.
Proof.
  destruct (texture_covers_canvas examplePlaying
              {| Image.width := 1600; Image.height := 900;
                 Image.blank := false |})
    as (dw & dh & E & Hw & Hh & _);
    [vm_compute; reflexivity | vm_compute; reflexivity
    | vm_compute; reflexivity | vm_compute; reflexivity
    | vm_compute; reflexivity |].
  exists dw, dh. auto.
Defined.

Lemma normalizeScore_rounds_to_tenths_witness :
  0 <= normalizeScore (Fin 3.446) /\
  normalizeScore (Fin (normalizeScore (Fin 3.446)))
  == normalizeScore (Fin 3.446).
Proof.
  destruct (normalizeScore_rounds_to_tenths 3.446)
    as (_ & _ & Hidem & Hpos & _).
  split; [apply Hpos; vm_compute; discriminate | exact Hidem].
Defined.

Lemma head_drawn_last_witness :
  let s' := draw exampleHost (exampleFrame 1016 16) examplePlaying in
  exists hd,
    segments s' !! 0%nat = Some hd /\
    last (canvas s') = Some (HeadImage (Segment.x hd) (Segment.y hd)).
Proof.
  cbn zeta.
  destruct (segments (draw exampleHost (exampleFrame 1016 16) examplePlaying)
              !! 0%nat) as [hd|] eqn:Hhd;
    [|vm_compute in Hhd; discriminate].
  exists hd. split; [reflexivity|].
  apply (head_drawn_last exampleHost (exampleFrame 1016 16) examplePlaying
           {| Image.width := 320; Image.height := 324;
                 Image.blank := false |} hd);
    [vm_compute; reflexivity | exact Hhd].
Defined.

(** *** Phases *)

Section Phases.
Context (host : Host).

Lemma draw_flags f s :
  introOverlayActive (draw host f s) = introOverlayActive s /\
  (gameOver (draw host f s) = gameOver s \/
   introOverlayActive s = false /\ gameOver s = false /\
   gameOver (draw host f s) = true).
Proof.
  pose proof (draw_fixed host f s) as Hfix. unfold fixed in Hfix.
  injection Hfix as _ _ _ _ _ _ Hintro _ _ _ _. split; [exact Hintro|].
  destruct (draw_effect host f s) as [(Hg & _) | (Hg & Hg' & _)];
    [left; exact Hg|].
  right. split; [|auto].
  destruct (introOverlayActive s) eqn:Hi; [|reflexivity].
  destruct (draw_guarded host f s (or_introl Hi)) as (Hout & _).
  apply outcome_same in Hout as (E & _).
  destruct (prologue_keeps f s) as (_ & _ & _ & Hpg & _).
  rewrite Hg', Hpg, Hg in E. discriminate E.
Qed.

Lemma step_flags e s :
  introOverlayActive (step host e s)
  = match e with
    | SetIntroOverlay value => value
    | _ => introOverlayActive s
    end /\
  (gameOver (step host e s)
   = match e with ResetGame _ => false | _ => gameOver s end \/
   match e with Draw _ | WindowResized _ _ _ => True | _ => False end /\
   introOverlayActive s = false /\
   gameOver s = false /\ gameOver (step host e s) = true).
Proof.
  pose proof draw_flags as Hframe.
  destruct e as [f|now|value|vw vh f|beta gamma|api|granted|];
    try (quiet_event Hout Hlast;
         apply outcome_fields in Hout as (Hg & _); rewrite Hg;
         split; [|left; reflexivity]).
  - cbn [step]. destruct (Hframe f s) as [Hi [Hg | Hg]]; auto.
  - cbn [step]. rewrite resetGame_shape. sst. auto.
  - cbn [step]. unfold setIntroOverlayState, p_random.
    destruct value; reflexivity.
  - cbn [step]. resize_frame Hframe f Hd.
    destruct Hd as [Hi [Hg | Hg]]; auto.
  - reflexivity.
  - cbn [step]. unfold setupGyroSensor. destruct api; reflexivity.
  - cbn [step]. unfold permissionAnswered, console_log.
    destruct granted; reflexivity.
  - reflexivity.
Qed.

(** X23.  The phases form the machine of [nextPhases].  A frame can only
    take a running round to game over and changes no other phase, and so
    does a resize, which redraws one frame before it puts the chain back
    at the centre; a reset takes game over back to a running round and
    does not lower the intro overlay; the overlay switch alone enters and
    leaves the intro; sensor events and unmounting change no phase. *)
Theorem phases_follow_the_machine (e : event) (s : state) :
  phase (step host e s) ∈ nextPhases e (phase s).
Proof.
  destruct (step_flags e s) as [Hi Hg]. unfold phase. rewrite Hi.
  destruct Hg as [Hg | (He & Hi0 & Hg0 & Hg1)].
  - rewrite Hg.
    destruct e as [f|now|value|vw vh f|beta gamma|api|granted|];
      cbn [nextPhases]; try destruct value;
      destruct (introOverlayActive s), (gameOver s); repeat constructor.
  - rewrite Hg1.
    destruct e as [f|now|value|vw vh f|beta gamma|api|granted|];
      try contradiction; rewrite Hi0, Hg0; cbn [nextPhases];
      repeat constructor.
Qed.

End Phases.

(** *** The spawn delay *)

Section Delay.
Context (host : Host).
Hypothesis random_range :
  forall n, 0 <= Math_random host n /\ Math_random host n < 1.

Lemma delay_drawn n :
  900 <= scaled (Math_random host n) 900 1600 /\
  scaled (Math_random host n) 900 1600 < 1600.
Proof. apply scaled_range; try apply random_range. reflexivity. Qed.

Lemma step_delay e s :
  900 <= nextObstacleDelay s /\ nextObstacleDelay s < 1600 ->
  900 <= nextObstacleDelay (step host e s) /\
  nextObstacleDelay (step host e s) < 1600.
Proof.
  intros H.
  assert (Hframe : forall f s0,
             900 <= nextObstacleDelay s0 /\ nextObstacleDelay s0 < 1600 ->
             900 <= nextObstacleDelay (draw host f s0) /\
             nextObstacleDelay (draw host f s0) < 1600).
  { intros f s0 H0. destruct (introOverlayActive s0) eqn:Hintro.
    + destruct (draw_guarded host f s0 (or_introl Hintro))
        as (_ & _ & _ & -> & _). exact H0.
    + destruct (obstacleImage s0) as [img|] eqn:Hi.
      * destruct (draw_timers host f s0 img Hi Hintro) as (_ & -> & _).
        destruct (gameOver s0) eqn:Hg.
        -- unfold spawnTick. rewrite Hg. exact H0.
        -- rewrite (spawnTick_spec host _ s0 img Hi Hg).
           destruct (Qle_bool _ _); sst; [apply delay_drawn | exact H0].
      * destruct (draw_guarded host f s0 (or_intror Hi))
          as (_ & _ & _ & -> & _). exact H0. }
  destruct e as [f|now|value|vw vh f|beta gamma|api|granted|]; cbn [step].
  - apply Hframe, H.
  - rewrite resetGame_shape. sst. apply delay_drawn.
  - destruct value; [unfold setIntroOverlayState; sst; exact H|].
    rewrite setIntroOverlayState_false. sst. apply delay_drawn.
  - resize_frame Hframe f Hd. apply Hd, H.
  - unfold handleOrientation. sst. exact H.
  - unfold setupGyroSensor. destruct api; sst; exact H.
  - unfold permissionAnswered, console_log. destruct granted; sst; exact H.
  - unfold unmount. sst. exact H.
Qed.

Lemma run_delay es s :
  900 <= nextObstacleDelay s /\ nextObstacleDelay s < 1600 ->
  900 <= nextObstacleDelay (run host es s) /\
  nextObstacleDelay (run host es s) < 1600.
Proof.
  revert s. induction es as [|e es IH]; intros s H; cbn [run]; [exact H|].
  apply IH, step_delay, H.
Qed.

End Delay.

Section Waiting.
Context (host : Host).

(** X24.  With random numbers in [0, 1), the spawn delay is in
    [900, 1600) from startup on, after any events.  So in a running round
    with the obstacle picture loaded, a frame that comes 1600 ms or more
    after the previous one always brings a new obstacle. *)
Theorem spawn_delay_stays_in_range
        (st : Storage.t) (head pattern year texture obstacle : Load)
        (viewportWidth viewportHeight now : Q) (es : list event)
        (f : Frame.t) :
  (forall n, 0 <= Math_random host n /\ Math_random host n < 1) ->
  let s := run host es (boot host st head pattern year texture obstacle
                             viewportWidth viewportHeight now) in
  (900 <= nextObstacleDelay s /\ nextObstacleDelay s < 1600) /\
  (phase s = Playing -> obstacleImage s <> None ->
   0 <= obstacleSpawnTimer s -> 1600 <= Frame.deltaTime f ->
   visited host f s = obstacles s ++ [spawned host s]).
Proof.
  intros Hr. cbn zeta.
  assert (Hd : 900 <= nextObstacleDelay
                        (run host es
                             (boot host st head pattern year texture obstacle
                                   viewportWidth viewportHeight now)) /\
               nextObstacleDelay
                 (run host es
                      (boot host st head pattern year texture obstacle
                            viewportWidth viewportHeight now)) < 1600).
  { apply (run_delay host Hr).
    destruct (boot_shape host st head pattern year texture obstacle
                         viewportWidth viewportHeight now) as [log ->].
    rewrite resetGame_shape. sst. apply (delay_drawn host Hr). }
  split; [exact Hd|].
  revert Hd. generalize (run host es
                             (boot host st head pattern year texture obstacle
                                   viewportWidth viewportHeight now)).
  intros s [_ Hhi] Hphase Hi Ht Hdt.
  assert (Hflags : introOverlayActive s = false /\ gameOver s = false).
  { unfold phase in Hphase. destruct (introOverlayActive s);
      [discriminate Hphase|]. destruct (gameOver s);
      [discriminate Hphase | auto]. }
  destruct Hflags as [Hintro Hg].
  destruct (obstacleImage s) as [img|] eqn:Himg; [|contradiction].
  unfold visited. rewrite (spawnTick_spec host _ s img Himg Hg).
  assert (Hdue : Qle_bool (nextObstacleDelay s)
                          (obstacleSpawnTimer s + Frame.deltaTime f) = true).
  { apply Qle_bool_iff. lra. }
  rewrite Hdue. reflexivity.
Qed.

(** X25.  The intro is not a pause for the score and the chain.  Under the
    intro overlay, while no round has ended, a frame still sets the score
    to the seconds since the round clock was started and still moves the
    chain toward the target; only the obstacle field stands still. *)
Theorem intro_frames_keep_scoring (f : Frame.t) (s : state) :
  phase s = Intro -> gameOver s = false ->
  score (draw host f s) = elapsedSeconds f s /\
  gameOver (draw host f s) = false /\
  segments (draw host f s)
  = followTarget (target f s).1 (target f s).2 (segments s) /\
  obstacles (draw host f s) = obstacles s /\
  obstacleSpawnTimer (draw host f s) = obstacleSpawnTimer s.
Proof.
  intros Hphase Hg.
  assert (Hintro : introOverlayActive s = true).
  { unfold phase in Hphase. destruct (introOverlayActive s);
      [reflexivity|]. destruct (gameOver s); discriminate Hphase. }
  destruct (draw_guarded host f s (or_introl Hintro))
    as (Hout & Hobs & Ht & _).
  apply outcome_same in Hout as (Hg' & _ & Hs & _).
  destruct (prologue_keeps f s) as (_ & _ & _ & Hpg & _ & _ & _ & _ & Hps).
  rewrite Hpg, Hg in Hg'. rewrite Hps, Hg in Hs.
  split; [exact Hs|]. split; [exact Hg'|].
  split; [|split; [exact Hobs | exact Ht]].
  rewrite draw_segments, Hg'. reflexivity.
Qed.

End Waiting.

Lemma spawn_delay_stays_in_range_witness :
  let s := run exampleHost [ResetGame 1000; SetIntroOverlay false]
               exampleBoot in
  phase s = Playing /\
  900 <= nextObstacleDelay s /\ nextObstacleDelay s < 1600 /\
  visited exampleHost (exampleFrame 3000 2000) s
  = obstacles s ++ [spawned exampleHost s].
Proof.
  cbn zeta. unfold exampleBoot.
  destruct (spawn_delay_stays_in_range exampleHost emptyStorage
              (loaded 320 324) (loaded 64 64) (loaded 400 200)
              (loaded 1600 900) (loaded 120 60) 1280 600 0
              [ResetGame 1000; SetIntroOverlay false]
              (exampleFrame 3000 2000) exampleRandom_range)
    as [[Hlo Hhi] Hlate].
  split; [vm_compute; reflexivity|]. split; [exact Hlo|].
  split; [exact Hhi|]. apply Hlate.
  - vm_compute. reflexivity.
  - vm_compute. discriminate.
  - vm_compute. discriminate.
  - vm_compute. discriminate.
Defined.

Lemma intro_frames_keep_scoring_witness :
  let s' := draw exampleHost (exampleFrame 2500 16) exampleBoot in
  phase exampleBoot = Intro /\ score s' == 2.5 /\ obstacles s' = [].
Proof.
  cbn zeta.
  assert (Hp : phase exampleBoot = Intro) by (vm_compute; reflexivity).
  assert (Hg : gameOver exampleBoot = false) by (vm_compute; reflexivity).
  destruct (intro_frames_keep_scoring exampleHost (exampleFrame 2500 16)
              exampleBoot Hp Hg) as (Hs & _ & _ & Ho & _).
  split; [exact Hp|]. split.
  - rewrite Hs. vm_compute. reflexivity.
  - rewrite Ho. vm_compute. reflexivity.
Defined.

(** A resize in a running round can end it: the frame it redraws finds
    the head on an obstacle. *)
Example resize_can_end_round :
  phase exampleDanger = Playing /\
  phase (step exampleHost (WindowResized 1280 600 (exampleFrame 4446 16))
              exampleDanger) = GameOver.
Proof. split; vm_compute; reflexivity. Qed.
